(** * Watershed / depression engine: a shallow embedding of [lib/util.py],
    [lib/river_analysis.py] and [experiments/save_flow_accumulation.py]

    Conventions of the embedding.

    - A 2-D numpy array of shape [(rows, cols)] is its row-major flattening,
      a [list], together with the two dimensions; the cell [(r, c)] has
      the linear index [r * cols + c], which is also what the source uses
      whenever it reshapes ([map_2d_to_1d], [map_1d_to_2d]).
    - Indices, dimensions and sentinels are Python integers: [Z].
    - Elevations and the step size are integers ([Z], e.g. heights in a
      fixed unit), without the wrap-around of [int64].
    - Slopes are doubles: a height difference is converted to a double and
      divided by a double distance. A double is a [spec_float] of the
      format binary64, and the operations are those of the standard
      library's specification of IEEE 754 ([SpecFloat]), rounding to nearest
      even; see [Doubles].
    - An [object] array cell is an [option Z]: [None] is Python's [None].
      The source is Python 2, where [None] compares below every number.
    - A vectorised assignment [a[np.where(cond)] = f(...)] is an [imap] that
      rewrites the cells satisfying [cond]; the right-hand side reads the
      array as it was before the assignment, as numpy evaluates it.
    - A call that numpy rejects with an exception returns [None]. *)

From Stdlib Require Import ZArith List Lia Reals Lra Psatz Permutation SpecFloat.
From stdpp Require Import base list gmap sorting.

Local Open Scope Z_scope.
Set Warnings "-clear-no-such-hyp".

(** ** Arrays indexed by Python integers *)

Definition zlookup {A} (l : list A) (i : Z) : option A :=
  if decide (0 ≤ i) then l !! Z.to_nat i else None.

(** [height h i] reads the elevation of a cell of the grid. Outside of the
    grid numpy raises an [IndexError], or reads from the end of the array
    for a negative index; the model answers 0 there, and the theorems that
    read elevations are stated for cells of the grid. *)
Definition height (heights : list Z) (i : Z) : Z := default 0 (zlookup heights i).

(** [arr[i] = v] for one Python index inside the array. *)
Definition zinsert {A} (i : Z) (v : A) (l : list A) : list A :=
  if decide (0 ≤ i) then <[Z.to_nat i:=v]> l else l.

Definition max_of (l : list Z) : Z :=
  match l with [] => 0 | x :: l' => foldl Z.max x l' end.

Definition min_of (l : list Z) : Z :=
  match l with [] => 0 | x :: l' => foldl Z.min x l' end.

(** ** Grid kernel *)

(** [map_2d_to_1d] and [map_1d_to_2d]; [np.divide] on Python 2 integers
    is the floor division. *)
Definition map_2d_to_1d (rc : Z * Z) (cols : Z) : Z := rc.2 + rc.1 * cols.

Definition map_1d_to_2d (i cols : Z) : Z * Z := (i / cols, i mod cols).

(** The slice [1:-1, 1:-1] of an array of shape [(rows, cols)]. *)
Definition interior (rows cols r c : Z) : bool :=
  bool_decide (1 ≤ r ≤ rows - 2 ∧ 1 ≤ c ≤ cols - 2).

(** The order in which [get_neighbor_heights] and [get_neighbor_indices]
    list the neighbours, as (row, column) offsets:
    D8 = NE, E, SE, S, SW, W, NW, N and D4 = E, S, W, N. *)
Definition offsets (d4 : bool) : list (Z * Z) :=
  if d4 then [(0, 1); (1, 0); (0, -1); (-1, 0)]
  else [(-1, 1); (0, 1); (1, 1); (1, 0); (1, -1); (0, -1); (-1, -1); (-1, 0)].

Definition get_neighbor_heights (heights : list Z) (cols : Z) (d4 : bool)
    (r c : Z) : list Z :=
  (λ d, height heights (map_2d_to_1d (r + d.1, c + d.2) cols)) <$> offsets d4.

Definition get_neighbor_indices (i cols : Z) (d4 : bool) : list Z :=
  if d4 then [i + 1; i + cols; i - 1; i - cols]
  else [i - cols + 1; i + 1; i + cols + 1; i + cols; i + cols - 1; i - 1;
        i - cols - 1; i - cols].

(** ** Pit filler: [fill_single_cell_depressions] *)

(** [np.max(delta, axis=2) < 0] at an interior cell, where
    [delta = heights - nbr_heights] over the eight neighbours. *)
Definition is_local_minimum (heights : list Z) (rows cols r c : Z) : bool :=
  interior rows cols r c
  && bool_decide
       (max_of ((λ n, height heights (map_2d_to_1d (r, c) cols) - n)
                  <$> get_neighbor_heights heights cols false r c) < 0).

Definition fill_single_cell_depressions (heights : list Z) (rows cols : Z) : list Z :=
  imap (λ i v,
      let rc := map_1d_to_2d (Z.of_nat i) cols in
      if is_local_minimum heights rows cols rc.1 rc.2
      then min_of (get_neighbor_heights heights cols false rc.1 rc.2)
      else v) heights.

(** The condition under which the pit filler rewrites a cell, as a
    proposition: the cell is strictly lower than each of its eight
    neighbours. *)
Definition strictly_below_neighbors (heights : list Z) (cols i : Z) : Prop :=
  let rc := map_1d_to_2d i cols in
  Forall (λ n, height heights i < n) (get_neighbor_heights heights cols false rc.1 rc.2).

(** The wording of the specification for the same condition: "the maximum
    neighbor elevation is below its own". *)
Definition max_neighbor_below_own (heights : list Z) (cols i : Z) : Prop :=
  let rc := map_1d_to_2d i cols in
  max_of (get_neighbor_heights heights cols false rc.1 rc.2) < height heights i.

(** ** Doubles

    The format binary64: 53 bits of precision, exponents below 1024. *)
Definition prec : Z := 53.
Definition emax : Z := 1024.

(** The conversion of an integer array to [float64] by numpy: the nearest
    double, an infinity beyond the doubles ([int64] never gets there). *)
Definition np_float64 (z : Z) : spec_float := binary_normalize prec emax z 0 false.

(** [float(z)] for a Python integer, as Python converts the integer operand
    of an arithmetic operation with a float: the nearest double, and
    [OverflowError] beyond the doubles. *)
Definition float_of_int (z : Z) : option spec_float :=
  match np_float64 z with
  | S754_infinity _ | S754_nan => None
  | f => Some f
  end.

(** [x / y] on Python floats: [ZeroDivisionError] for a zero divisor. *)
Definition float_div (x y : spec_float) : option spec_float :=
  match y with
  | S754_zero _ => None
  | _ => Some (SFdiv prec emax x y)
  end.

(** [math.sqrt] of a double that is not negative. *)
Definition float_sqrt (x : spec_float) : spec_float := SFsqrt prec emax x.

(** [x > 0] for a double [x]. *)
Definition float_pos (x : spec_float) : bool := SFltb (S754_zero false) x.

(** [np.max] of an array of Python floats: [maximum] keeps its first
    argument when it is [>=] the second. *)
Definition float_max (l : list spec_float) : spec_float :=
  match l with
  | [] => S754_nan
  | x :: l' => foldl (λ acc y, if SFleb y acc then acc else y) x l'
  end.

(** *** The order and the shape of doubles

    [float_key] lists the doubles in increasing order, the two zeros
    together; [signed_as s x] holds when [x] has the sign bit [s] or is not
    a number. *)
Definition float_key (f : spec_float) : Z * Z * Z :=
  match f with
  | S754_infinity true => (-2, 0, 0)
  | S754_finite true m e => (-1, - e, - Z.pos m)
  | S754_zero _ | S754_nan => (0, 0, 0)
  | S754_finite false m e => (1, e, Z.pos m)
  | S754_infinity false => (2, 0, 0)
  end.

Definition key_lt (a b : Z * Z * Z) : Prop :=
  a.1.1 < b.1.1 ∨ (a.1.1 = b.1.1 ∧ (a.1.2 < b.1.2 ∨ (a.1.2 = b.1.2 ∧ a.2 < b.2))).

Definition is_nan (f : spec_float) : bool :=
  match f with S754_nan => true | _ => false end.

Definition is_finite (f : spec_float) : bool :=
  match f with S754_zero _ | S754_finite _ _ _ => true | _ => false end.

(** A positive double or [+inf]: what a distance is. *)
Definition is_distance (f : spec_float) : bool :=
  match f with S754_finite false _ _ | S754_infinity false => true | _ => false end.

Definition signed_as (s : bool) (f : spec_float) : Prop :=
  match f with
  | S754_zero s' | S754_infinity s' | S754_finite s' _ _ => s' = s
  | S754_nan => True
  end.

(** The mantissa of a rounding state is positive and has [d] binary
    digits. *)
Definition has_digits (d : Z) (mrs : shr_record) : Prop :=
  ∃ p, shr_m mrs = Z.pos p ∧ Z.pos (digits2_pos p) = d.

(** ** Slopes

    [get_derivatives] divides the height difference to a neighbour by the
    distance to it: [step_size] for a cardinal neighbour and
    [math.sqrt(step_size ** 2 + step_size ** 2)] for a diagonal one. The
    differences are Python integers (the neighbour heights are kept in an
    [object] array), the distances doubles. *)
Definition run_length (step_size : Z) (diag : bool) : option spec_float :=
  if diag then float_sqrt <$> float_of_int (step_size ^ 2 + step_size ^ 2)
  else float_of_int step_size.

Definition derivative (delta : Z) (distance : spec_float) : option spec_float :=
  x ← float_of_int delta; float_div x distance.

(** [np.argmax]: the first index that holds the greatest value. *)
Fixpoint argmax_aux {A} (ltb : A → A → bool) (best : A) (best_i i : nat)
    (l : list A) : nat :=
  match l with
  | [] => best_i
  | x :: l' =>
      if ltb best x then argmax_aux ltb x i (S i) l'
      else argmax_aux ltb best best_i (S i) l'
  end.

Definition argmax {A} (ltb : A → A → bool) (l : list A) : nat :=
  match l with [] => 0%nat | x :: l' => argmax_aux ltb x 0 1 l' end.

(** ** Flow field *)

(** Which of the neighbours, in the order of [offsets], are diagonal. *)
Definition diagonal_flags (d4 : bool) : list bool :=
  if d4 then [false; false; false; false]
  else [true; false; true; false; true; false; true; false].

(** The array [distance] of [get_derivatives], in the order of
    [offsets]; it is computed whether or not there is an interior cell. *)
Definition distances (step_size : Z) (d4 : bool) : option (list spec_float) :=
  mapM (run_length step_size) (diagonal_flags d4).

(** [get_derivatives] at the interior cell [(r, c)]. *)
Definition get_derivatives (heights : list Z) (cols : Z) (distance : list spec_float)
    (d4 : bool) (r c : Z) : option (list spec_float) :=
  mapM (λ nd : Z * spec_float,
          derivative (height heights (map_2d_to_1d (r, c) cols) - nd.1) nd.2)
    (zip (get_neighbor_heights heights cols d4 r c) distance).

(** The code of the [k]-th direction: [2 ** k] for D8, [k + 1] for D4. *)
Definition direction_code (d4 : bool) (k : nat) : Z :=
  if d4 then Z.of_nat k + 1 else 2 ^ Z.of_nat k.

(** [get_flow_directions]: [None] on the domain boundary, [-1] where no
    slope is positive, otherwise the code of the steepest direction. The
    conversion of the step size or of a height difference to a double, or
    the division by a zero distance, can fail. *)
Definition get_flow_directions (heights : list Z) (step_size rows cols : Z)
    (d4 : bool) : option (list (option Z)) :=
  distance ← distances step_size d4;
  mapM (λ i,
     let rc := map_1d_to_2d i cols in
     if interior rows cols rc.1 rc.2 then
       derivatives ← get_derivatives heights cols distance d4 rc.1 rc.2;
       Some (Some (if float_pos (float_max derivatives)
                   then direction_code d4 (argmax SFltb derivatives) else -1))
     else Some None) (seqZ 0 (rows * cols)).

(** [remove_out_of_boundary_flow]: the directions that leave the interior
    from its first and last row and column. [flow_directions[1, :]] and
    [flow_directions[:, -2]] need at least two rows and two columns. *)
Definition leaves_interior (d4 : bool) (rows cols r c : Z) (code : option Z) : bool :=
  if d4 then
    bool_decide (r = 1 ∧ code = Some 4) || bool_decide (c = cols - 2 ∧ code = Some 1)
    || bool_decide (r = rows - 2 ∧ code = Some 2) || bool_decide (c = 1 ∧ code = Some 3)
  else
    bool_decide (r = 1 ∧ (code = Some 1 ∨ code = Some 64 ∨ code = Some 128))
    || bool_decide (c = cols - 2 ∧ (code = Some 1 ∨ code = Some 2 ∨ code = Some 4))
    || bool_decide (r = rows - 2 ∧ (code = Some 4 ∨ code = Some 8 ∨ code = Some 16))
    || bool_decide (c = 1 ∧ (code = Some 16 ∨ code = Some 32 ∨ code = Some 64)).

Definition remove_out_of_boundary_flow (flow_directions : list (option Z))
    (rows cols : Z) (d4 : bool) : option (list (option Z)) :=
  if decide (2 ≤ rows ∧ 2 ≤ cols) then
    Some (imap (λ i code,
            let rc := map_1d_to_2d (Z.of_nat i) cols in
            if leaves_interior d4 rows cols rc.1 rc.2 code then Some (-1) else code)
          flow_directions)
  else None.

(** The tables [values] and [translations] of [get_flow_direction_indices]. *)
Definition direction_values (d4 : bool) : list Z :=
  if d4 then [1; 2; 3; 4] else [1; 2; 4; 8; 16; 32; 64; 128].

Definition translations (cols : Z) (d4 : bool) : list Z :=
  if d4 then [1; cols; -1; - cols]
  else [- cols + 1; 1; cols + 1; cols; cols - 1; -1; - cols - 1; - cols].

(** The translation of the first entry of [values] equal to [code]. *)
Fixpoint translation_of (code : Z) (values translations : list Z) : option Z :=
  match values, translations with
  | v :: values', t :: translations' =>
      if decide (code = v) then Some t else translation_of code values' translations'
  | _, _ => None
  end.

Definition get_flow_direction_indices (heights : list Z) (step_size rows cols : Z)
    (d4 : bool) : option (list (option Z)) :=
  flow_directions ← get_flow_directions heights step_size rows cols d4;
  flow_directions ← remove_out_of_boundary_flow flow_directions rows cols d4;
  Some (imap (λ i code,
          match code with
          | Some v =>
              match translation_of v (direction_values d4) (translations cols d4) with
              | Some t => Some (Z.of_nat i + t)
              | None => Some v
              end
          | None => None
          end) flow_directions).

(** The cells of the outermost ring, [get_domain_boundary_indices]: top and
    bottom row, left and right column, sorted. *)
Definition on_domain_boundary (rows cols i : Z) : Prop :=
  let rc := map_1d_to_2d i cols in
  rc.1 = 0 ∨ rc.1 = rows - 1 ∨ rc.2 = 0 ∨ rc.2 = cols - 1.

Global Instance on_domain_boundary_dec rows cols i : Decision (on_domain_boundary rows cols i).
Proof. unfold on_domain_boundary. apply _. Defined.

(** [k] is the first index of [l] that holds the greatest double of [l]. *)
Definition is_first_max (l : list spec_float) (k : nat) : Prop :=
  ∃ x, l !! k = Some x
       ∧ (∀ j y, l !! j = Some y → SFleb y x = true)
       ∧ (∀ j y, (j < k)%nat → l !! j = Some y → SFltb y x = true).

(** The distance between two neighbouring cells: the classification by
    index difference of [get_steepest_spill_pair]
    ([diff == 1] or [diff == cols] is cardinal), and the slope from a
    cell to a neighbour as the double the source computes. *)
Definition is_cardinal (cols a b : Z) : bool :=
  bool_decide (Z.abs (a - b) = 1 ∨ Z.abs (a - b) = cols).

Definition distance (step_size cols a b : Z) : option spec_float :=
  run_length step_size (negb (is_cardinal cols a b)).

Definition slope_to (heights : list Z) (step_size cols a b : Z) : option spec_float :=
  d ← distance step_size cols a b;
  derivative (height heights a - height heights b) d.

(** The slope of the specification: the same quotient as a real number. *)
Definition exact_slope (heights : list Z) (step_size cols a b : Z) : R :=
  (IZR (height heights a - height heights b)
   / if is_cardinal cols a b then IZR step_size
     else sqrt (IZR step_size ^ 2 + IZR step_size ^ 2))%R.

(** Heights and a step size that the conversions to doubles take without
    rounding: every height difference is below [2 ^ 53], and so is
    [step_size ** 2 + step_size ** 2]. *)
Definition representable (heights : list Z) (step_size : Z) : Prop :=
  Forall (λ h, - 2 ^ 52 < h < 2 ^ 52) heights ∧ 0 < step_size < 2 ^ 26.

Global Instance representable_dec heights step_size : Decision (representable heights step_size).
Proof. unfold representable. apply _. Defined.

(** ** Endpoint labeller *)

(** [get_domain_boundary_coords]: top row, bottom row, left column, right
    column, as (row, column) pairs. *)
Definition get_domain_boundary_coords (cols rows : Z) : list (Z * Z) :=
  ((λ c, (0, c)) <$> seqZ 0 cols) ++ ((λ c, (rows - 1, c)) <$> seqZ 0 cols)
  ++ ((λ r, (r, 0)) <$> seqZ 1 (rows - 2)) ++ ((λ r, (r, cols - 1)) <$> seqZ 1 (rows - 2)).

(** [arr[coords] = v] for a list of (row, column) pairs. *)
Definition assign_cells {A} (arr : list A) (cols : Z) (coords : list (Z * Z)) (v : A) : list A :=
  foldl (λ a rc, <[Z.to_nat (map_2d_to_1d rc cols) := v]> a) arr coords.

(** [terminal_nodes < -2] and [terminal_nodes >= 0] on an object cell;
    Python 2 orders [None] below every integer. *)
Definition no_terminal_node (t : option Z) : bool :=
  match t with None => true | Some z => bool_decide (z < -2) end.

Definition is_end_point (t : option Z) : bool :=
  match t with None => false | Some z => bool_decide (0 ≤ z) end.

(** The entry [downslope_neighbors[i]] as an integer (a [None] there makes
    [astype(int)] fail), and the cell it names, which has to be in the grid
    for [downslope_neighbors[map_1d_to_2d(next_nodes, cols)]]. *)
Definition next_node (downslope_neighbors : list (option Z)) (i : nat) : option Z :=
  n ← mjoin (downslope_neighbors !! i);
  _ ← zlookup downslope_neighbors n;
  Some n.

(** [update_terminal_nodes], cell by cell. [no_terminal_nodes] are the cells
    with [no_terminal_node]; [are_minima] those among them whose next cell
    is a minimum, [are_end_points] those among the rest whose next cell has
    an end point after the first assignment. *)
Definition update_terminal_nodes (terminal_nodes downslope_neighbors : list (option Z))
    (cols : Z) : option (nat * list (option Z)) :=
  let cells := seq 0 (length terminal_nodes) in
  let no_terminal_nodes :=
    filter (λ i, no_terminal_node (mjoin (terminal_nodes !! i)) = true) cells in
  if decide (no_terminal_nodes = []) then Some (0%nat, terminal_nodes)
  else
    next_nodes ← mapM (next_node downslope_neighbors) no_terminal_nodes;
    let next i := default 0 (next_node downslope_neighbors i) in
    let is_minimum i :=
      bool_decide (mjoin (zlookup downslope_neighbors (next i)) = Some (-1)) in
    let are_minima := filter (λ i, is_minimum i = true) no_terminal_nodes in
    let terminal_nodes1 :=
      imap (λ i t, if bool_decide (i ∈ are_minima) then Some (next i) else t) terminal_nodes in
    let undecided := filter (λ i, i ∉ are_minima) no_terminal_nodes in
    let are_end_points :=
      filter (λ i, is_end_point (mjoin (zlookup terminal_nodes1 (next i))) = true) undecided in
    let terminal_nodes2 :=
      imap (λ i t, if bool_decide (i ∈ are_end_points)
                   then mjoin (zlookup terminal_nodes1 (next i)) else t) terminal_nodes1 in
    Some ((length are_minima + length are_end_points)%nat, terminal_nodes2).

(** The loop [while num_inserted > 0] of [get_node_endpoints]. *)
Fixpoint node_endpoints_loop (fuel : nat) (num_inserted : nat)
    (terminal_nodes downslope_neighbors : list (option Z)) (cols : Z)
    : option (list (option Z)) :=
  match num_inserted with
  | 0%nat => Some terminal_nodes
  | _ =>
      match fuel with
      | 0%nat => None
      | S fuel' =>
          '(num_inserted', terminal_nodes') ←
            update_terminal_nodes terminal_nodes downslope_neighbors cols;
          node_endpoints_loop fuel' num_inserted' terminal_nodes' downslope_neighbors cols
      end
  end.

(** [get_node_endpoints]; [rows] and [cols] are the shape of
    [downslope_neighbors]. [np.zeros(rows - 2)] needs two rows. Every pass of
    the loop but the last gives an end point to a cell that had none, so
    one more pass than there are cells is enough fuel. *)
Definition get_node_endpoints (downslope_neighbors : list (option Z)) (rows cols : Z)
    : option (list (option Z)) :=
  if decide (rows < 2) then None
  else
    let domain_boundary := get_domain_boundary_coords cols rows in
    let terminal_nodes := replicate (length downslope_neighbors) None in
    let minima :=
      filter (λ i, downslope_neighbors !! i = Some (Some (-1)))
        (seq 0 (length downslope_neighbors)) in
    let terminal_nodes :=
      imap (λ i t, if bool_decide (i ∈ minima) then Some (Z.of_nat i) else t) terminal_nodes in
    let terminal_nodes := assign_cells terminal_nodes cols domain_boundary (Some (-2)) in
    terminal_nodes ← node_endpoints_loop (S (length downslope_neighbors)) (length minima)
                       terminal_nodes downslope_neighbors cols;
    Some (assign_cells terminal_nodes cols domain_boundary None).

(** The flow path of a cell: [reaches D i p] when following
    [downslope_neighbors] from [i] ends in the [PIT] cell [p]. *)
Inductive reaches (D : list (option Z)) : Z → Z → Prop :=
  | reaches_pit p : zlookup D p = Some (Some (-1)) → reaches D p p
  | reaches_step i n p :
      zlookup D i = Some (Some n) → n ≠ -1 → reaches D n p → reaches D i p.

(** A flow-direction field of shape [(rows, cols)]: [None] on the domain
    boundary, and [-1] or a cell of the grid everywhere else. *)
Definition flow_cell_wf (D : list (option Z)) (rows cols i : Z) : Prop :=
  match zlookup D i with
  | Some None => on_domain_boundary rows cols i
  | Some (Some v) => ¬ on_domain_boundary rows cols i ∧ (v = -1 ∨ 0 ≤ v < rows * cols)
  | None => False
  end.

Global Instance flow_cell_wf_dec D rows cols i : Decision (flow_cell_wf D rows cols i).
Proof. unfold flow_cell_wf. destruct (zlookup D i) as [[v|]|]; apply _. Defined.

Definition flow_field_wf (D : list (option Z)) (rows cols : Z) : Prop :=
  length D = Z.to_nat (rows * cols) ∧ 2 ≤ rows ∧ 1 ≤ cols
  ∧ Forall (flow_cell_wf D rows cols) (seqZ 0 (rows * cols)).

Global Instance flow_field_wf_dec D rows cols : Decision (flow_field_wf D rows cols).
Proof. unfold flow_field_wf. apply _. Defined.

(** The invariant of the labelling loop: boundary cells hold -2, every
    minimum is labelled with itself, and a label is the end of the flow path
    of its cell. *)
Definition labels_inv (D T : list (option Z)) (rows cols : Z) : Prop :=
  length T = length D
  ∧ ∀ i, 0 ≤ i < rows * cols →
      if decide (on_domain_boundary rows cols i) then zlookup T i = Some (Some (-2))
      else (zlookup D i = Some (Some (-1)) → zlookup T i = Some (Some i))
           ∧ (zlookup T i = Some None ∨ ∃ p, zlookup T i = Some (Some p) ∧ reaches D i p).

(** No unlabelled cell could be labelled by one more pass. *)
Definition labels_closed (D T : list (option Z)) : Prop :=
  ∀ i n, zlookup T i = Some None → zlookup D i = Some (Some n) →
    mjoin (zlookup D n) ≠ Some (-1) ∧ is_end_point (mjoin (zlookup T n)) = false.

Definition unlabelled_cells (T : list (option Z)) : list nat :=
  filter (λ i, no_terminal_node (mjoin (T !! i)) = true) (seq 0 (length T)).

(** ** Spill engine: boundary pairs, candidates, steepest pair *)

(** Pairs are kept as a list of (from, to); the source keeps the two
    parallel arrays [from_indices] and [to_indices]. *)
Definition boundary_pairs_of (watershed : list Z) (nx : Z) (d4 : bool) : list (Z * Z) :=
  filter (λ p, p.2 ∉ watershed)
    (u ← watershed; (λ v, (u, v)) <$> get_neighbor_indices u nx d4).

(** [np.concatenate(nbrs)] needs a cell in the watershed. *)
Definition get_boundary_pairs_for_specific_watersheds (specific_watersheds : list (list Z))
    (nx : Z) (d4 : bool) : option (list (list (Z * Z))) :=
  mapM (λ watershed,
          if decide (watershed = []) then None
          else Some (boundary_pairs_of watershed nx d4)) specific_watersheds.

Definition pair_max (heights : list Z) (p : Z * Z) : Z :=
  Z.max (height heights p.1) (height heights p.2).

(** One watershed of [get_possible_spill_pairs]; [np.min] of an empty array
    is an error. *)
Definition possible_spill_pairs (heights : list Z) (pairs : list (Z * Z))
    : option (list (Z * Z)) :=
  if decide (pairs = []) then None
  else
    let min_of_max := min_of (pair_max heights <$> pairs) in
    Some (filter (λ p, height heights p.1 ≤ min_of_max ∧ height heights p.2 ≤ min_of_max)
            pairs).

Definition get_possible_spill_pairs (heights : list Z) (boundary_pairs : list (list (Z * Z)))
    : option (list (list (Z * Z))) :=
  mapM (possible_spill_pairs heights) boundary_pairs.

(** The derivative of a pair in [get_steepest_spill_pair]: the height
    difference, an integer array that numpy converts, over [10.0] for a
    cardinal pair ([diff == 1] or [diff == cols]) and over [math.sqrt(200)]
    for the others. *)
Definition spill_derivative (heights : list Z) (cols : Z) (p : Z * Z) : spec_float :=
  SFdiv prec emax (np_float64 (height heights p.1 - height heights p.2))
    (if is_cardinal cols p.1 p.2 then np_float64 10 else float_sqrt (np_float64 200)).

(** One watershed of [get_steepest_spill_pair]; [np.argmax] of an empty
    array is an error. *)
Definition steepest_spill_pair (heights : list Z) (cols : Z) (pairs : list (Z * Z))
    : option (Z * Z) :=
  pairs !! argmax SFltb (spill_derivative heights cols <$> pairs).

(** The list [steepest_spill_pairs] that the loop of
    [get_steepest_spill_pair] fills, and the set made of it. *)
Definition steepest_spill_pairs (heights : list Z) (cols : Z)
    (spill_pairs : list (list (Z * Z))) : option (list (Z * Z)) :=
  mapM (steepest_spill_pair heights cols) spill_pairs.

Definition get_steepest_spill_pair (heights : list Z) (cols : Z)
    (spill_pairs : list (list (Z * Z))) : option (gset (Z * Z)) :=
  list_to_set <$> steepest_spill_pairs heights cols spill_pairs.

(** [M] is the least, over the boundary pairs, of the greater height of a
    pair. *)
Definition is_min_of_max (heights : list Z) (pairs : list (Z * Z)) (M : Z) : Prop :=
  (∃ p, p ∈ pairs ∧ M = pair_max heights p) ∧ ∀ p, p ∈ pairs → M ≤ pair_max heights p.

(** ** Trap / spill-height resolver *)

(** [map_nodes_to_watersheds]: -1 everywhere, then [mapping[watersheds[i]] = i]
    for each watershed in turn. *)
Definition map_nodes_to_watersheds (watersheds : list (list Z)) (rows cols : Z) : list Z :=
  foldl (λ mapping iw, foldl (λ m c, zinsert c (Z.of_nat iw.1) m) mapping iw.2)
    (replicate (Z.to_nat (rows * cols)) (-1)) (imap pair watersheds).

Definition watershed_of (mapping : list Z) (c : Z) : Z := default (-1) (zlookup mapping c).

(** The order of Python on the tuples [((from_ws, to_ws), height)]. *)
Definition entry_le (e1 e2 : Z * Z * Z) : Prop :=
  e1.1.1 < e2.1.1
  ∨ (e1.1.1 = e2.1.1 ∧ (e1.1.2 < e2.1.2 ∨ (e1.1.2 = e2.1.2 ∧ e1.2 ≤ e2.2))).

Global Instance entry_le_dec e1 e2 : Decision (entry_le e1 e2).
Proof. unfold entry_le. apply _. Defined.

Definition ws_pair_height (mapping heights : list Z) (el : Z * Z) : Z * Z * Z :=
  ((watershed_of mapping el.1, watershed_of mapping el.2),
   Z.max (height heights el.1) (height heights el.2)).

(** [get_spill_heights]; [steepest_spill_pairs] is [None] or a list, and
    [not steepest_spill_pairs] holds for [None] and for the empty list. *)
Definition get_spill_heights (watersheds : list (list Z)) (heights : list Z)
    (rows cols : Z) (steepest_spill_pairs : option (list (Z * Z))) : option (list Z) :=
  match steepest_spill_pairs with
  | None | Some [] => None
  | Some pairs =>
      let mapping := map_nodes_to_watersheds watersheds rows cols in
      let ws_pair_heights := merge_sort entry_le (ws_pair_height mapping heights <$> pairs) in
      Some (snd <$> ws_pair_heights)
  end.

(** [get_all_traps]; indexing [spill_heights[i]] fails when [spill_heights]
    is [None] or too short. *)
Definition get_all_traps (watersheds : list (list Z)) (heights : list Z)
    (spill_heights : option (list Z)) : option (list (list Z) * list Z) :=
  traps ← mapM (λ iw : nat * list Z,
                  s ← spill_heights ≫= (λ l, l !! iw.1);
                  Some (filter (λ c, height heights c ≤ s) iw.2))
             (imap pair watersheds);
  Some (traps, (λ t, Z.of_nat (length t)) <$> traps).

(** The watersheds are sets of cells of the grid, and no cell is in two of
    them. *)
Definition watersheds_wf (watersheds : list (list Z)) (rows cols : Z) : Prop :=
  Forall (Forall (λ c, 0 ≤ c < rows * cols)) watersheds
  ∧ ∀ i j wi wj c, watersheds !! i = Some wi → watersheds !! j = Some wj →
      c ∈ wi → c ∈ wj → i = j.

(** ** Watershed assembler *)

(** [np.unique]: the distinct values in increasing order. The model
    iterates Python 2 dictionaries and sets, whose order is that of the
    hashes, in the order noted at each use. The rasters that the pipeline
    returns do not depend on these orders. *)
Definition np_unique (l : list Z) : list Z := merge_sort Z.le (remove_dups l).

(** The order of Python 2 on the cells of an [object] array: [None] is
    below every integer. *)
Definition endpoint_le (a b : option Z) : Prop :=
  match a, b with
  | None, _ => True
  | Some _, None => False
  | Some x, Some y => x ≤ y
  end.

Global Instance endpoint_le_dec : RelDecision endpoint_le.
Proof. intros [x|] [y|]; cbn; apply _. Defined.

(** [np.unique(ar, return_counts=True)]: the distinct entries in increasing
    order, and how often each occurs. *)
Definition np_unique_counts (ar : list (option Z)) : list (option Z) * list nat :=
  let unique := merge_sort endpoint_le (remove_dups ar) in
  (unique, (λ u, length (filter (λ e, e = u) ar)) <$> unique).

(** [np.argsort(ar)]: the indices of [ar] in the order of their entries.
    numpy's default sort is not stable; the model lists the indices of equal
    entries in increasing order. *)
Definition argsort_le (a b : option Z * nat) : Prop :=
  endpoint_le a.1 b.1 ∧ (endpoint_le b.1 a.1 → (a.2 ≤ b.2)%nat).

Global Instance argsort_le_dec : RelDecision argsort_le.
Proof. intros a b. unfold argsort_le. apply _. Defined.

Definition np_argsort (ar : list (option Z)) : list nat :=
  (merge_sort argsort_le (zip ar (seq 0 (length ar)))).*2.

(** [np.cumsum] *)
Fixpoint np_cumsum_from (acc : nat) (l : list nat) : list nat :=
  match l with
  | [] => []
  | x :: l => (acc + x)%nat :: np_cumsum_from (acc + x) l
  end.

Definition np_cumsum : list nat → list nat := np_cumsum_from 0.

(** [np.split(ar, indices)]: the slices [ar[:i0]], [ar[i0:i1]], ...,
    [ar[ik:]]. *)
Fixpoint np_split_from {A} (ar : list A) (start : nat) (indices : list nat)
    : list (list A) :=
  match indices with
  | [] => [drop start ar]
  | i :: indices => take (i - start) (drop start ar) :: np_split_from ar i indices
  end.

Definition np_split {A} (ar : list A) (indices : list nat) : list (list A) :=
  np_split_from ar 0 indices.

(** [get_local_watersheds]: the sorted indices are cut into one piece per
    distinct end point (the keys are distinct, so the dictionary holds every
    pair); [del local_watersheds[None]] needs a cell without end point. The
    cells of the remaining pieces are the values. *)
Definition get_local_watersheds (node_endpoints : list (option Z))
    : option (gmap Z (list Z)) :=
  let '(unique, counts) := np_unique_counts node_endpoints in
  let sorted_indices := np_argsort node_endpoints in
  let pieces := np_split sorted_indices (np_cumsum counts) in
  let indices_to_endpoints := take (length pieces - 1) pieces in
  let local_watersheds := zip unique indices_to_endpoints in
  if decide (None ∈ unique) then
    Some (list_to_map
            (omap (λ kv : option Z * list nat, (λ m, (m, Z.of_nat <$> kv.2)) <$> kv.1)
               local_watersheds))
  else None.

(** [local_watersheds.keys()], here in increasing order. *)
Definition local_minima_of (local_watersheds : gmap Z (list Z)) : list Z :=
  merge_sort Z.le (elements (dom local_watersheds)).

(** Two minima are connected when one is a neighbour of the other
    ([csgraph.connected_components] with [directed=False]). *)
Definition minima_connected (cols : Z) (d4 : bool) (a b : Z) : Prop :=
  b ∈ get_neighbor_indices a cols d4 ∨ a ∈ get_neighbor_indices b cols d4.

Global Instance minima_connected_dec cols d4 a b : Decision (minima_connected cols d4 a b).
Proof. unfold minima_connected. apply _. Defined.

Fixpoint grow_component (fuel : nat) (cols : Z) (d4 : bool) (minima comp : list Z)
    : list Z :=
  match fuel with
  | 0%nat => comp
  | S fuel' =>
      let new := filter (λ m, (m ∉ comp) ∧ Exists (λ a, minima_connected cols d4 a m) comp)
                   minima in
      if decide (new = []) then comp
      else grow_component fuel' cols d4 minima (comp ++ new)
  end.

(** The components in the order of their labels (the order of their least
    member), each in increasing order. *)
Fixpoint connected_components (fuel : nat) (cols : Z) (d4 : bool) (minima todo : list Z)
    : list (list Z) :=
  match fuel, todo with
  | S fuel', m :: todo' =>
      let comp := np_unique (grow_component (length minima) cols d4 minima [m]) in
      comp :: connected_components fuel' cols d4 minima (filter (λ x, x ∉ comp) todo')
  | _, _ => []
  end.

Definition combine_minima (local_minima : list Z) (rows cols : Z) (d4 : bool)
    : list (list Z) :=
  if decide (length local_minima = 1%nat) then [local_minima]
  else
    let nodes_in_comb_min :=
      connected_components (length local_minima) cols d4 local_minima
        (np_unique local_minima) in
    let combined_minima := filter (λ ws, (1 < length ws)%nat) nodes_in_comb_min in
    if decide (combined_minima = []) then (λ m, [m]) <$> local_minima
    else
      let already_located_minima := mjoin combined_minima in
      let remaining_minima :=
        np_unique (filter (λ m, m ∉ already_located_minima) local_minima) in
      combined_minima ++ ((λ m, [m]) <$> remaining_minima).

(** [combine_watersheds]: the local watersheds of a group of minima,
    concatenated. *)
Definition combine_watersheds (local_watersheds : gmap Z (list Z))
    (combined_minima : list (list Z)) : option (list (list Z)) :=
  mapM (λ comb, mjoin <$> mapM (λ m, local_watersheds !! m) comb) combined_minima.

(** ** Spill engine: the fixed point *)

(** The watersheds whose index is not in [merged_indices], then the merged
    ones. *)
Definition replace_merged (watersheds : list (list Z)) (merged_indices : list Z)
    (merged_watersheds : list (list Z)) : list (list Z) :=
  (omap (λ iw : nat * list Z, if decide (Z.of_nat iw.1 ∈ merged_indices) then None
                              else Some iw.2)
     (imap pair watersheds))
  ++ merged_watersheds.

Definition ws_pair (mapping : list Z) (s_p : Z * Z) : Z * Z :=
  (watershed_of mapping s_p.1, watershed_of mapping s_p.2).

(** The dictionary [d] from the pair of watershed numbers of a spill pair
    to the spill pair. *)
Definition spill_pair_dict (mapping : list Z) (steepest : list (Z * Z))
    : gmap (Z * Z) (Z * Z) :=
  foldl (λ d s_p, <[ws_pair mapping s_p:=s_p]> d) ∅ steepest.

(** [merge_watersheds_flowing_into_each_other]; the sets are iterated in
    the order of [elements]. *)
Definition merge_watersheds_flowing_into_each_other (watersheds : list (list Z))
    (steepest_spill_pairs : gset (Z * Z)) (rows cols : Z)
    : option (list (list Z) * gset (Z * Z) * list Z) :=
  let map_node_to_ws := map_nodes_to_watersheds watersheds rows cols in
  let d := spill_pair_dict map_node_to_ws (elements steepest_spill_pairs) in
  let temp : gset (Z * Z) := set_map (ws_pair map_node_to_ws) steepest_spill_pairs in
  let temp_rev : gset (Z * Z) :=
    set_map (λ el : Z * Z, (watershed_of map_node_to_ws el.2, watershed_of map_node_to_ws el.1))
      steepest_spill_pairs in
  let pairs_to_each_other := temp ∩ temp_rev in
  let merge_pairs : gset (Z * Z) :=
    set_map (λ x : Z * Z, (Z.min x.1 x.2, Z.max x.1 x.2)) pairs_to_each_other in
  merged_watersheds ←
    mapM (λ el : Z * Z, a ← zlookup watersheds el.1; b ← zlookup watersheds el.2; Some (a ++ b))
      (elements merge_pairs);
  let merged_indices := np_unique (elements merge_pairs ≫= λ el, [el.1; el.2]) in
  removed ← mapM (λ k, d !! k) (elements pairs_to_each_other);
  Some (merged_watersheds, list_to_set removed, merged_indices).

(** The edges of the graph of [remove_cycles] leave every watershed at
    most once (a watershed has one spill pair), so that its simple cycles
    are the orbits of the successor map that come back to their start.
    [cycle_from] follows the successors from [start]; a cycle is listed
    from its least member, which gives the cycles in sorted order. *)
Definition successor (edges : list (Z * Z)) (a : Z) : option Z :=
  snd <$> head (filter (λ e, e.1 = a) edges).

Fixpoint cycle_from (fuel : nat) (edges : list (Z * Z)) (start cur : Z) (acc : list Z)
    : option (list Z) :=
  match fuel with
  | 0%nat => None
  | S fuel' =>
      match successor edges cur with
      | None => None
      | Some next =>
          if decide (next = start) then Some (acc ++ [cur])
          else if decide (next ∈ acc ∨ next = cur ∨ next < start) then None
          else cycle_from fuel' edges start next (acc ++ [cur])
      end
  end.

Definition simple_cycles (edges : list (Z * Z)) : list (list Z) :=
  omap (λ a, cycle_from (S (length edges)) edges a a [])
    (np_unique (edges ≫= λ e, [e.1; e.2])).

Definition remove_cycles (watersheds : list (list Z)) (steepest : gset (Z * Z))
    (ny nx : Z) : option (list (list Z) * gset (Z * Z) * list Z) :=
  let steepest := elements steepest in
  let mapping := map_nodes_to_watersheds watersheds ny nx in
  let spill_pairs :=
    filter (λ e : Z * Z, e.1 ≠ -1 ∧ e.2 ≠ -1) (ws_pair mapping <$> steepest) in
  let cycles := simple_cycles spill_pairs in
  let merged_indices := merge_sort Z.le (mjoin cycles) in
  merged_watersheds ← mapM (λ c, mjoin <$> mapM (zlookup watersheds) c) cycles;
  let d := spill_pair_dict mapping steepest in
  removed ← mapM (λ el, d !! el) (filter (λ el : Z * Z, el.1 ∈ merged_indices) spill_pairs);
  Some (merged_watersheds, list_to_set removed, merged_indices).

(** The loop [while len(merged_watersheds) > 0] of
    [combine_watersheds_spilling_into_each_other]. *)
Fixpoint spill_loop (fuel : nat) (heights : list Z) (ny nx : Z) (d4 : bool)
    (watersheds merged_watersheds : list (list Z)) (remaining_spill_pairs : gset (Z * Z))
    (steepest_spill_pairs : option (gset (Z * Z)))
    : option (list (list Z) * option (gset (Z * Z))) :=
  match merged_watersheds with
  | [] => Some (watersheds, steepest_spill_pairs)
  | _ =>
      match fuel with
      | 0%nat => None
      | S fuel' =>
          boundary_pairs ←
            get_boundary_pairs_for_specific_watersheds merged_watersheds nx d4;
          spill_pairs ← get_possible_spill_pairs heights boundary_pairs;
          steepest ← get_steepest_spill_pair heights nx spill_pairs;
          let steepest := steepest ∪ remaining_spill_pairs in
          '(merged, removed, merged_indices) ←
            merge_watersheds_flowing_into_each_other watersheds steepest ny nx;
          let remaining := steepest ∖ removed in
          let watersheds := replace_merged watersheds merged_indices merged in
          match merged with
          | [] =>
              '(merged, removed, merged_indices) ← remove_cycles watersheds steepest ny nx;
              let remaining := steepest ∖ removed in
              let watersheds := replace_merged watersheds merged_indices merged in
              spill_loop fuel' heights ny nx d4 watersheds merged remaining (Some steepest)
          | _ =>
              spill_loop fuel' heights ny nx d4 watersheds merged remaining (Some steepest)
          end
      end
  end.

(** The order of the final [np.argsort]: by the watershed of the
    from-cell. *)
Definition from_ws_le (mapping : list Z) (a b : Z * Z) : Prop :=
  watershed_of mapping a.1 ≤ watershed_of mapping b.1.

Global Instance from_ws_le_dec mapping a b : Decision (from_ws_le mapping a b).
Proof. unfold from_ws_le. apply _. Defined.

(** [combine_watersheds_spilling_into_each_other]; every pass but the last
    merges watersheds, so one pass more than there are watersheds is enough
    fuel. The spill pairs come out ordered by the watershed of their
    from-cell. *)
Definition combine_watersheds_spilling_into_each_other (watersheds : list (list Z))
    (heights : list Z) (ny nx : Z) (d4 : bool)
    : option (list (list Z) * option (list (Z * Z))) :=
  match spill_loop (S (length watersheds)) heights ny nx d4 watersheds watersheds ∅ None with
  | Some (watersheds, steepest) =>
      let mapping := map_nodes_to_watersheds watersheds ny nx in
      Some (watersheds,
            (λ s : gset (Z * Z), merge_sort (from_ws_le mapping) (elements s)) <$> steepest)
  | None => None
  end.

(** ** Landscape flattener: [make_depressionless] *)

(** [heights[traps[i]] = spill_heights[i]] for every trap in turn. *)
Definition fill_traps (heights : list Z) (traps : list (list Z)) (spill_heights : list Z)
    : list Z :=
  foldl (λ h ts, foldl (λ h c, zinsert c ts.2 h) h ts.1) heights (zip traps spill_heights).

Definition make_depressionless (heights : list Z) (ny nx step_size : Z) (d4 : bool)
    : option (list Z) :=
  let heights := fill_single_cell_depressions heights ny nx in
  flow_directions ← get_flow_direction_indices heights step_size ny nx d4;
  node_endpoints ← get_node_endpoints flow_directions ny nx;
  local_watersheds ← get_local_watersheds node_endpoints;
  let local_minima := local_minima_of local_watersheds in
  let combined_minima := combine_minima local_minima ny nx d4 in
  watersheds ← combine_watersheds local_watersheds combined_minima;
  '(watersheds, steepest_spill_pairs) ←
    combine_watersheds_spilling_into_each_other watersheds heights ny nx d4;
  let spill_heights := get_spill_heights watersheds heights ny nx steepest_spill_pairs in
  '(traps, size_of_traps) ← get_all_traps watersheds heights spill_heights;
  Some (fill_traps heights traps (default [] spill_heights)).

(** ** Flow accumulator: the accumulation graph

    A sparse matrix is its shape and its entries; an edge of the graph is a
    non-zero entry. [csr_matrix((data, (row_ind, col_ind)), shape)] adds up
    the data of equal coordinates, and rejects arrays of different lengths
    and coordinates outside the shape. All the matrices of
    [river_analysis.py] are built from constant data (ones or minus
    ones). *)
Record matrix := Matrix { shape_r : Z; shape_c : Z; entry : Z → Z → Z }.

Definition csr_matrix (data : Z) (row_ind col_ind : list Z) (r c : Z) : option matrix :=
  if decide (length row_ind = length col_ind
             ∧ Forall (λ i, 0 ≤ i < r) row_ind ∧ Forall (λ j, 0 ≤ j < c) col_ind)
  then Some (Matrix r c (λ i j,
               data * Z.of_nat (length (filter (λ rc, rc = (i, j)) (zip row_ind col_ind)))))
  else None.

Definition mat_add (A B : matrix) : matrix :=
  Matrix (shape_r A) (shape_c A) (λ i j, entry A i j + entry B i j).

(** [conn_mat[:, cols].nonzero()], row by row: the rows with a non-zero
    entry in one of the selected columns, each with that column (the source
    gets the position in [cols] and reads the column back from there). *)
Definition nonzero_in_columns (M : matrix) (cols : list Z) : list (Z * Z) :=
  r ← seqZ 0 (shape_r M); (λ c, (r, c)) <$> filter (λ c, entry M r c ≠ 0) cols.

(** [np.diff(conn_mat.tocsc().indptr)] at one column: the number of its
    entries. *)
Definition nonzero_per_column (M : matrix) (c : Z) : nat :=
  length (filter (λ r, entry M r c ≠ 0) (seqZ 0 (shape_r M))).

(** [np.arange(start, stop, step)] for a positive step. *)
Definition np_arange (start stop step : Z) : list Z :=
  (λ k, start + k * step) <$> seqZ 0 ((stop - start + step - 1) `div` step).

Definition get_domain_boundary_indices (cols rows : Z) : list Z :=
  let top := np_arange 0 cols 1 in
  let bottom := np_arange (cols * rows - cols) (cols * rows) 1 in
  let left := np_arange cols (cols * rows - cols) cols in
  let right := np_arange (2 * cols - 1) (cols * rows - 1) cols in
  merge_sort Z.le (top ++ bottom ++ left ++ right).

(** [save_flow_accumulation.py], lines 20 to 22: the flow of every trap
    cell is set to -1 before the node connectivity matrix is built. *)
Definition clear_trap_flow (flow : list (option Z)) (traps : list (list Z))
    : list (option Z) :=
  foldl (λ f trap, foldl (λ f c, zinsert c (Some (-1)) f) f trap) flow traps.

(** [flow_to > 0] on an object cell ([None > 0] is false in Python 2). *)
Definition keeps_flow (flow_direction_indices : list (option Z)) (i : Z) : Prop :=
  match mjoin (zlookup flow_direction_indices i) with
  | Some j => 0 < j
  | None => False
  end.

Global Instance keeps_flow_dec flow i : Decision (keeps_flow flow i).
Proof. unfold keeps_flow. destruct (mjoin (zlookup flow i)); apply _. Defined.

(** [make_sparse_node_conn_matrix]: an edge [i -> flow[i]] where
    [flow[i] > 0]. *)
Definition make_sparse_node_conn_matrix (flow_direction_indices : list (option Z))
    (rows cols : Z) : option matrix :=
  let keep := filter (keeps_flow flow_direction_indices) (seqZ 0 (rows * cols)) in
  let flow_to := omap (λ i, mjoin (zlookup flow_direction_indices i)) keep in
  csr_matrix 1 keep flow_to (rows * cols) (rows * cols).

(** [expand_conn_mat]: [nr_of_traps] empty rows and columns more. *)
Definition expand_conn_mat (conn_mat : matrix) (nr_of_traps : Z) : matrix :=
  Matrix (shape_r conn_mat + nr_of_traps) (shape_c conn_mat + nr_of_traps) (entry conn_mat).

(** A Python call that passes fewer arguments than the function has
    required parameters raises [TypeError] before the body of the function
    runs. *)
Definition call_with_missing_argument {A} : option A := None.

(** [get_traps_boundaries]: the cells of a trap with a neighbour outside of
    it. The table of the neighbours is asked for by
    [util.get_neighbor_indices(indices, nx)], two arguments for the three
    required parameters [indices], [cols] and [d4] of
    [get_neighbor_indices]: the call fails, and with it every call of
    [get_traps_boundaries]. The loop over the traps, which is not reached,
    splits by [len(trap)] and reads [nbrs[trap]]. *)
Definition get_traps_boundaries (traps : list (list Z)) (nx ny : Z)
    : option (list (list Z)) :=
  nbrs ← call_with_missing_argument (A := Z → list Z);
  mapM (λ trap,
    if decide (trap ≠ [] ∧ Forall (λ x, 0 ≤ x < nx * ny) trap)
    then Some (filter (λ x, ¬ Forall (λ n, n ∈ trap) (nbrs x)) trap)
    else None) traps.

(** [np.concatenate] of an empty list of arrays is an error. *)
Definition np_concatenate {A} (arrays : list (list A)) : option (list A) :=
  if decide (arrays = []) then None else Some (mjoin arrays).

(** [reroute_trap_connections]. *)
Definition reroute_trap_connections (conn_mat : matrix) (rows cols : Z)
    (traps : list (list Z)) (steepest_spill_pairs : list (Z * Z)) : option matrix :=
  let r := shape_r conn_mat in
  let c := shape_c conn_mat in
  let nr_of_traps := Z.of_nat (length traps) in
  (* trap_nodes -> downslope_indices *)
  let trap_indices := np_arange (r - nr_of_traps) r 1 in
  let downslope_indices := snd <$> steepest_spill_pairs in
  add_conn_from_trap_nodes ← csr_matrix 1 trap_indices downslope_indices r c;
  let conn_mat := mat_add conn_mat add_conn_from_trap_nodes in
  (* nodes_to_trap -> trap_nodes *)
  trap_boundaries ← get_traps_boundaries traps cols rows ≫= np_concatenate;
  let conn_node_to_trap := nonzero_in_columns conn_mat trap_boundaries in
  let nodes_to_trap := fst <$> conn_node_to_trap in
  let nr_of_nodes_to_each_trap :=
    (λ trap, sum_list (nonzero_per_column conn_mat <$> trap)) <$> traps in
  trap_indices ← np_concatenate
                   (imap (λ i n, replicate n (r - nr_of_traps + Z.of_nat i))
                      nr_of_nodes_to_each_trap);
  add_conn_to_trap_nodes ← csr_matrix 1 nodes_to_trap trap_indices r c;
  let conn_mat := mat_add conn_mat add_conn_to_trap_nodes in
  (* remove nodes_to_trap -> nodes_in_trap *)
  let nodes_in_trap := snd <$> conn_node_to_trap in
  remove_conn_to_traps ← csr_matrix (-1) nodes_to_trap nodes_in_trap r c;
  let conn_mat := mat_add conn_mat remove_conn_to_traps in
  (* remove the flow out of the boundary *)
  let domain_boundary := get_domain_boundary_indices cols rows in
  let conn_nodes_to_boundary := nonzero_in_columns conn_mat domain_boundary in
  remove_conn_to_boundary ←
    csr_matrix (-1) (fst <$> conn_nodes_to_boundary) (snd <$> conn_nodes_to_boundary) r c;
  Some (mat_add conn_mat remove_conn_to_boundary).

(** The graph on which [calculate_nr_of_upslope_cells] accumulates, from the
    flow field of the depressionless raster, as [save_flow_accumulation.py]
    builds it (that script calls [calculate_watersheds] and
    [get_flow_direction_indices] without their parameter [d4], and so stops
    before it has a flow field). *)
Definition accumulation_graph (flow : list (option Z)) (rows cols : Z)
    (traps : list (list Z)) (steepest_spill_pairs : list (Z * Z)) : option matrix :=
  node_conn_mat ← make_sparse_node_conn_matrix (clear_trap_flow flow traps) rows cols;
  reroute_trap_connections (expand_conn_mat node_conn_mat (Z.of_nat (length traps)))
    rows cols traps steepest_spill_pairs.

(** [calculate_watersheds], without the flow field that it returns as a
    third component and that the script below does not use. *)
Definition calculate_watersheds (heights : list Z) (dim_x dim_y step_size : Z) (d4 : bool)
    : option (list (list Z) * option (list (Z * Z))) :=
  flow_directions ← get_flow_direction_indices heights step_size dim_y dim_x d4;
  node_endpoints ← get_node_endpoints flow_directions dim_y dim_x;
  local_watersheds ← get_local_watersheds node_endpoints;
  let local_minima := local_minima_of local_watersheds in
  let combined_minima := combine_minima local_minima dim_y dim_x d4 in
  watersheds ← combine_watersheds local_watersheds combined_minima;
  combine_watersheds_spilling_into_each_other watersheds heights dim_y dim_x d4.

(** ** Further operations of [util.py] and [river_analysis.py] *)

(** [map_1d_interior_to_2d_exterior] and [map_2d_exterior_to_1d_interior]:
    between the index of a cell in the interior grid, of [cols] columns,
    and its (row, column) in the grid with the boundary ring around it.
    [/] on Python 2 integers is the floor division. *)
Definition map_1d_interior_to_2d_exterior (node_index : list Z) (number_of_cols : Z)
    : list (Z * Z) :=
  (λ i, (i / number_of_cols + 1, i mod number_of_cols + 1)) <$> node_index.

Definition map_2d_exterior_to_1d_interior (coords : list (Z * Z)) (cols : Z) : list Z :=
  (λ c, c.2 - 1 + (c.1 - 1) * cols) <$> coords.

(** [map_two_indices_to_flow_direction]: the codes of the D8 directions in
    which [ix_two] is a neighbour of [ix_one] ([np.where] returns every
    match). *)
Definition map_two_indices_to_flow_direction (ix_one ix_two cols : Z) : list Z :=
  fst <$> filter (λ vn : Z * Z, vn.2 = ix_two)
            (zip [1; 2; 4; 8; 16; 32; 64; 128] (get_neighbor_indices ix_one cols false)).

(** [get_size_of_traps]: for each spill height the number of cells of the
    watershed of the same index that are not above it; indexing
    [watersheds[i]] fails when there are more spill heights than
    watersheds, and [len(spill_heights)] when [spill_heights] is [None]. *)
Definition get_size_of_traps (watersheds : list (list Z)) (heights : list Z)
    (spill_heights : option (list Z)) : option (list Z) :=
  spill_heights ← spill_heights;
  mapM (λ ih : nat * Z,
          ws ← watersheds !! ih.1;
          Some (Z.of_nat (length (filter (λ c, height heights c ≤ ih.2) ws))))
    (imap pair spill_heights).

(** [make_landscape_depressionless_no_landscape_input]; the heights are
    changed in place, and are returned here. [rows] and [cols] are the
    shape of [heights]. *)
Definition make_landscape_depressionless_no_landscape_input (watersheds : list (list Z))
    (steepest_spill_pairs : option (list (Z * Z))) (heights : list Z) (rows cols : Z)
    : option (list Z) :=
  let spill_heights := get_spill_heights watersheds heights rows cols steepest_spill_pairs in
  match get_all_traps watersheds heights spill_heights with
  | Some (traps, size_of_traps) => Some (fill_traps heights traps (default [] spill_heights))
  | None => None
  end.

(** [conn_mat.nonzero()]: the coordinates of the non-zero entries, row by
    row. *)
Definition nonzero (M : matrix) : list (Z * Z) :=
  nonzero_in_columns M (seqZ 0 (shape_c M)).

(** [np.setdiff1d(a, b)]: the distinct values of [a] that are not in [b], in
    increasing order. *)
Definition np_setdiff1d (a b : list Z) : list Z := np_unique (filter (λ x, x ∉ b) a).

(** [calculate_flow_origins]: the nodes of the expanded graph that are
    neither on the domain boundary, nor the target of an edge, nor a cell of
    a trap. [np.concatenate(traps)] needs a trap. *)
Definition calculate_flow_origins (expanded_conn_mat : matrix) (traps : list (list Z))
    (rows cols : Z) : option (list Z) :=
  let boundary_indices := get_domain_boundary_indices cols rows in
  let nodes_with_upslope := snd <$> nonzero expanded_conn_mat in
  original_trap_nodes ← np_concatenate traps;
  let not_starting_nodes :=
    np_unique (boundary_indices ++ nodes_with_upslope ++ original_trap_nodes) in
  Some (np_setdiff1d (np_arange 0 (rows * cols + Z.of_nat (length traps)) 1)
          not_starting_nodes).

(** [get_boundary_pairs_in_watersheds]: the pairs of
    [get_boundary_pairs_for_specific_watersheds] for all the watersheds, each
    watershed sorted first and its neighbours read from the table of the
    neighbours of all the cells of the grid, in which a cell beyond the grid
    has no row; [np.concatenate] needs a cell in the watershed. A watershed
    is a list of cells of the grid: the model has no result either for a
    negative index, which numpy would count from the end. *)
Definition get_boundary_pairs_in_watersheds (watersheds : list (list Z)) (nx ny : Z)
    (d4 : bool) : option (list (list (Z * Z))) :=
  mapM (λ watershed,
          let watershed := merge_sort Z.le watershed in
          if decide (watershed ≠ [] ∧ Forall (λ c, 0 ≤ c < nx * ny) watershed)
          then Some (boundary_pairs_of watershed nx d4)
          else None) watersheds.

(** [create_nbr_connectivity_matrix]: the edges [i -> i + translation] of
    the cells that hold a direction code, after the flow out of the interior
    is removed. The tables of codes and translations are those of D8
    whatever [d4] is. [np.concatenate] needs a code that some cell holds. *)
Definition create_nbr_connectivity_matrix (flow_directions : list (option Z)) (nx ny : Z)
    (d4 : bool) : option matrix :=
  flow_directions ← remove_out_of_boundary_flow flow_directions ny nx d4;
  let values := [1; 2; 4; 8; 16; 32; 64; 128] in
  let translations := [- nx + 1; 1; nx + 1; nx; nx - 1; -1; - nx - 1; - nx] in
  let indices :=
    (λ vt : Z * Z,
       (λ i, (i, i + vt.2))
         <$> filter (λ i, zlookup flow_directions i = Some (Some vt.1)) (seqZ 0 (ny * nx)))
      <$> zip values translations in
  edges ← np_concatenate (filter (λ l, l ≠ []) indices);
  csr_matrix 1 (edges.*1) (edges.*2) (nx * ny) (nx * ny).
(** * Part II: properties *)

(** ** Arrays and the grid kernel *)

Lemma zlookup_Some {A} (l : list A) i x :
  zlookup l i = Some x ↔ 0 ≤ i ∧ l !! Z.to_nat i = Some x.
Proof.
  unfold zlookup. destruct (decide (0 ≤ i)) as [Hi|Hi].
  - split; [by intros ?|by intros [_ ?]].
  - split; [done|by intros [? _]].
Qed.

Lemma zlookup_nonneg {A} (l : list A) i : 0 ≤ i → zlookup l i = l !! Z.to_nat i.
Proof. intros Hi. unfold zlookup. by rewrite decide_True by done. Qed.

Lemma zlookup_of_nat {A} (l : list A) (n : nat) : zlookup l (Z.of_nat n) = l !! n.
Proof. unfold zlookup. rewrite decide_True by lia. by rewrite Nat2Z.id. Qed.

Lemma zlookup_lt {A} (l : list A) i :
  0 ≤ i < Z.of_nat (length l) → is_Some (zlookup l i).
Proof.
  intros [H0 H1]. unfold zlookup. rewrite decide_True by done.
  apply lookup_lt_is_Some. lia.
Qed.

Lemma foldl_max_le x l : x ≤ foldl Z.max x l.
Proof.
  revert x. induction l as [|y l IH]; intros x; simpl; [lia|].
  specialize (IH (Z.max x y)). lia.
Qed.

Lemma foldl_max_elem x l y : y ∈ l → y ≤ foldl Z.max x l.
Proof.
  revert x. induction l as [|z l IH]; intros x Hy; simpl.
  - by apply elem_of_nil in Hy.
  - apply elem_of_cons in Hy as [->|Hy].
    + pose proof (foldl_max_le (Z.max x z) l). lia.
    + by apply IH.
Qed.

Lemma foldl_max_in x l : foldl Z.max x l = x ∨ foldl Z.max x l ∈ l.
Proof.
  revert x. induction l as [|z l IH]; intros x; simpl; [by left|].
  destruct (IH (Z.max x z)) as [H|H].
  - rewrite H. destruct (Z.max_spec x z) as [[_ ->]|[_ ->]]; [right|left]; [left|done].
  - right. by right.
Qed.

Lemma foldl_min_le x l : foldl Z.min x l ≤ x.
Proof.
  revert x. induction l as [|y l IH]; intros x; simpl; [lia|].
  specialize (IH (Z.min x y)). lia.
Qed.

Lemma foldl_min_elem x l y : y ∈ l → foldl Z.min x l ≤ y.
Proof.
  revert x. induction l as [|z l IH]; intros x Hy; simpl.
  - by apply elem_of_nil in Hy.
  - apply elem_of_cons in Hy as [->|Hy].
    + pose proof (foldl_min_le (Z.min x z) l). lia.
    + by apply IH.
Qed.

Lemma foldl_min_in x l : foldl Z.min x l = x ∨ foldl Z.min x l ∈ l.
Proof.
  revert x. induction l as [|z l IH]; intros x; simpl; [by left|].
  destruct (IH (Z.min x z)) as [H|H].
  - rewrite H. destruct (Z.min_spec x z) as [[_ ->]|[_ ->]]; [left|right]; [done|left].
  - right. by right.
Qed.

Lemma max_of_ub l y : y ∈ l → y ≤ max_of l.
Proof.
  destruct l as [|x l]; [by intros ?%elem_of_nil|].
  intros [->|Hy]%elem_of_cons; simpl.
  - apply foldl_max_le.
  - by apply foldl_max_elem.
Qed.

Lemma max_of_in l : l ≠ [] → max_of l ∈ l.
Proof.
  destruct l as [|x l]; [done|]. intros _. simpl.
  destruct (foldl_max_in x l) as [->|H]; [left|by right].
Qed.

Lemma min_of_lb l y : y ∈ l → min_of l ≤ y.
Proof.
  destruct l as [|x l]; [by intros ?%elem_of_nil|].
  intros [->|Hy]%elem_of_cons; simpl.
  - apply foldl_min_le.
  - by apply foldl_min_elem.
Qed.

Lemma min_of_in l : l ≠ [] → min_of l ∈ l.
Proof.
  destruct l as [|x l]; [done|]. intros _. simpl.
  destruct (foldl_min_in x l) as [->|H]; [left|by right].
Qed.

Lemma neighbor_heights_indices heights cols d4 r c :
  get_neighbor_heights heights cols d4 r c
  = height heights <$> get_neighbor_indices (map_2d_to_1d (r, c) cols) cols d4.
Proof.
  unfold get_neighbor_heights, get_neighbor_indices, map_2d_to_1d.
  destruct d4; simpl; repeat (f_equal; try lia).
Qed.

Lemma map_1d_2d_inv i cols : map_2d_to_1d (map_1d_to_2d i cols) cols = i.
Proof.
  unfold map_2d_to_1d, map_1d_to_2d; simpl.
  destruct (decide (cols = 0)) as [->|Hc].
  - rewrite Z.mod_0_r, Z.div_0_r. lia.
  - pose proof (Z.div_mod i cols Hc). lia.
Qed.


Lemma height_lookup heights i v :
  heights !! i = Some v → height heights (Z.of_nat i) = v.
Proof. intros H. unfold height. by rewrite zlookup_of_nat, H. Qed.

Lemma height_imap (f : nat → Z → Z) heights i :
  0 ≤ i < Z.of_nat (length heights) →
  height (imap f heights) i = f (Z.to_nat i) (height heights i).
Proof.
  intros [H0 H1]. unfold height, zlookup. rewrite !decide_True by done.
  rewrite list_lookup_imap.
  destruct (lookup_lt_is_Some_2 heights (Z.to_nat i)) as [v ->]; [lia|done].
Qed.

(** ** Pit filler *)

Lemma neighbor_heights_nonempty heights cols d4 r c :
  get_neighbor_heights heights cols d4 r c ≠ [].
Proof. unfold get_neighbor_heights. by destruct d4. Qed.

Lemma is_local_minimum_spec heights rows cols i :
  let rc := map_1d_to_2d i cols in
  is_local_minimum heights rows cols rc.1 rc.2 = true
  ↔ interior rows cols rc.1 rc.2 = true ∧ strictly_below_neighbors heights cols i.
Proof.
  intros rc. unfold is_local_minimum, strictly_below_neighbors. fold rc.
  replace (map_2d_to_1d (rc.1, rc.2) cols) with i
    by (symmetry; apply (map_1d_2d_inv i cols)).
  set (nbrs := get_neighbor_heights heights cols false rc.1 rc.2).
  rewrite andb_true_iff, bool_decide_eq_true, Forall_forall.
  apply and_iff_compat_l. split.
  - intros Hmax n Hn.
    assert (height heights i - n ≤ max_of ((λ n, height heights i - n) <$> nbrs)).
    { apply max_of_ub. apply list_elem_of_fmap. eauto. }
    lia.
  - intros Hall.
    assert (Hne : (λ n, height heights i - n) <$> nbrs ≠ []).
    { intros Heq%fmap_nil_inv. by apply (neighbor_heights_nonempty heights cols false rc.1 rc.2). }
    apply max_of_in in Hne. apply list_elem_of_fmap in Hne as (n & -> & Hn).
    specialize (Hall n Hn). lia.
Qed.

Lemma fill_lookup heights rows cols i :
  0 ≤ i < Z.of_nat (length heights) →
  height (fill_single_cell_depressions heights rows cols) i
  = let rc := map_1d_to_2d i cols in
    if is_local_minimum heights rows cols rc.1 rc.2
    then min_of (get_neighbor_heights heights cols false rc.1 rc.2)
    else height heights i.
Proof.
  intros Hi. unfold fill_single_cell_depressions.
  rewrite height_imap by done. by rewrite Z2Nat.id by lia.
Qed.


(** C6, as the specification words it, at a peak: the centre of a 3 x 3
    raster is the only interior cell, its highest neighbour (0) is below
    it (5), and the pit filler does not move it to the lowest neighbour. *)
Lemma fill_peak_counterexample :
  let heights := [0; 0; 0; 0; 5; 0; 0; 0; 0] in
  interior 3 3 1 1 = true
  ∧ max_neighbor_below_own heights 3 4
  ∧ height (fill_single_cell_depressions heights 3 3) 4
    ≠ min_of (get_neighbor_heights heights 3 false 1 1).
Proof. repeat split; vm_compute; congruence. Qed.

(** C6 (amended): in one pass that reads the input raster only, every
    interior cell that is strictly below its eight neighbours (the greatest
    of [heights - neighbour] is negative) is raised to the smallest of these
    neighbours, and every other cell keeps its elevation. *)
Theorem fill_single_cell_depressions_spec heights rows cols i :
  length heights = Z.to_nat (rows * cols) →
  0 ≤ i < rows * cols →
  let rc := map_1d_to_2d i cols in
  let out := fill_single_cell_depressions heights rows cols in
  length out = length heights
  ∧ (interior rows cols rc.1 rc.2 = true ∧ strictly_below_neighbors heights cols i →
     height out i = min_of (get_neighbor_heights heights cols false rc.1 rc.2)
     ∧ height heights i < height out i)
  ∧ (¬ (interior rows cols rc.1 rc.2 = true ∧ strictly_below_neighbors heights cols i) →
     height out i = height heights i).
Proof.
  intros Hlen Hi rc out. split; [apply length_imap|].
  pose proof (fill_lookup heights rows cols i) as Hout.
  pose proof (is_local_minimum_spec heights rows cols i) as Hspec.
  cbv zeta in Hout, Hspec. fold rc in Hout, Hspec. fold out in Hout.
  rewrite Hout by lia. clear Hout.
  destruct (is_local_minimum heights rows cols rc.1 rc.2); split.
  - intros [_ Hlow]. split; [done|].
    unfold strictly_below_neighbors in Hlow. rewrite Forall_forall in Hlow.
    apply Hlow, min_of_in, neighbor_heights_nonempty.
  - intros Hno. exfalso. by apply Hno, Hspec.
  - intros Hpit. apply Hspec in Hpit. discriminate Hpit.
  - done.
Qed.

Lemma fill_single_cell_depressions_spec_witness :
  let heights := [3; 3; 3; 3; 1; 2; 3; 3; 3] in
  height (fill_single_cell_depressions heights 3 3) 4 = 2
  ∧ height (fill_single_cell_depressions heights 3 3) 5 = 2.
Proof.
  intros heights. split.
  - destruct (fill_single_cell_depressions_spec heights 3 3 4) as (_ & H & _);
      [reflexivity | lia |].
    destruct H as [-> _]; [| reflexivity].
    split; [reflexivity|]. unfold strictly_below_neighbors.
    repeat constructor.
  - destruct (fill_single_cell_depressions_spec heights 3 3 5) as (_ & _ & H);
      [reflexivity | lia |].
    rewrite H; [reflexivity|]. intros [Hint _]. discriminate Hint.
Defined.

(** C10: the pit filler never lowers a cell, and a cell that is on the
    domain boundary, or that is not strictly lower than all eight of its
    neighbours, keeps its input elevation. *)
Theorem fill_single_cell_depressions_frame heights rows cols i :
  length heights = Z.to_nat (rows * cols) →
  0 ≤ i < rows * cols →
  let rc := map_1d_to_2d i cols in
  let out := fill_single_cell_depressions heights rows cols in
  height heights i ≤ height out i
  ∧ (interior rows cols rc.1 rc.2 = false → height out i = height heights i)
  ∧ (¬ strictly_below_neighbors heights cols i → height out i = height heights i).
Proof.
  intros Hlen Hi rc out.
  pose proof (fill_lookup heights rows cols i) as Hout.
  pose proof (is_local_minimum_spec heights rows cols i) as Hspec.
  cbv zeta in Hout, Hspec. fold rc in Hout, Hspec. fold out in Hout.
  rewrite Hout by lia. clear Hout.
  destruct (is_local_minimum heights rows cols rc.1 rc.2).
  - destruct Hspec as [Hspec _]. destruct (Hspec eq_refl) as [Hint Hlow].
    split; [|split].
    + unfold strictly_below_neighbors in Hlow. rewrite Forall_forall in Hlow.
      apply Z.lt_le_incl, Hlow, min_of_in, neighbor_heights_nonempty.
    + intros Hf. congruence.
    + intros Hn. by destruct Hn.
  - split; [lia|]. by split.
Qed.

Lemma fill_single_cell_depressions_frame_witness :
  let heights := [3; 3; 3; 3; 1; 2; 3; 3; 3] in
  height heights 4 ≤ height (fill_single_cell_depressions heights 3 3) 4
  ∧ height (fill_single_cell_depressions heights 3 3) 5 = height heights 5.
Proof.
  intros heights. split.
  - apply (fill_single_cell_depressions_frame heights 3 3 4); [reflexivity | lia].
  - destruct (fill_single_cell_depressions_frame heights 3 3 5) as (_ & H & _);
      [reflexivity | lia |].
    apply H. reflexivity.
Defined.

Tactic Notation "bind_case" hyp(H) "as" ident(x) ident(Hx) :=
  match type of H with
  | (?t ≫= _) = _ => destruct t as [x|] eqn:Hx; [|done]; cbn [mbind option_bind] in H
  end.

(** ** Doubles *)

Lemma SFcompare_key a b :
  is_nan a = false → is_nan b = false →
  ∃ c, SFcompare a b = Some c
       ∧ (c = Lt ↔ key_lt (float_key a) (float_key b))
       ∧ (c = Gt ↔ key_lt (float_key b) (float_key a)).
Proof.
  intros Ha Hb. unfold key_lt.
  destruct a as [sa|sa| |sa ma ea], b as [sb|sb| |sb mb eb]; try done;
    try (destruct sa); try (destruct sb); cbn;
    try (eexists; split; [reflexivity|]; split; split; (done || lia)).
  - destruct (Z.compare_spec ea eb) as [->|H|H].
    + change (Pos.compare_cont Eq ma mb) with (Pos.compare ma mb).
      destruct (Pos.compare_spec ma mb) as [->|H|H]; cbn;
        (eexists; split; [reflexivity|]; split; split; (done || lia)).
    + eexists; split; [reflexivity|]; split; split; (done || lia).
    + eexists; split; [reflexivity|]; split; split; (done || lia).
  - destruct (Z.compare_spec ea eb) as [->|H|H].
    + change (Pos.compare_cont Eq ma mb) with (Pos.compare ma mb).
      destruct (Pos.compare_spec ma mb) as [->|H|H]; cbn;
        (eexists; split; [reflexivity|]; split; split; (done || lia)).
    + eexists; split; [reflexivity|]; split; split; (done || lia).
    + eexists; split; [reflexivity|]; split; split; (done || lia).
Qed.

Lemma SFltb_key a b :
  is_nan a = false → is_nan b = false →
  SFltb a b = true ↔ key_lt (float_key a) (float_key b).
Proof.
  intros Ha Hb. destruct (SFcompare_key a b Ha Hb) as (c & Hc & Hlt & Hgt).
  unfold SFltb. rewrite Hc. rewrite <- Hlt. by destruct c.
Qed.

Lemma SFleb_key a b :
  is_nan a = false → is_nan b = false →
  SFleb a b = true ↔ ¬ key_lt (float_key b) (float_key a).
Proof.
  intros Ha Hb. destruct (SFcompare_key a b Ha Hb) as (c & Hc & Hlt & Hgt).
  unfold SFleb. rewrite Hc. rewrite <- Hgt. by destruct c.
Qed.

Lemma float_pos_signed f : float_pos f = true → signed_as true f → False.
Proof. by destruct f as [[]|[]| |[] ? ?]. Qed.

Lemma binary_round_aux_signed sx m e l :
  signed_as sx (binary_round_aux prec emax sx m e l).
Proof.
  unfold binary_round_aux.
  destruct (shr_fexp prec emax m e l) as [mrs' e'].
  destruct (shr_fexp prec emax _ e' loc_Exact) as [mrs'' e''].
  destruct (shr_m mrs''); [done| |done]. by destruct (_ <=? _).
Qed.

Lemma iter_pos_invariant {A} (P : A → Prop) (f : A → A) :
  (∀ x, P x → P (f x)) → ∀ n x, P x → P (SpecFloat.iter_pos f n x).
Proof. intros Hf. induction n as [n IH|n IH|]; intros x Hx; cbn; auto. Qed.

Lemma shr_1_nonneg mrs : 0 ≤ shr_m mrs → 0 ≤ shr_m (shr_1 mrs).
Proof. destruct mrs as [[|[p|p|]|[p|p|]] r s]; cbn; lia. Qed.

Lemma shr_record_of_loc_m m l : shr_m (shr_record_of_loc m l) = m.
Proof. by destruct l as [|[]]. Qed.

Lemma shr_fexp_nonneg m e l : 0 ≤ m → 0 ≤ shr_m (shr_fexp prec emax m e l).1.
Proof.
  intros Hm. unfold shr_fexp, shr.
  destruct (fexp prec emax (Zdigits2 m + e) - e) as [|n|n]; cbn [fst];
    try (by rewrite shr_record_of_loc_m).
  apply (iter_pos_invariant (λ mrs, 0 ≤ shr_m mrs)); [apply shr_1_nonneg|].
  by rewrite shr_record_of_loc_m.
Qed.

Lemma round_nearest_even_ge m l : m ≤ round_nearest_even m l.
Proof. destruct l as [|[]]; cbn; try destruct (Z.even m); lia. Qed.

Lemma binary_round_aux_not_nan sx m e l :
  0 ≤ m → is_nan (binary_round_aux prec emax sx m e l) = false.
Proof.
  intros Hm. unfold binary_round_aux.
  pose proof (shr_fexp_nonneg m e l Hm) as H1.
  destruct (shr_fexp prec emax m e l) as [mrs' e']. cbn [fst] in H1.
  pose proof (round_nearest_even_ge (shr_m mrs') (loc_of_shr_record mrs')) as H2.
  pose proof (shr_fexp_nonneg (round_nearest_even (shr_m mrs') (loc_of_shr_record mrs')) e'
                loc_Exact ltac:(lia)) as H3.
  destruct (shr_fexp prec emax _ e' loc_Exact) as [mrs'' e'']. cbn [fst] in H3.
  destruct (shr_m mrs''); [done| |lia]. by destruct (_ <=? _).
Qed.

Lemma shr_1_digits d mrs : 1 < d → has_digits d mrs → has_digits (d - 1) (shr_1 mrs).
Proof.
  intros Hd (p & Hp & Hdig). destruct mrs as [m r s]. cbn in Hp. subst m.
  destruct p as [p|p|]; cbn in *; [exists p; split; [done|lia]..|lia].
Qed.

Lemma iter_shr_1_digits n : ∀ d mrs,
  Z.pos n < d → has_digits d mrs → has_digits (d - Z.pos n) (SpecFloat.iter_pos shr_1 n mrs).
Proof.
  induction n as [n IH|n IH|]; intros d mrs Hn Hd; cbn [SpecFloat.iter_pos].
  - replace (d - Z.pos n~1) with (d - 1 - Z.pos n - Z.pos n) by lia.
    apply IH; [lia|]. apply IH; [lia|]. apply shr_1_digits; [lia|done].
  - replace (d - Z.pos n~0) with (d - Z.pos n - Z.pos n) by lia.
    apply IH; [lia|]. apply IH; [lia|done].
  - apply shr_1_digits; [lia|done].
Qed.

Lemma shr_fexp_pos m e l :
  0 < m → emin prec emax ≤ e →
  0 < shr_m (shr_fexp prec emax m e l).1 ∧ emin prec emax ≤ (shr_fexp prec emax m e l).2.
Proof.
  intros Hm He. destruct m as [|p|p]; [lia| |lia].
  unfold shr_fexp, shr. cbn [Zdigits2].
  destruct (fexp prec emax (Z.pos (digits2_pos p) + e) - e) as [|n|n] eqn:Hn; cbn [fst snd];
    try (rewrite shr_record_of_loc_m; split; lia).
  unfold fexp in Hn.
  destruct (iter_shr_1_digits n (Z.pos (digits2_pos p)) (shr_record_of_loc (Z.pos p) l))
    as (p' & -> & _).
  - unfold prec in *. lia.
  - exists p. by rewrite shr_record_of_loc_m.
  - split; lia.
Qed.

Lemma binary_round_aux_pos m e l :
  0 < m → emin prec emax ≤ e → is_distance (binary_round_aux prec emax false m e l) = true.
Proof.
  intros Hm He. unfold binary_round_aux.
  pose proof (shr_fexp_pos m e l Hm He) as [H1 H1'].
  destruct (shr_fexp prec emax m e l) as [mrs' e']. cbn [fst snd] in H1, H1'.
  pose proof (round_nearest_even_ge (shr_m mrs') (loc_of_shr_record mrs')) as H2.
  pose proof (shr_fexp_pos (round_nearest_even (shr_m mrs') (loc_of_shr_record mrs')) e'
                loc_Exact ltac:(lia) H1') as [H3 _].
  destruct (shr_fexp prec emax _ e' loc_Exact) as [mrs'' e'']. cbn [fst] in H3.
  destruct (shr_m mrs''); [lia| |lia]. by destruct (_ <=? _).
Qed.

Lemma digits2_pos_iter_xO m k :
  Z.pos (digits2_pos (Pos.iter xO m k)) = Z.pos (digits2_pos m) + Z.pos k.
Proof.
  induction k as [|k IH] using Pos.peano_ind.
  - cbn. lia.
  - rewrite Pos.iter_succ. cbn [digits2_pos]. lia.
Qed.

Lemma digits2_pos_bound p : ∀ k, 0 ≤ k → Z.pos p < 2 ^ k → Z.pos (digits2_pos p) ≤ k.
Proof.
  induction p as [p IH|p IH|]; intros k Hk Hp; cbn [digits2_pos].
  - destruct (decide (k = 0)) as [->|]; [cbn in Hp; lia|].
    replace k with (Z.succ (k - 1)) in Hp by lia. rewrite Z.pow_succ_r in Hp by lia.
    specialize (IH (k - 1) ltac:(lia) ltac:(lia)). lia.
  - destruct (decide (k = 0)) as [->|]; [cbn in Hp; lia|].
    replace k with (Z.succ (k - 1)) in Hp by lia. rewrite Z.pow_succ_r in Hp by lia.
    specialize (IH (k - 1) ltac:(lia) ltac:(lia)). lia.
  - destruct (decide (k = 0)) as [->|]; [cbn in Hp; lia|]. cbn. lia.
Qed.

Lemma binary_round_aux_exact sx mz ez :
  Z.pos (digits2_pos mz) = 53 → -1074 ≤ ez ≤ 971 →
  binary_round_aux prec emax sx (Z.pos mz) ez loc_Exact = S754_finite sx mz ez.
Proof.
  intros Hd He.
  assert (Hn : fexp prec emax (53 + ez) - ez = 0) by (unfold fexp, emin, prec, emax; lia).
  unfold binary_round_aux, shr_fexp. cbn [Zdigits2]. rewrite Hd, Hn.
  cbn [shr shr_record_of_loc shr_m loc_of_shr_record round_nearest_even Zdigits2].
  rewrite Hd, Hn. cbn [shr shr_m].
  unfold emax, prec. destruct (Z.leb_spec ez (1024 - 53)); [done|lia].
Qed.

Lemma binary_round_exact sx m :
  Z.pos m < 2 ^ 53 →
  ∃ mz ez, binary_round prec emax sx m 0 = S754_finite sx mz ez ∧ -52 ≤ ez ≤ 0.
Proof.
  intros Hm. pose proof (digits2_pos_bound m 53 ltac:(lia) Hm) as Hd.
  unfold binary_round, shl_align, fexp, emin, prec, emax.
  destruct (Z.max (Z.pos (digits2_pos m) + 0 - 53) (3 - 1024 - 53) - 0) as [|k|k] eqn:Hk.
  - exists m, 0. split; [|lia]. apply binary_round_aux_exact; lia.
  - lia.
  - eexists _, _. split; [apply binary_round_aux_exact|]; [|lia..].
    rewrite digits2_pos_iter_xO. lia.
Qed.

Lemma binary_round_signed sx m e : signed_as sx (binary_round prec emax sx m e).
Proof. unfold binary_round. destruct (shl_align _ _ _). apply binary_round_aux_signed. Qed.

Lemma binary_round_not_nan sx m e : is_nan (binary_round prec emax sx m e) = false.
Proof.
  unfold binary_round. destruct (shl_align _ _ _). by apply binary_round_aux_not_nan.
Qed.

Lemma np_float64_signed z : signed_as (bool_decide (z < 0)) (np_float64 z).
Proof. destruct z; [done|apply binary_round_signed..]. Qed.

Lemma np_float64_not_nan z : is_nan (np_float64 z) = false.
Proof. destruct z; [done|apply binary_round_not_nan..]. Qed.

Lemma float_of_int_Some z f :
  float_of_int z = Some f → f = np_float64 z ∧ is_finite f = true.
Proof. unfold float_of_int. destruct (np_float64 z); naive_solver. Qed.

Lemma float_of_int_pos z f : float_of_int z = Some f → float_pos f = true → 0 < z.
Proof.
  intros [-> _]%float_of_int_Some Hpos. pose proof (np_float64_signed z) as Hs.
  destruct (decide (0 < z)) as [|Hz]; [done|]. exfalso.
  destruct (decide (z = 0)) as [->|]; [done|].
  rewrite bool_decide_eq_true_2 in Hs by lia. by eapply float_pos_signed.
Qed.

Lemma float_of_int_exact z :
  - 2 ^ 53 < z < 2 ^ 53 →
  ∃ f, float_of_int z = Some f
       ∧ match f with
         | S754_zero _ => z = 0
         | S754_finite s _ e => s = bool_decide (z < 0) ∧ -52 ≤ e ≤ 0
         | _ => False
         end.
Proof.
  intros Hz. unfold float_of_int, np_float64, binary_normalize. destruct z as [|m|m].
  - by eexists.
  - destruct (binary_round_exact false m ltac:(lia)) as (mz & ez & -> & He).
    eexists. split; [done|]. cbn. split; [|done]. by rewrite bool_decide_eq_false_2 by lia.
  - destruct (binary_round_exact true m ltac:(lia)) as (mz & ez & -> & He).
    eexists. split; [done|]. cbn. split; [|done]. by rewrite bool_decide_eq_true_2 by lia.
Qed.

Lemma float_sqrt_signed f : signed_as false f → signed_as false (float_sqrt f).
Proof.
  destruct f as [s|s| |s m e]; cbn; try done.
  - by intros ->.
  - intros ->. destruct (SFsqrt_core_binary _ _ _ _) as [[mz ez] lz].
    apply binary_round_aux_signed.
Qed.

Lemma float_sqrt_not_nan f : signed_as false f → is_nan f = false → is_nan (float_sqrt f) = false.
Proof.
  destruct f as [s|s| |s m e]; cbn; try done.
  - by intros ->.
  - intros -> _. unfold SFsqrt_core_binary.
    destruct (Z.sqrtrem _) as [q r] eqn:E. apply binary_round_aux_not_nan.
    pose proof (Z.sqrtrem_sqrt (match e - 2 * (fexp prec emax (Z.div2 (Zdigits2 (Z.pos m) + e + 1)) `min` Z.div2 e) with
         | 0 => Z.pos m
         | Z.pos _ => Z.shiftl (Z.pos m) (e - 2 * (fexp prec emax (Z.div2 (Zdigits2 (Z.pos m) + e + 1)) `min` Z.div2 e))
         | Z.neg _ => 0
         end)) as Hs.
    rewrite E in Hs. cbn in Hs. subst q. apply Z.sqrt_nonneg.
Qed.

Lemma float_sqrt_distance m e :
  -52 ≤ e → is_distance (float_sqrt (S754_finite false m e)) = true.
Proof.
  intros He. unfold float_sqrt, SFsqrt, SFsqrt_core_binary.
  set (e' := fexp prec emax (Z.div2 (Zdigits2 (Z.pos m) + e + 1)) `min` Z.div2 e).
  assert (He' : emin prec emax ≤ e' ∧ 2 * e' ≤ e).
  { unfold e', fexp, emin, prec, emax. rewrite !Z.div2_div. 
    pose proof (Z.div_mod e 2 ltac:(lia)). pose proof (Z.mod_pos_bound e 2 ltac:(lia)). lia. }
  set (m' := match e - 2 * e' with
             | 0 => Z.pos m | Z.pos _ => Z.shiftl (Z.pos m) (e - 2 * e') | Z.neg _ => 0 end).
  assert (Hm' : 1 ≤ m').
  { unfold m'. destruct (e - 2 * e') as [|s|s] eqn:Hs; [lia| |lia].
    rewrite Z.shiftl_mul_pow2 by lia. pose proof (Z.pow_pos_nonneg 2 (Z.pos s) ltac:(lia) ltac:(lia)).
    nia. }
  pose proof (Z.sqrtrem_spec m' ltac:(lia)) as Hspec.
  pose proof (Z.sqrtrem_sqrt m') as Hsqrt. pose proof (Z.sqrt_nonneg m') as Hnn.
  destruct (Z.sqrtrem m') as [q r]. cbn in Hsqrt. subst q.
  apply binary_round_aux_pos; [nia|lia].
Qed.

Lemma SFdiv_signed x y sx sy :
  signed_as sx x → signed_as sy y → signed_as (xorb sx sy) (SFdiv prec emax x y).
Proof.
  destruct x as [s1|s1| |s1 m1 e1], y as [s2|s2| |s2 m2 e2]; cbn; try done;
    try (by intros -> ->).
  intros -> ->. destruct (SFdiv_core_binary _ _ _ _ _ _) as [[mz ez] lz].
  apply binary_round_aux_signed.
Qed.

Lemma SFdiv_not_nan x y :
  is_finite x = true → is_nan y = false → (∀ s, y ≠ S754_zero s) →
  is_nan (SFdiv prec emax x y) = false.
Proof.
  destruct x as [s1|s1| |s1 m1 e1], y as [s2|s2| |s2 m2 e2]; cbn; try done.
  - intros _ _ H. by specialize (H s2).
  - intros _ _ _. unfold SFdiv_core_binary.
    set (m' := match _ with 0 => Z.pos m1 | Z.pos _ => Z.shiftl (Z.pos m1) _ | Z.neg _ => 0 end).
    assert (0 ≤ m') as Hm'.
    { unfold m'. destruct (_ - _ - _) as [|s|s] eqn:Hs; [lia| |lia].
      rewrite Z.shiftl_mul_pow2 by lia.
      pose proof (Z.pow_pos_nonneg 2 (Z.pos s) ltac:(lia) ltac:(lia)). nia. }
    pose proof (Z.div_pos m' (Z.pos m2) Hm' ltac:(lia)) as Hq. unfold Z.div in Hq.
    destruct (Z.div_eucl m' (Z.pos m2)) as [q r]. by apply binary_round_aux_not_nan.
Qed.

(** *** The order of the doubles *)

Lemma key_lt_irrefl a : ¬ key_lt a a.
Proof. unfold key_lt. lia. Qed.

Lemma key_lt_trans a b c : key_lt a b → key_lt b c → key_lt a c.
Proof. unfold key_lt. lia. Qed.

Lemma key_lt_cotrans a b c : key_lt a c → key_lt a b ∨ key_lt b c.
Proof. unfold key_lt. lia. Qed.

Lemma float_leb_refl x : is_nan x = false → SFleb x x = true.
Proof. intros Hx. apply SFleb_key; [done..|]. apply key_lt_irrefl. Qed.

Lemma float_ltb_false x y :
  is_nan x = false → is_nan y = false → SFltb x y = false → SFleb y x = true.
Proof.
  intros Hx Hy H. apply SFleb_key; [done..|]. intros Hlt.
  apply SFltb_key in Hlt; [congruence|done..].
Qed.

Lemma float_ltb_leb x y :
  is_nan x = false → is_nan y = false → SFltb x y = true → SFleb x y = true.
Proof.
  intros Hx Hy H%SFltb_key; [|done..]. apply SFleb_key; [done..|]. intros H'.
  eapply key_lt_irrefl, key_lt_trans; eassumption.
Qed.

Lemma float_leb_ltb_trans x y z :
  is_nan x = false → is_nan y = false → is_nan z = false →
  SFleb x y = true → SFltb y z = true → SFltb x z = true.
Proof.
  intros Hx Hy Hz H1%SFleb_key H2%SFltb_key; [|done..]. apply SFltb_key; [done..|].
  by destruct (key_lt_cotrans _ (float_key x) _ H2).
Qed.

Lemma float_ltb_leb_trans x y z :
  is_nan x = false → is_nan y = false → is_nan z = false →
  SFltb x y = true → SFleb y z = true → SFltb x z = true.
Proof.
  intros Hx Hy Hz H1%SFltb_key H2%SFleb_key; [|done..]. apply SFltb_key; [done..|].
  by destruct (key_lt_cotrans _ (float_key z) _ H1).
Qed.

Lemma float_leb_trans x y z :
  is_nan x = false → is_nan y = false → is_nan z = false →
  SFleb x y = true → SFleb y z = true → SFleb x z = true.
Proof.
  intros Hx Hy Hz H1%SFleb_key H2%SFleb_key; [|done..]. apply SFleb_key; [done..|].
  intros H. by destruct (key_lt_cotrans _ (float_key y) _ H).
Qed.

Lemma float_pos_leb x y :
  is_nan x = false → is_nan y = false →
  SFleb x y = true → float_pos x = true → float_pos y = true.
Proof. intros Hx Hy Hle Hpos. by apply (float_ltb_leb_trans _ x). Qed.

(** *** [np.max] and [np.argmax] *)

Lemma float_max_spec l :
  l ≠ [] → Forall (λ x, is_nan x = false) l →
  float_max l ∈ l ∧ ∀ y, y ∈ l → SFleb y (float_max l) = true.
Proof.
  destruct l as [|x l]; [done|]. intros _ [Hx Hl]%Forall_cons. cbn [float_max].
  assert (H : ∀ acc pre, is_nan acc = false → Forall (λ x, is_nan x = false) pre →
            acc ∈ pre → (∀ y, y ∈ pre → SFleb y acc = true) →
            foldl (λ acc y, if SFleb y acc then acc else y) acc l ∈ pre ++ l
            ∧ ∀ y, y ∈ pre ++ l →
                SFleb y (foldl (λ acc y, if SFleb y acc then acc else y) acc l) = true).
  { induction Hl as [|z l Hz Hl IH]; intros acc pre Hacc Hpre Hin Hmax.
    - by rewrite app_nil_r.
    - cbn [foldl]. replace (pre ++ z :: l) with ((pre ++ [z]) ++ l) by (by rewrite <- app_assoc).
      assert (Forall (λ x, is_nan x = false) (pre ++ [z])) as Hpre'.
      { apply Forall_app. split; [done|]. by constructor. }
      destruct (SFleb z acc) eqn:E.
      + apply IH; [done|done|set_solver|].
        intros y [Hy| ->%list_elem_of_singleton]%elem_of_app; auto.
      + assert (SFleb acc z = true) as Hle.
        { apply float_ltb_leb; [done..|]. apply SFltb_key; [done..|].
          destruct (decide (key_lt (float_key acc) (float_key z))) as [|Hn]; [done|].
          apply SFleb_key in Hn; [congruence|done..]. }
        apply IH; [done|done|set_solver|].
        intros y [Hy| ->%list_elem_of_singleton]%elem_of_app.
        * rewrite Forall_forall in Hpre. apply (float_leb_trans _ acc); auto.
        * by apply float_leb_refl. }
  apply (H x [x]); [done|by constructor|set_solver|].
  intros y ->%list_elem_of_singleton. by apply float_leb_refl.
Qed.

Lemma argmax_aux_spec pre best best_i l :
  Forall (λ x, is_nan x = false) (pre ++ l) →
  pre !! best_i = Some best →
  (∀ j y, pre !! j = Some y → SFleb y best = true) →
  (∀ j y, (j < best_i)%nat → pre !! j = Some y → SFltb y best = true) →
  is_first_max (pre ++ l) (argmax_aux SFltb best best_i (length pre) l).
Proof.
  revert pre best best_i. induction l as [|x l IH]; intros pre best best_i Hnn Hb Hmax Hfirst.
  - simpl. rewrite app_nil_r. by exists best.
  - simpl. revert Hnn.
    replace (pre ++ x :: l) with ((pre ++ [x]) ++ l) by (by rewrite <- app_assoc).
    replace (S (length pre)) with (length (pre ++ [x])) by (rewrite length_app; simpl; lia).
    intros Hnn. pose proof Hnn as [[Hpre [Hx _]%Forall_cons]%Forall_app _]%Forall_app.
    rewrite Forall_forall in Hpre.
    assert (Hbest : is_nan best = false) by (eapply Hpre, list_elem_of_lookup_2, Hb).
    destruct (SFltb best x) eqn:E.
    + apply IH; [done| | |].
      * by rewrite lookup_app_r, Nat.sub_diag.
      * intros j y [Hy|[_ Hy]]%lookup_app_Some.
        -- apply float_ltb_leb, (float_leb_ltb_trans _ best); eauto.
           all: eapply Hpre, list_elem_of_lookup_2, Hy.
        -- destruct (j - length pre)%nat; [|done]. injection Hy as <-.
           by apply float_leb_refl.
      * intros j y Hj Hy. rewrite lookup_app_l in Hy by done.
        apply (float_leb_ltb_trans _ best); eauto.
        eapply Hpre, list_elem_of_lookup_2, Hy.
    + apply IH; [done| | |].
      * by apply lookup_app_l_Some.
      * intros j y [Hy|[_ Hy]]%lookup_app_Some; [eauto|].
        destruct (j - length pre)%nat; [|done]. injection Hy as <-.
        by apply float_ltb_false.
      * intros j y Hj Hy. apply lookup_lt_Some in Hb.
        rewrite lookup_app_l in Hy by lia. eauto.
Qed.

Lemma argmax_first_max l :
  l ≠ [] → Forall (λ x, is_nan x = false) l → is_first_max l (argmax SFltb l).
Proof.
  destruct l as [|x l]; [done|]. intros _ Hnn. unfold argmax.
  apply (argmax_aux_spec [x] x 0 l); [done|done| |].
  - intros [|j] y; [|done]. intros [= <-]. apply float_leb_refl.
    by apply Forall_cons in Hnn as [? _].
  - intros j y Hj. lia.
Qed.

Lemma first_max_unique l k k' :
  Forall (λ x, is_nan x = false) l → is_first_max l k → is_first_max l k' → k = k'.
Proof.
  intros Hnn (x & Hx & Hmax & Hfirst) (x' & Hx' & Hmax' & Hfirst').
  rewrite Forall_forall in Hnn.
  assert (is_nan x = false) as Hnx by (eapply Hnn, list_elem_of_lookup_2, Hx).
  assert (is_nan x' = false) as Hnx' by (eapply Hnn, list_elem_of_lookup_2, Hx').
  destruct (Nat.lt_trichotomy k k') as [H|[H|H]]; [|done|]; exfalso.
  - specialize (Hfirst' k x H Hx). specialize (Hmax k' x' Hx').
    apply SFltb_key in Hfirst'; [|done..]. apply SFleb_key in Hmax; [|done..]. done.
  - specialize (Hfirst k' x' H Hx'). specialize (Hmax' k x Hx).
    apply SFltb_key in Hfirst; [|done..]. apply SFleb_key in Hmax'; [|done..]. done.
Qed.

Lemma first_max_lt_length l k : is_first_max l k → (k < length l)%nat.
Proof. intros (x & Hx & _). by apply lookup_lt_Some in Hx. Qed.

(** [np.max(derivatives) > 0] is the sign of the derivative that
    [np.argmax] finds. *)
Lemma float_max_argmax l k x :
  Forall (λ x, is_nan x = false) l → is_first_max l k → l !! k = Some x →
  float_pos (float_max l) = float_pos x.
Proof.
  intros Hnn (x' & Hx' & Hmax & _) Hx. assert (x' = x) as -> by congruence.
  assert (l ≠ []) as Hne by (by intros ->).
  destruct (float_max_spec l Hne Hnn) as [Hin Hle].
  pose proof Hnn as Hnn'. rewrite Forall_forall in Hnn'.
  assert (is_nan x = false) as Hnx by (eapply Hnn', list_elem_of_lookup_2, Hx).
  pose proof (Hnn' _ Hin) as Hnm.
  apply list_elem_of_lookup in Hin as [j Hj]. specialize (Hmax j _ Hj).
  specialize (Hle x ltac:(by eapply list_elem_of_lookup_2)).
  destruct (float_pos (float_max l)) eqn:E1, (float_pos x) eqn:E2; try done.
  - by rewrite (float_pos_leb _ _ Hnm Hnx Hmax E1) in E2.
  - by rewrite (float_pos_leb _ _ Hnx Hnm Hle E2) in E1.
Qed.

(** *** Slopes *)

Lemma SFdiv_zero s y : float_pos (SFdiv prec emax (S754_zero s) y) = false.
Proof. by destruct y as [?|?| |? ? ?]. Qed.

Lemma run_length_signed step_size diag d :
  0 < step_size → run_length step_size diag = Some d → signed_as false d.
Proof.
  intros Hstep. unfold run_length. destruct diag.
  - destruct (float_of_int _) as [x|] eqn:Hx; [|done]. intros [= <-].
    apply float_sqrt_signed. apply float_of_int_Some in Hx as [-> _].
    pose proof (np_float64_signed (step_size ^ 2 + step_size ^ 2)) as Hs.
    by rewrite bool_decide_eq_false_2 in Hs by nia.
  - intros [-> _]%float_of_int_Some.
    pose proof (np_float64_signed step_size) as Hs.
    by rewrite bool_decide_eq_false_2 in Hs by lia.
Qed.

Lemma run_length_not_nan step_size diag d :
  run_length step_size diag = Some d → is_nan d = false.
Proof.
  unfold run_length. destruct diag.
  - destruct (float_of_int _) as [x|] eqn:Hx; [|done]. intros [= <-].
    apply float_of_int_Some in Hx as [-> _].
    apply float_sqrt_not_nan; [|apply np_float64_not_nan].
    pose proof (np_float64_signed (step_size ^ 2 + step_size ^ 2)) as Hs.
    by rewrite bool_decide_eq_false_2 in Hs by nia.
  - intros [-> _]%float_of_int_Some. apply np_float64_not_nan.
Qed.

Lemma derivative_not_nan delta d s :
  is_nan d = false → derivative delta d = Some s → is_nan s = false.
Proof.
  intros Hd. unfold derivative.
  destruct (float_of_int delta) as [x|] eqn:Hx; [|done]. cbn.
  apply float_of_int_Some in Hx as [_ Hx]. unfold float_div.
  destruct d as [?|?| |? ? ?] eqn:E; try done; intros [= <-]; by apply SFdiv_not_nan.
Qed.

Lemma derivative_pos delta d s :
  signed_as false d → derivative delta d = Some s → float_pos s = true → 0 < delta.
Proof.
  intros Hd. unfold derivative.
  destruct (float_of_int delta) as [x|] eqn:Hx; [|done]. cbn.
  apply float_of_int_Some in Hx as [-> _]. unfold float_div.
  destruct (decide (0 < delta)) as [|Hdelta]; [done|].
  intros Hs Hpos. exfalso.
  assert (s = SFdiv prec emax (np_float64 delta) d) as ->.
  { by destruct d; simplify_eq. }
  destruct (decide (delta = 0)) as [->|Hne].
  - change (np_float64 0) with (S754_zero false) in Hpos. by rewrite SFdiv_zero in Hpos.
  - pose proof (np_float64_signed delta) as Hx.
    rewrite bool_decide_eq_true_2 in Hx by lia.
    apply (float_pos_signed _ Hpos). apply (SFdiv_signed _ _ true false); done.
Qed.

Lemma run_length_representable step_size diag :
  0 < step_size < 2 ^ 26 →
  ∃ d, run_length step_size diag = Some d ∧ is_distance d = true.
Proof.
  intros Hstep. unfold run_length. destruct diag.
  - destruct (float_of_int_exact (step_size ^ 2 + step_size ^ 2)) as (x & -> & Hx).
    { change (2 ^ 53) with (2 * (2 ^ 26 * 2 ^ 26)). nia. }
    cbn. eexists. split; [done|]. destruct x as [?|?| |s m e]; [nia|done|done|].
    destruct Hx as [-> He]. rewrite bool_decide_eq_false_2 by nia.
    apply float_sqrt_distance. lia.
  - destruct (float_of_int_exact step_size) as (x & -> & Hx); [lia|].
    eexists. split; [done|]. destruct x as [?|?| |s m e]; [lia|done|done|].
    destruct Hx as [-> _]. by rewrite bool_decide_eq_false_2 by lia.
Qed.

Lemma derivative_representable delta d :
  - 2 ^ 53 < delta < 2 ^ 53 → is_distance d = true → is_Some (derivative delta d).
Proof.
  intros Hdelta Hd. unfold derivative.
  destruct (float_of_int_exact delta Hdelta) as (x & -> & _). cbn.
  by destruct d as [?|[]| |[] ? ?].
Qed.
(** ** Flow field *)

Ltac norm_rc := cbv zeta in *; unfold map_1d_to_2d in *; cbn [fst snd] in *.

Lemma map_1d_to_2d_rc r c cols :
  0 ≤ c < cols → map_1d_to_2d (map_2d_to_1d (r, c) cols) cols = (r, c).
Proof.
  intros Hc. unfold map_1d_to_2d, map_2d_to_1d. simpl. f_equal.
  - symmetry. apply (Z.div_unique _ _ _ c); lia.
  - symmetry. apply (Z.mod_unique _ _ r); lia.
Qed.

Lemma interior_bounds rows cols i :
  let rc := map_1d_to_2d i cols in
  interior rows cols rc.1 rc.2 = true →
  3 ≤ rows ∧ 3 ≤ cols ∧ 0 ≤ i < rows * cols.
Proof.
  intros rc Hint. unfold interior in Hint. apply bool_decide_eq_true in Hint.
  subst rc. simpl in Hint.
  assert (cols ≠ 0) as Hc by lia.
  pose proof (Z.div_mod i cols Hc). nia.
Qed.

Lemma neighbor_indices_offsets i cols d4 :
  get_neighbor_indices i cols d4
  = (λ d, i + (d.1 * cols + d.2)) <$> offsets d4.
Proof. unfold get_neighbor_indices, offsets. destruct d4; simpl; repeat (f_equal; try lia). Qed.

Lemma offsets_flags_length d4 : length (offsets d4) = length (diagonal_flags d4).
Proof. by destruct d4. Qed.

Lemma offsets_flags d4 k d :
  offsets d4 !! k = Some d →
  diagonal_flags d4 !! k = Some (bool_decide (d.1 ≠ 0 ∧ d.2 ≠ 0))
  ∧ -1 ≤ d.1 ≤ 1 ∧ -1 ≤ d.2 ≤ 1 ∧ (d.1 ≠ 0 ∨ d.2 ≠ 0).
Proof.
  destruct d4; simpl;
    do 8 (destruct k as [|k]; [first [done | intros [= <-]; simpl; split; [done|lia]]|]);
    done.
Qed.

Lemma offset_cardinal cols i d :
  3 ≤ cols → -1 ≤ d.1 ≤ 1 → -1 ≤ d.2 ≤ 1 → d.1 ≠ 0 ∨ d.2 ≠ 0 →
  negb (is_cardinal cols i (i + (d.1 * cols + d.2))) = bool_decide (d.1 ≠ 0 ∧ d.2 ≠ 0).
Proof.
  intros Hc H1 H2 Hne. unfold is_cardinal. destruct d as [dr dc]; simpl in *.
  assert (dr = -1 ∨ dr = 0 ∨ dr = 1) as Hdr by lia.
  assert (dc = -1 ∨ dc = 0 ∨ dc = 1) as Hdc by lia.
  destruct Hdr as [Hdr|[Hdr|Hdr]], Hdc as [Hdc|[Hdc|Hdc]]; subst dr dc;
    first [ rewrite bool_decide_eq_true_2 by lia; rewrite bool_decide_eq_false_2 by lia; done
          | rewrite bool_decide_eq_false_2 by lia; rewrite bool_decide_eq_true_2 by lia; done
          | lia ].
Qed.

Lemma mapM_ext2 {A B C} (f : A → option C) (g : B → option C) l1 l2 :
  Forall2 (λ a b, f a = g b) l1 l2 → mapM f l1 = mapM g l2.
Proof. induction 1 as [|a b l1 l2 Hab _ IH]; [done|]. cbn. by rewrite Hab, IH. Qed.

Lemma distances_lookup step_size d4 distance k d :
  distances step_size d4 = Some distance → offsets d4 !! k = Some d →
  ∃ dist, distance !! k = Some dist
          ∧ run_length step_size (bool_decide (d.1 ≠ 0 ∧ d.2 ≠ 0)) = Some dist.
Proof.
  intros Hdist%mapM_Some Hd. destruct (offsets_flags d4 k d Hd) as (Hflag & _).
  destruct (Forall2_lookup_l _ _ _ _ _ Hdist Hflag) as (dist & Hk & Hrun). eauto.
Qed.

(** The derivatives of the model are the slopes to the neighbours. *)
Lemma derivatives_values heights cols step_size d4 dists i :
  3 ≤ cols → distances step_size d4 = Some dists →
  let rc := map_1d_to_2d i cols in
  get_derivatives heights cols dists d4 rc.1 rc.2
  = mapM (slope_to heights step_size cols i) (get_neighbor_indices i cols d4).
Proof.
  intros Hcols Hdist rc. unfold get_derivatives.
  rewrite neighbor_heights_indices.
  replace (map_2d_to_1d (rc.1, rc.2) cols) with i by (symmetry; apply map_1d_2d_inv).
  rewrite neighbor_indices_offsets.
  pose proof Hdist as Hlen%mapM_Some%Forall2_length. rewrite <- offsets_flags_length in Hlen.
  apply mapM_ext2, Forall2_same_length_lookup_2.
  - rewrite length_zip, !length_fmap. lia.
  - intros k [nh dist] nb Hzip Hnb.
    rewrite list_lookup_fmap in Hnb.
    destruct (offsets d4 !! k) as [d|] eqn:Hd; [|done]. injection Hnb as <-.
    apply lookup_zip_with_Some in Hzip as (nh' & dist' & [= <- <-] & Hnh & Hk).
    rewrite !list_lookup_fmap, Hd in Hnh. injection Hnh as <-.
    destruct (distances_lookup _ _ _ _ _ Hdist Hd) as (dist' & Hk' & Hrun).
    assert (dist' = dist) as -> by congruence.
    destruct (offsets_flags d4 k d Hd) as (_ & H1 & H2 & Hne).
    unfold slope_to, distance. rewrite offset_cardinal, Hrun by done. done.
Qed.

Lemma derivatives_not_nan heights cols step_size d4 distance r c derivatives :
  distances step_size d4 = Some distance →
  get_derivatives heights cols distance d4 r c = Some derivatives →
  derivatives ≠ [] ∧ Forall (λ x, is_nan x = false) derivatives.
Proof.
  intros Hdist Hder. unfold get_derivatives in Hder. apply mapM_Some in Hder.
  pose proof Hdist as Hlen%mapM_Some%Forall2_length. split.
  - apply Forall2_length in Hder. rewrite length_zip in Hder.
    unfold get_neighbor_heights in Hder. rewrite length_fmap, offsets_flags_length in Hder.
    intros ->. rewrite <- Hlen, Nat.min_id in Hder. by destruct d4.
  - apply Forall_forall. intros s [k Hk]%list_elem_of_lookup.
    destruct (Forall2_lookup_r _ _ _ _ _ Hder Hk) as ([nh dist] & Hzip & Hs).
    apply lookup_zip_with_Some in Hzip as (nh' & dist' & [= <- <-] & _ & Hdk).
    cbn [fst snd] in Hs. eapply derivative_not_nan; [|exact Hs].
    apply mapM_Some in Hdist.
    destruct (Forall2_lookup_r _ _ _ _ _ Hdist Hdk) as (flag & _ & Hrun).
    by eapply run_length_not_nan.
Qed.

Lemma leaves_interior_pit d4 rows cols r c :
  leaves_interior d4 rows cols r c (Some (-1)) = false.
Proof.
  unfold leaves_interior. destruct d4;
    repeat (rewrite bool_decide_eq_false_2 by (intros [_ H]; naive_solver)); done.
Qed.

Lemma leaves_interior_code d4 rows cols r c k d :
  interior rows cols r c = true → offsets d4 !! k = Some d →
  leaves_interior d4 rows cols r c (Some (direction_code d4 k)) = true
  ↔ (r + d.1 = 0 ∨ r + d.1 = rows - 1 ∨ c + d.2 = 0 ∨ c + d.2 = cols - 1).
Proof.
  intros Hint%bool_decide_eq_true Hd. unfold leaves_interior, direction_code.
  destruct d4; simpl in Hd;
    do 8 (destruct k as [|k];
          [first [done | injection Hd as <-; cbn;
                         rewrite !orb_true_iff, !bool_decide_eq_true; naive_solver lia]|]);
    done.
Qed.

Lemma translation_of_code d4 cols k d :
  offsets d4 !! k = Some d →
  translation_of (direction_code d4 k) (direction_values d4) (translations cols d4)
  = Some (d.1 * cols + d.2).
Proof.
  intros Hd. unfold direction_code.
  destruct d4; simpl in Hd;
    do 8 (destruct k as [|k]; [first [done | injection Hd as <-; cbn; f_equal; lia]|]);
    done.
Qed.

Lemma flow_directions_lookup heights step_size rows cols d4 flow_directions i :
  get_flow_directions heights step_size rows cols d4 = Some flow_directions →
  0 ≤ i < rows * cols →
  ∃ distance,
    distances step_size d4 = Some distance
    ∧ let rc := map_1d_to_2d i cols in
      if interior rows cols rc.1 rc.2 then
        ∃ derivatives,
          get_derivatives heights cols distance d4 rc.1 rc.2 = Some derivatives
          ∧ zlookup flow_directions i
            = Some (Some (if float_pos (float_max derivatives)
                          then direction_code d4 (argmax SFltb derivatives) else -1))
      else zlookup flow_directions i = Some None.
Proof.
  intros Hfd Hi. unfold get_flow_directions in Hfd. bind_case Hfd as distance Hdist.
  exists distance. split; [done|]. apply mapM_Some in Hfd.
  assert (Hseq : seqZ 0 (rows * cols) !! Z.to_nat i = Some i).
  { rewrite lookup_seqZ_lt by lia. f_equal. lia. }
  destruct (Forall2_lookup_l _ _ _ _ _ Hfd Hseq) as (code & Hcode & Hcell).
  cbv zeta in *. unfold zlookup. rewrite decide_True by lia. rewrite Hcode.
  destruct (interior rows cols _ _); [|congruence].
  destruct (get_derivatives _ _ _ _ _ _) as [derivatives|]; [|done].
  exists derivatives. split; [done|]. cbn in Hcell. congruence.
Qed.

Lemma flow_directions_length heights step_size rows cols d4 flow_directions :
  get_flow_directions heights step_size rows cols d4 = Some flow_directions →
  length flow_directions = Z.to_nat (rows * cols).
Proof.
  unfold get_flow_directions. intros Hfd. bind_case Hfd as distance Hdist.
  apply mapM_Some, Forall2_length in Hfd. by rewrite <- Hfd, length_seqZ.
Qed.

(** With heights and a step size that convert without rounding, no
    conversion and no division fails. *)
Lemma flow_directions_Some heights step_size rows cols d4 :
  representable heights step_size →
  is_Some (get_flow_directions heights step_size rows cols d4).
Proof.
  intros [Hheights Hstep]. unfold get_flow_directions.
  assert (Hdist : ∃ distance, distances step_size d4 = Some distance
                              ∧ Forall (λ d, is_distance d = true) distance).
  { assert (is_Some (distances step_size d4)) as [distance Hdist].
    { apply mapM_is_Some, Forall_forall. intros diag _.
      destruct (run_length_representable step_size diag Hstep) as (d & Hd & _).
      unfold compose. by exists d. }
    exists distance. split; [done|]. apply Forall_forall.
    intros d [k Hk]%list_elem_of_lookup. apply mapM_Some in Hdist.
    destruct (Forall2_lookup_r _ _ _ _ _ Hdist Hk) as (diag & _ & Hrun).
    destruct (run_length_representable step_size diag Hstep) as (d' & Hd' & Hdd). congruence. }
  destruct Hdist as (distance & -> & Hdistance). cbn [mbind option_bind].
  apply mapM_is_Some, Forall_forall. intros i _. unfold compose. cbv beta zeta.
  destruct (interior rows cols (map_1d_to_2d i cols).1 (map_1d_to_2d i cols).2); [|done].
  assert (is_Some (get_derivatives heights cols distance d4 (map_1d_to_2d i cols).1
                     (map_1d_to_2d i cols).2)) as [derivatives ->]; [|done].
  apply mapM_is_Some, Forall_forall. intros [nh dist] Hin. unfold compose. cbn [fst snd].
  apply elem_of_zip_with in Hin as (nh' & dist' & [= <- <-] & Hnh & Hd).
  rewrite Forall_forall in Hdistance. apply derivative_representable; [|by apply Hdistance].
  assert (Hbound : ∀ j, - 2 ^ 52 < height heights j < 2 ^ 52).
  { intros j. unfold height. destruct (zlookup heights j) as [h|] eqn:Hh; cbn; [|lia].
    rewrite Forall_forall in Hheights. apply Hheights.
    unfold zlookup in Hh. destruct (decide (0 ≤ j)); [|done].
    by eapply list_elem_of_lookup_2. }
  unfold get_neighbor_heights in Hnh. apply list_elem_of_fmap in Hnh as (d & -> & _).
  pose proof (Hbound (map_2d_to_1d ((map_1d_to_2d i cols).1, (map_1d_to_2d i cols).2) cols)).
  pose proof (Hbound (map_2d_to_1d ((map_1d_to_2d i cols).1 + d.1,
                                    (map_1d_to_2d i cols).2 + d.2) cols)).
  change (2 ^ 53) with (2 * 2 ^ 52). lia.
Qed.

Lemma zlookup_imap {A B} (f : nat → A → B) (l : list A) i :
  zlookup (imap f l) i = f (Z.to_nat i) <$> zlookup l i.
Proof.
  unfold zlookup. destruct (decide (0 ≤ i)); [|done]. apply list_lookup_imap.
Qed.

(** [get_flow_direction_indices] as its three steps. *)
Lemma flow_direction_indices_Some heights step_size rows cols d4 flow :
  get_flow_direction_indices heights step_size rows cols d4 = Some flow →
  ∃ flow_directions,
    get_flow_directions heights step_size rows cols d4 = Some flow_directions
    ∧ 2 ≤ rows ∧ 2 ≤ cols
    ∧ flow
      = imap (λ i code,
           match code with
           | Some v =>
               match translation_of v (direction_values d4) (translations cols d4) with
               | Some t => Some (Z.of_nat i + t)
               | None => Some v
               end
           | None => None
           end)
          (imap (λ i code,
             let rc := map_1d_to_2d (Z.of_nat i) cols in
             if leaves_interior d4 rows cols rc.1 rc.2 code then Some (-1) else code)
           flow_directions).
Proof.
  unfold get_flow_direction_indices, remove_out_of_boundary_flow. intros Hflow.
  bind_case Hflow as flow_directions Hfd. exists flow_directions.
  destruct (decide (2 ≤ rows ∧ 2 ≤ cols)) as [[??]|]; [|done].
  cbn in Hflow. by injection Hflow as <-.
Qed.

Lemma flow_direction_indices_length heights step_size rows cols d4 flow :
  get_flow_direction_indices heights step_size rows cols d4 = Some flow →
  length flow = Z.to_nat (rows * cols).
Proof.
  intros (fd & Hfd & _ & _ & ->)%flow_direction_indices_Some.
  by rewrite !length_imap, (flow_directions_length _ _ _ _ _ _ Hfd).
Qed.

Lemma flow_direction_indices_representable heights step_size rows cols d4 :
  representable heights step_size → 2 ≤ rows → 2 ≤ cols →
  is_Some (get_flow_direction_indices heights step_size rows cols d4).
Proof.
  intros Hrep Hrows Hcols. unfold get_flow_direction_indices, remove_out_of_boundary_flow.
  destruct (flow_directions_Some heights step_size rows cols d4 Hrep) as [fd ->].
  cbn. by rewrite decide_True.
Qed.

(** The flow of one interior cell. *)
Lemma flow_direction_indices_cell heights step_size rows cols d4 flow i :
  get_flow_direction_indices heights step_size rows cols d4 = Some flow →
  let rc := map_1d_to_2d i cols in
  interior rows cols rc.1 rc.2 = true →
  let nbrs := get_neighbor_indices i cols d4 in
  ∃ slopes k nb s,
    mapM (slope_to heights step_size cols i) nbrs = Some slopes
    ∧ Forall (λ x, is_nan x = false) slopes
    ∧ is_first_max slopes k ∧ nbrs !! k = Some nb ∧ slopes !! k = Some s
    ∧ (float_pos s = false → zlookup flow i = Some (Some (-1)))
    ∧ (float_pos s = true → on_domain_boundary rows cols nb → zlookup flow i = Some (Some (-1)))
    ∧ (float_pos s = true → ¬ on_domain_boundary rows cols nb → zlookup flow i = Some (Some nb)).
Proof.
  intros (fd & Hfd & _ & _ & ->)%flow_direction_indices_Some rc Hint nbrs.
  pose proof (interior_bounds rows cols i Hint) as (Hrows & Hcols & Hi).
  pose proof (map_1d_2d_inv i cols) as Hinv.
  destruct (flow_directions_lookup _ _ _ _ _ _ i Hfd Hi) as (distance & Hdist & Hcell).
  pose proof (derivatives_values heights cols step_size d4 distance i Hcols Hdist) as Hvals.
  subst rc. norm_rc.
  remember (i `div` cols) as r eqn:Hr. remember (i `mod` cols) as c eqn:Hc.
  rewrite Hint in Hcell. destruct Hcell as (slopes & Hder & Hcell).
  destruct (derivatives_not_nan _ _ _ _ _ _ _ _ Hdist Hder) as [Hne Hnn].
  rewrite Hvals in Hder. fold nbrs in Hder.
  pose proof (argmax_first_max slopes Hne Hnn) as Hmax.
  remember (argmax SFltb slopes) as k eqn:Hkdef.
  pose proof (first_max_lt_length _ _ Hmax) as Hk.
  assert (length slopes = length (offsets d4)) as Hlens.
  { apply mapM_Some, Forall2_length in Hder. rewrite <- Hder. unfold nbrs.
    by rewrite neighbor_indices_offsets, !length_fmap. }
  destruct (lookup_lt_is_Some_2 (offsets d4) k) as [d Hd]; [lia|].
  assert (Hnb : nbrs !! k = Some (i + (d.1 * cols + d.2))).
  { unfold nbrs. by rewrite neighbor_indices_offsets, list_lookup_fmap, Hd. }
  destruct (lookup_lt_is_Some_2 slopes k Hk) as [s Hs].
  rewrite (float_max_argmax slopes k s Hnn Hmax Hs) in Hcell.
  eexists slopes, k, _, s. split; [done|]. split; [done|]. split; [done|].
  split; [done|]. split; [done|].
  rewrite !zlookup_imap, Hcell. cbn [fmap option_fmap option_map].
  rewrite Z2Nat.id by lia. norm_rc. rewrite <- Hr, <- Hc.
  assert (Hrc : map_1d_to_2d (i + (d.1 * cols + d.2)) cols = (r + d.1, c + d.2)).
  { destruct (offsets_flags d4 k d Hd) as (_ & H1 & H2 & _).
    apply bool_decide_eq_true in Hint.
    replace (i + (d.1 * cols + d.2)) with (map_2d_to_1d (r + d.1, c + d.2) cols).
    - apply map_1d_to_2d_rc. lia.
    - unfold map_2d_to_1d in *. cbn [fst snd] in *. lia. }
  pose proof (leaves_interior_code d4 rows cols r c k d Hint Hd) as Hleave.
  assert (Hbnd : on_domain_boundary rows cols (i + (d.1 * cols + d.2))
                 ↔ leaves_interior d4 rows cols r c (Some (direction_code d4 k)) = true).
  { rewrite Hleave. unfold on_domain_boundary. rewrite Hrc. cbn [fst snd]. tauto. }
  split; [|split].
  - intros ->. rewrite leaves_interior_pit. by destruct d4.
  - intros -> Hb. apply Hbnd in Hb. rewrite Hb. by destruct d4.
  - intros -> Hb.
    destruct (leaves_interior d4 rows cols r c (Some (direction_code d4 k))) eqn:E.
    { exfalso. by apply Hb, Hbnd. }
    by rewrite (translation_of_code d4 cols k d Hd).
Qed.

(** A positive double slope is the slope to a strictly lower cell. *)
Lemma slope_to_pos heights step_size cols a b s :
  0 < step_size → slope_to heights step_size cols a b = Some s → float_pos s = true →
  height heights b < height heights a.
Proof.
  intros Hstep. unfold slope_to, distance.
  destruct (run_length _ _) as [d|] eqn:Hd; [|done]. cbn. intros Hs Hpos.
  pose proof (derivative_pos _ _ _ (run_length_signed _ _ _ Hstep Hd) Hs Hpos). lia.
Qed.

(** *** Exact slopes

    Two slopes that differ as real numbers can round to the same double:
    [a / 10 < b / sqrt 200] as soon as [2 a² < b²]. *)
Lemma exact_slope_diagonal_steeper a b :
  0 < a → 0 < b → 2 * (a * a) < b * b →
  (IZR a / IZR 10 < IZR b / sqrt (IZR 10 ^ 2 + IZR 10 ^ 2))%R.
Proof.
  intros Ha%IZR_lt Hb%IZR_lt Hab%IZR_lt. rewrite mult_IZR, !mult_IZR in Hab.
  set (s := sqrt (IZR 10 ^ 2 + IZR 10 ^ 2)).
  assert (Hs2 : (s * s = 200)%R) by (unfold s; rewrite sqrt_sqrt; lra).
  assert (Hs : (0 < s)%R) by (unfold s; apply sqrt_lt_R0; lra).
  assert (Hlt : (IZR a * s < 10 * IZR b)%R) by nra.
  apply (Rmult_lt_reg_r (10 * s)); [nra|].
  replace (IZR a / 10 * (10 * s))%R with (IZR a * s)%R by (field; lra).
  replace (IZR b / s * (10 * s))%R with (10 * IZR b)%R by (field; lra).
  done.
Qed.

(** C5, as stated, on a raster of 5 rows and 5 columns: from the centre
    cell 12 the slope to the south-east neighbour 18 is the greatest as a
    real number, but it and the slope to the east neighbour 13 are the same
    double, and the flow goes to 13, the first of the two. *)
Lemma flow_field_tie_counterexample :
  let h := 200000000 in
  let heights := [h; h; h; h; h;
                  h; h; h; h; h;
                  h; h; h; 106777642; h;
                  h; h; h; 68163677; h;
                  h; h; h; h; h] in
  (∃ flow, get_flow_direction_indices heights 10 5 5 false = Some flow
           ∧ zlookup flow 12 = Some (Some 13))
  ∧ slope_to heights 10 5 12 13 = slope_to heights 10 5 12 18
  ∧ (exact_slope heights 10 5 12 13 < exact_slope heights 10 5 12 18)%R.
Proof.
  intros h heights. split; [|split].
  - eexists. split; [vm_compute; reflexivity|reflexivity].
  - vm_compute. reflexivity.
  - unfold exact_slope.
    replace (is_cardinal 5 12 13) with true by (by vm_compute).
    replace (is_cardinal 5 12 18) with false by (by vm_compute).
    replace (height heights 12 - height heights 13) with 93222358 by (by vm_compute).
    replace (height heights 12 - height heights 18) with 131836323 by (by vm_compute).
    apply exact_slope_diagonal_steeper; lia.
Qed.

(** C5 (amended): the slopes are doubles. For heights and a step size that
    convert to doubles without rounding, the flow field is produced, and at
    an interior cell it is decided by the first neighbour, in the canonical
    order, whose slope, the double
    [float(height[i] - height[nb]) / distance], is the greatest: the cell
    is a [PIT] (-1) when that slope is not positive or when that neighbour
    is on the domain boundary, and flows to that neighbour otherwise. *)
Theorem flow_field_spec heights step_size rows cols d4 i :
  representable heights step_size →
  length heights = Z.to_nat (rows * cols) →
  let rc := map_1d_to_2d i cols in
  interior rows cols rc.1 rc.2 = true →
  let nbrs := get_neighbor_indices i cols d4 in
  ∃ flow slopes k nb s,
    get_flow_direction_indices heights step_size rows cols d4 = Some flow
    ∧ mapM (slope_to heights step_size cols i) nbrs = Some slopes
    ∧ is_first_max slopes k ∧ nbrs !! k = Some nb ∧ slopes !! k = Some s
    ∧ (float_pos s = false → zlookup flow i = Some (Some (-1)))
    ∧ (float_pos s = true → on_domain_boundary rows cols nb →
       zlookup flow i = Some (Some (-1)))
    ∧ (float_pos s = true → ¬ on_domain_boundary rows cols nb →
       zlookup flow i = Some (Some nb)).
Proof.
  intros Hrep _ rc Hint nbrs.
  pose proof (interior_bounds rows cols i Hint) as (Hrows & Hcols & _).
  destruct (flow_direction_indices_representable heights step_size rows cols d4 Hrep)
    as [flow Hflow]; [lia..|].
  destruct (flow_direction_indices_cell heights step_size rows cols d4 flow i Hflow Hint)
    as (slopes & k & nb & s & Hslopes & _ & Hmax & Hnb & Hs & Hcases).
  by exists flow, slopes, k, nb, s.
Qed.

Lemma flow_field_spec_witness :
  let heights := [5; 5; 5; 5; 3; 1; 5; 5; 5] in
  ∃ flow slopes k nb s,
    get_flow_direction_indices heights 10 3 3 false = Some flow
    ∧ mapM (slope_to heights 10 3 4) (get_neighbor_indices 4 3 false) = Some slopes
    ∧ is_first_max slopes k ∧ get_neighbor_indices 4 3 false !! k = Some nb
    ∧ slopes !! k = Some s
    ∧ (float_pos s = false → zlookup flow 4 = Some (Some (-1)))
    ∧ (float_pos s = true → on_domain_boundary 3 3 nb → zlookup flow 4 = Some (Some (-1)))
    ∧ (float_pos s = true → ¬ on_domain_boundary 3 3 nb → zlookup flow 4 = Some (Some nb)).
Proof.
  intros heights.
  apply (flow_field_spec heights 10 3 3 false 4);
    [split; [repeat constructor; lia | lia] | reflexivity | reflexivity].
Defined.

(** ** Endpoint labeller *)

Lemma boundary_coords_elem rows cols rc :
  rc ∈ get_domain_boundary_coords cols rows
  ↔ (0 ≤ rc.2 < cols ∧ (rc.1 = 0 ∨ rc.1 = rows - 1))
    ∨ (1 ≤ rc.1 < rows - 1 ∧ (rc.2 = 0 ∨ rc.2 = cols - 1)).
Proof.
  unfold get_domain_boundary_coords. rewrite !elem_of_app, !list_elem_of_fmap.
  setoid_rewrite elem_of_seqZ. destruct rc as [r c]. simpl. split.
  - intros [(y & [= -> ->] & Hy)|[(y & [= -> ->] & Hy)|[(y & [= -> ->] & Hy)|(y & [= -> ->] & Hy)]]];
      lia.
  - intros [[Hc [->| ->]]|[Hr [->| ->]]].
    + left. exists c. split; [done|lia].
    + right; left. exists c. split; [done|lia].
    + right; right; left. exists r. split; [done|lia].
    + right; right; right. exists r. split; [done|lia].
Qed.

Lemma on_domain_boundary_coords rows cols i :
  2 ≤ rows → 1 ≤ cols → 0 ≤ i < rows * cols →
  on_domain_boundary rows cols i
  ↔ ∃ rc, rc ∈ get_domain_boundary_coords cols rows ∧ map_2d_to_1d rc cols = i.
Proof.
  intros Hrows Hcols Hi. unfold on_domain_boundary. simpl.
  assert (0 ≤ i `mod` cols < cols) as Hc by (apply Z.mod_pos_bound; lia).
  assert (0 ≤ i `div` cols < rows) as Hr.
  { split; [apply Z.div_pos; lia|]. apply Z.div_lt_upper_bound; lia. }
  split.
  - intros Hb. exists (map_1d_to_2d i cols). split; [|apply map_1d_2d_inv].
    apply boundary_coords_elem. simpl. lia.
  - intros ([r c] & Hin & <-). apply boundary_coords_elem in Hin. simpl in Hin.
    assert (0 ≤ c < cols) as Hc' by lia.
    pose proof (map_1d_to_2d_rc r c cols Hc') as Heq. unfold map_1d_to_2d in Heq.
    injection Heq as -> ->. lia.
Qed.

Lemma boundary_coords_range rows cols rc :
  2 ≤ rows → 1 ≤ cols → rc ∈ get_domain_boundary_coords cols rows →
  0 ≤ map_2d_to_1d rc cols < rows * cols.
Proof.
  intros Hrows Hcols Hin%boundary_coords_elem. unfold map_2d_to_1d. nia.
Qed.

Lemma assign_cells_length {A} (arr : list A) cols coords v :
  length (assign_cells arr cols coords v) = length arr.
Proof.
  unfold assign_cells. revert arr. induction coords as [|rc coords IH]; intros arr; [done|].
  simpl. by rewrite IH, length_insert.
Qed.

Lemma assign_cells_other {A} (arr : list A) cols coords v j :
  (∀ rc, rc ∈ coords → Z.to_nat (map_2d_to_1d rc cols) ≠ j) →
  assign_cells arr cols coords v !! j = arr !! j.
Proof.
  unfold assign_cells. revert arr.
  induction coords as [|rc coords IH]; intros arr Hno; [done|]. simpl.
  rewrite IH by (intros rc' Hrc'; apply Hno; by right).
  apply list_lookup_insert_ne, Hno. by left.
Qed.

Lemma assign_cells_stable {A} (arr : list A) cols coords v j :
  arr !! j = Some v → assign_cells arr cols coords v !! j = Some v.
Proof.
  unfold assign_cells. revert arr.
  induction coords as [|rc coords IH]; intros arr Hj; [done|]. simpl.
  apply IH. destruct (decide (Z.to_nat (map_2d_to_1d rc cols) = j)) as [->|Hne].
  - apply list_lookup_insert_eq. by apply lookup_lt_Some in Hj.
  - by rewrite list_lookup_insert_ne.
Qed.

Lemma assign_cells_in {A} (arr : list A) cols coords v rc :
  rc ∈ coords → (Z.to_nat (map_2d_to_1d rc cols) < length arr)%nat →
  assign_cells arr cols coords v !! Z.to_nat (map_2d_to_1d rc cols) = Some v.
Proof.
  revert arr. induction coords as [|rc' coords IH]; intros arr Hin Hlt.
  - by apply elem_of_nil in Hin.
  - apply elem_of_cons in Hin as [->|Hin].
    + change (assign_cells arr cols (rc' :: coords) v)
        with (assign_cells (<[Z.to_nat (map_2d_to_1d rc' cols):=v]> arr) cols coords v).
      apply assign_cells_stable. by apply list_lookup_insert_eq.
    + change (assign_cells arr cols (rc' :: coords) v)
        with (assign_cells (<[Z.to_nat (map_2d_to_1d rc' cols):=v]> arr) cols coords v).
      apply IH; [done|]. by rewrite length_insert.
Qed.

(** [arr[domain_boundary] = v], cell by cell. *)
Lemma assign_boundary_lookup {A} (arr : list A) rows cols v i :
  2 ≤ rows → 1 ≤ cols → length arr = Z.to_nat (rows * cols) → 0 ≤ i < rows * cols →
  zlookup (assign_cells arr cols (get_domain_boundary_coords cols rows) v) i
  = if decide (on_domain_boundary rows cols i) then Some v else zlookup arr i.
Proof.
  intros Hrows Hcols Hlen Hi. rewrite !zlookup_nonneg by lia.
  pose proof (on_domain_boundary_coords rows cols i Hrows Hcols Hi) as Hb.
  destruct (decide (on_domain_boundary rows cols i)) as [Hon|Hoff].
  - apply Hb in Hon as (rc & Hin & <-). apply assign_cells_in; [done|].
    pose proof (boundary_coords_range rows cols rc Hrows Hcols Hin). lia.
  - apply assign_cells_other. intros rc Hin Heq. apply Hoff, Hb. exists rc. split; [done|].
    pose proof (boundary_coords_range rows cols rc Hrows Hcols Hin). lia.
Qed.

Lemma filter_ext_elem {A} (P Q : A → Prop) `{!∀ x, Decision (P x), !∀ x, Decision (Q x)}
    (l : list A) :
  (∀ x, x ∈ l → (P x ↔ Q x)) → filter P l = filter Q l.
Proof.
  induction l as [|a l IH]; intros Hext; [done|].
  rewrite !filter_cons. rewrite IH by (intros x Hx; apply Hext; by right).
  destruct (decide (P a)) as [Ha|Ha], (decide (Q a)) as [Hb|Hb]; try done.
  - exfalso. apply Hb, Hext; [by left|done].
  - exfalso. apply Ha, Hext; [by left|done].
Qed.

Lemma filter_split_length {A} (P Q : A → Prop)
    `{!∀ x, Decision (P x), !∀ x, Decision (Q x)} (l : list A) :
  (∀ x, x ∈ l → (Q x ↔ ¬ P x)) →
  (length (filter P l) + length (filter Q l) = length l)%nat.
Proof.
  induction l as [|a l IH]; intros Hext; [done|].
  rewrite !filter_cons. specialize (IH (λ x Hx, Hext x (list_elem_of_further _ _ _ Hx))).
  pose proof (Hext a (list_elem_of_here _ _)) as Ha.
  destruct (decide (P a)), (decide (Q a)); simpl; try lia; tauto.
Qed.

Lemma imap_id_cond {A} (c : nat → bool) (f : nat → A) (l : list A) :
  (∀ i, (i < length l)%nat → c i = false) →
  imap (λ i t, if c i then f i else t) l = l.
Proof.
  intros H. apply list_eq. intros i. rewrite list_lookup_imap.
  destruct (l !! i) as [t|] eqn:E; [simpl|done].
  by rewrite H by (by apply lookup_lt_Some in E).
Qed.

Lemma reaches_end D i p : reaches D i p → zlookup D p = Some (Some (-1)) ∧ 0 ≤ p.
Proof.
  induction 1 as [p Hp|i n p Hi Hn Hr IH]; [|done].
  split; [done|]. by apply zlookup_Some in Hp as [? _].
Qed.

Lemma reaches_fun D i p q : reaches D i p → reaches D i q → p = q.
Proof.
  intros Hp. revert q. induction Hp as [p Hp|i n p Hi Hn Hr IH]; intros q Hq.
  - destruct Hq as [q Hq|i n q Hi Hn Hq]; [done|]. congruence.
  - destruct Hq as [q Hq|i n' q Hi' Hn' Hq]; [congruence|].
    apply IH. congruence.
Qed.

Lemma flow_field_wf_cells D rows cols :
  flow_field_wf D rows cols →
  length D = Z.to_nat (rows * cols) ∧ 2 ≤ rows ∧ 1 ≤ cols
  ∧ ∀ i, 0 ≤ i < rows * cols →
      if decide (on_domain_boundary rows cols i) then zlookup D i = Some None
      else ∃ v, zlookup D i = Some (Some v) ∧ (v = -1 ∨ 0 ≤ v < rows * cols).
Proof.
  intros (Hlen & Hrows & Hcols & Hall). repeat split; try done.
  intros i Hi. rewrite Forall_forall in Hall. specialize (Hall i).
  unfold flow_cell_wf in Hall. rewrite elem_of_seqZ in Hall.
  specialize (Hall ltac:(lia)).
  destruct (zlookup D i) as [[v|]|]; [| |done].
  - destruct Hall as [Hnb Hv]. rewrite decide_False by done. eauto.
  - by rewrite decide_True.
Qed.

Section Labelling.
Variables (D : list (option Z)) (rows cols : Z).
Hypothesis D_wf : flow_field_wf D rows cols.

Lemma labels_no_terminal T i :
  labels_inv D T rows cols → 0 ≤ i < rows * cols →
  no_terminal_node (mjoin (zlookup T i)) = true ↔ zlookup T i = Some None.
Proof.
  intros [_ Hinv] Hi. specialize (Hinv i Hi).
  destruct (decide (on_domain_boundary rows cols i)).
  - rewrite Hinv. by split.
  - destruct Hinv as [_ [->|(p & -> & Hp)]]; [done|]. simpl.
    apply reaches_end in Hp as [_ Hp]. split; [|done].
    intros H%bool_decide_eq_true. lia.
Qed.

Lemma unlabelled_cells_elem T i :
  labels_inv D T rows cols →
  i ∈ unlabelled_cells T ↔ (i < length D)%nat ∧ T !! i = Some None.
Proof.
  intros Hinv. pose proof Hinv as [Hlen _]. destruct (flow_field_wf_cells _ _ _ D_wf) as (HlenD & _).
  unfold unlabelled_cells. rewrite list_elem_of_filter, elem_of_seq, Hlen.
  split.
  - intros [Hno [_ Hi]]. simpl in Hi. split; [done|].
    rewrite <- zlookup_of_nat. rewrite <- zlookup_of_nat in Hno.
    apply (labels_no_terminal T); [done|lia|done].
  - intros [Hi HT]. split; [by rewrite HT|]. simpl. lia.
Qed.

Lemma unlabelled_next T i :
  labels_inv D T rows cols → (i < length D)%nat → T !! i = Some None →
  ∃ n, D !! i = Some (Some n) ∧ 0 ≤ n < rows * cols ∧ next_node D i = Some n.
Proof.
  intros [_ Hinv] Hi HT. destruct (flow_field_wf_cells _ _ _ D_wf) as (HlenD & _ & _ & Hwf).
  assert (0 ≤ Z.of_nat i < rows * cols) as Hi' by lia.
  specialize (Hinv _ Hi'). specialize (Hwf _ Hi').
  rewrite !zlookup_of_nat in Hinv. rewrite !zlookup_of_nat in Hwf.
  destruct (decide (on_domain_boundary rows cols (Z.of_nat i))); [congruence|].
  destruct Hwf as (v & Hv & Hrange). destruct Hinv as [Hpit _].
  destruct Hrange as [->|Hrange]; [specialize (Hpit Hv); congruence|].
  exists v. split; [done|]. split; [done|]. unfold next_node. rewrite Hv. simpl.
  destruct (zlookup_lt D v) as [x ->]; [lia|done].
Qed.

Lemma update_terminal_nodes_spec T :
  labels_inv D T rows cols →
  ∃ n T', update_terminal_nodes T D cols = Some (n, T')
    ∧ labels_inv D T' rows cols
    ∧ (length (unlabelled_cells T') + n = length (unlabelled_cells T))%nat
    ∧ (n = 0%nat → T' = T ∧ labels_closed D T).
Proof.
  intros Hinv. pose proof Hinv as [Hlen HinvT].
  pose proof (flow_field_wf_cells _ _ _ D_wf) as (HlenD & Hrows & Hcols & Hwf).
  unfold update_terminal_nodes. fold (unlabelled_cells T).
  destruct (decide (unlabelled_cells T = [])) as [Hnil|Hnonnil].
  { exists 0%nat, T. split; [done|]. split; [done|]. split; [lia|]. intros _. split; [done|].
    intros i n Hi _. exfalso.
    apply zlookup_Some in Hi as [Hi0 Hi].
    assert (Z.to_nat i ∈ unlabelled_cells T) as Hin.
    { apply unlabelled_cells_elem; [done|]. split; [|done].
      apply lookup_lt_Some in Hi. lia. }
    rewrite Hnil in Hin. by apply elem_of_nil in Hin. }
  destruct (mapM (next_node D) (unlabelled_cells T)) as [nexts|] eqn:Hnexts; cycle 1.
  { exfalso. assert (is_Some (mapM (next_node D) (unlabelled_cells T))) as [? ?]; [|congruence].
    apply mapM_is_Some, Forall_forall. intros i Hi.
    apply unlabelled_cells_elem in Hi as [Hi HT]; [|done].
    destruct (unlabelled_next T i Hinv Hi HT) as (n & _ & _ & Hn). simpl. by rewrite Hn. }
  cbn [mbind option_bind].
  set (nx := λ i : nat, default 0 (next_node D i)).
  set (U := unlabelled_cells T) in *.
  set (AM := filter (λ i, bool_decide (mjoin (zlookup D (nx i)) = Some (-1)) = true) U).
  set (T1 := imap (λ i t, if bool_decide (i ∈ AM) then Some (nx i) else t) T).
  set (UD := filter (λ i, i ∉ AM) U).
  set (EP := filter (λ i, is_end_point (mjoin (zlookup T1 (nx i))) = true) UD).
  set (T2 := imap (λ i t, if bool_decide (i ∈ EP) then mjoin (zlookup T1 (nx i)) else t) T1).
  (* cells *)
  assert (HUelem : ∀ i, i ∈ U ↔ (i < length D)%nat ∧ T !! i = Some None).
  { intros i. by apply unlabelled_cells_elem. }
  assert (Hnx : ∀ i, i ∈ U → ∃ n, D !! i = Some (Some n) ∧ 0 ≤ n < rows * cols ∧ nx i = n).
  { intros i [Hi HT]%HUelem. destruct (unlabelled_next T i Hinv Hi HT) as (n & ? & ? & Hn).
    exists n. unfold nx. by rewrite Hn. }
  assert (HT1 : ∀ i t, T !! i = Some t →
            T1 !! i = Some (if bool_decide (i ∈ AM) then Some (nx i) else t)).
  { intros i t Ht. unfold T1. by rewrite list_lookup_imap, Ht. }
  assert (HT2 : ∀ i t, T !! i = Some t →
            T2 !! i = Some (if bool_decide (i ∈ EP) then mjoin (zlookup T1 (nx i))
                            else if bool_decide (i ∈ AM) then Some (nx i) else t)).
  { intros i t Ht. unfold T2. by rewrite list_lookup_imap, (HT1 i t Ht). }
  assert (HAM : ∀ i, i ∈ AM → i ∈ U ∧ mjoin (zlookup D (nx i)) = Some (-1)).
  { intros i [H%bool_decide_eq_true HiU]%list_elem_of_filter. done. }
  assert (HEP : ∀ i, i ∈ EP → i ∈ U ∧ (i ∉ AM)
                      ∧ (∃ e, zlookup T1 (nx i) = Some (Some e) ∧ 0 ≤ e)).
  { intros i [Hep [Hnam HiU]%list_elem_of_filter]%list_elem_of_filter.
    split; [done|]. split; [done|].
    destruct (zlookup T1 (nx i)) as [[e|]|]; simpl in Hep; try done.
    exists e. split; [done|]. by apply bool_decide_eq_true in Hep. }
  assert (Hlab1 : ∀ i n, i ∈ AM → nx i = n → reaches D (Z.of_nat i) n).
  { intros i n Hi Hn. apply HAM in Hi as [HiU Hmin].
    destruct (Hnx i HiU) as (n' & HDi & Hrange & Hn'). assert (n' = n) as -> by congruence.
    apply reaches_step with n; [by rewrite zlookup_of_nat|lia|].
    apply reaches_pit. rewrite Hn in Hmin.
    destruct (zlookup D n) as [[v|]|]; simpl in Hmin; congruence. }
  assert (HlenT1 : length T1 = length T) by apply length_imap.
  assert (HlenT2 : length T2 = length T) by (unfold T2; by rewrite length_imap).
  exists (length AM + length EP)%nat, T2. split; [done|]. split; [|split].
  - (* the invariant *)
    split; [congruence|]. intros i Hi. specialize (HinvT i Hi).
    assert (∃ t, T !! Z.to_nat i = Some t) as [t Ht].
    { apply lookup_lt_is_Some_2. lia. }
    rewrite !zlookup_nonneg by lia. rewrite zlookup_nonneg in HinvT by lia.
    rewrite (HT2 _ _ Ht).
    assert (Hnotin : t ≠ None → Z.to_nat i ∉ U).
    { intros Hne [_ HiU]%HUelem. congruence. }
    destruct (decide (on_domain_boundary rows cols i)) as [Hbd|Hbd].
    { rewrite Ht in HinvT. injection HinvT as ->.
      rewrite !bool_decide_eq_false_2; [done| |].
      - intros [HiU _]%HAM. by apply Hnotin in HiU.
      - intros [HiU _]%HEP. by apply Hnotin in HiU. }
    destruct HinvT as [Hpit Hlab]. split.
    { intros HD. rewrite <- zlookup_nonneg in HD by lia.
      specialize (Hpit HD). rewrite Ht in Hpit. injection Hpit as ->.
      rewrite !bool_decide_eq_false_2; [done| |].
      - intros [HiU _]%HAM. by apply Hnotin in HiU.
      - intros [HiU _]%HEP. by apply Hnotin in HiU. }
    destruct (decide (Z.to_nat i ∈ EP)) as [Hep|Hep].
    { rewrite bool_decide_eq_true_2 by done. right.
      apply HEP in Hep as (HiU & _ & e & He & He0). rewrite He. simpl. exists e. split; [done|].
      destruct (Hnx _ HiU) as (n & HDi & Hrange & Hn). rewrite Hn in He.
      apply reaches_step with n; [by rewrite zlookup_nonneg by lia|lia|].
      rewrite zlookup_nonneg in He by lia.
      assert (∃ tn, T !! Z.to_nat n = Some tn) as [tn Htn].
      { apply lookup_lt_is_Some_2. lia. }
      rewrite (HT1 _ _ Htn) in He. injection He as He.
      destruct (decide (Z.to_nat n ∈ AM)) as [Ham|Ham].
      - rewrite bool_decide_eq_true_2 in He by done. injection He as He.
        pose proof (Hlab1 _ _ Ham He) as Hr. by rewrite Z2Nat.id in Hr by lia.
      - rewrite bool_decide_eq_false_2 in He by done. subst tn.
        destruct Hinv as [_ Hinv']. specialize (Hinv' n Hrange).
        rewrite zlookup_nonneg in Hinv' by lia.
        destruct (decide (on_domain_boundary rows cols n)) as [Hbn|Hbn].
        + rewrite Htn in Hinv'. injection Hinv' as ->. lia.
        + destruct Hinv' as [_ [Hn'|(p & Hp & Hr)]]; [congruence|].
          rewrite Htn in Hp. by injection Hp as ->. }
    rewrite (bool_decide_eq_false_2 (Z.to_nat i ∈ EP)) by done.
    destruct (decide (Z.to_nat i ∈ AM)) as [Ham|Ham].
    { rewrite bool_decide_eq_true_2 by done. right. eexists. split; [done|].
      pose proof (Hlab1 _ _ Ham eq_refl) as Hr. by rewrite Z2Nat.id in Hr by lia. }
    rewrite bool_decide_eq_false_2 by done. by rewrite <- Ht.
  - (* the count *)
    assert (Hcount1 : (length AM + length UD = length U)%nat).
    { apply filter_split_length. intros i Hi. split.
      - intros Hnam H. apply Hnam. apply list_elem_of_filter. done.
      - intros Hnot [H _]%list_elem_of_filter. done. }
    assert (Hcount2 : (length EP
              + length (filter (λ i, is_end_point (mjoin (zlookup T1 (nx i))) ≠ true) UD)
              = length UD)%nat).
    { apply filter_split_length. intros i Hi. done. }
    assert (HU2 : unlabelled_cells T2
              = filter (λ i, is_end_point (mjoin (zlookup T1 (nx i))) ≠ true) UD).
    { unfold UD, U, unlabelled_cells. rewrite !list_filter_filter, HlenT2.
      apply filter_ext_elem. intros i [_ Hi]%elem_of_seq. simpl in Hi.
      destruct (lookup_lt_is_Some_2 T i Hi) as [t Ht]. rewrite (HT2 _ _ Ht), Ht. simpl.
      assert (HiU : t = None ↔ i ∈ U).
      { rewrite HUelem. rewrite Ht. split; [intros ->; split; [lia|done]|]. by intros [_ [= ->]]. }
      assert (Hno : no_terminal_node t = true ↔ t = None).
      { pose proof (labels_no_terminal T (Z.of_nat i) Hinv ltac:(lia)) as Hnt.
        rewrite zlookup_of_nat, Ht in Hnt. simpl in Hnt. rewrite Hnt.
        split; congruence. }
      rewrite Hno. split.
      - destruct (decide (i ∈ EP)) as [Hep|Hep].
        { rewrite bool_decide_eq_true_2 by done.
          apply HEP in Hep as (_ & _ & e & -> & He). simpl.
          intros H%bool_decide_eq_true. lia. }
        rewrite bool_decide_eq_false_2 by done.
        destruct (decide (i ∈ AM)) as [Ham|Ham].
        { rewrite bool_decide_eq_true_2 by done. simpl. intros H%bool_decide_eq_true.
          apply HAM in Ham as [HiU' _]. destruct (Hnx _ HiU') as (n & _ & ? & Hn). lia. }
        rewrite bool_decide_eq_false_2 by done. intros Ht'%Hno.
        split; [split; [|done]|done]. intros Hisep. apply Hep. apply list_elem_of_filter.
        split; [done|]. apply list_elem_of_filter. split; [done|]. by apply HiU.
      - intros ((Hnep & Hnam) & Ht').
        rewrite bool_decide_eq_false_2.
        2:{ intros [H _]%list_elem_of_filter. done. }
        rewrite bool_decide_eq_false_2 by done. by apply Hno. }
    rewrite HU2. lia.
  - (* nothing inserted *)
    intros Hzero. assert (AM = []) as HAMnil by (apply length_zero_iff_nil; lia).
    assert (EP = []) as HEPnil by (apply length_zero_iff_nil; lia).
    assert (T1 = T) as HT1eq.
    { unfold T1. apply imap_id_cond. intros i _. rewrite HAMnil.
      apply bool_decide_eq_false_2, not_elem_of_nil. }
    assert (T2 = T) as HT2eq.
    { unfold T2. rewrite HT1eq. apply imap_id_cond. intros i _. rewrite HEPnil.
      apply bool_decide_eq_false_2, not_elem_of_nil. }
    split; [done|]. intros i n Hi HDi.
    apply zlookup_Some in Hi as [Hi0 Hi]. apply zlookup_Some in HDi as [_ HDi].
    assert (Z.to_nat i ∈ U) as HiU.
    { apply HUelem. split; [|done]. by apply lookup_lt_Some in HDi. }
    destruct (Hnx _ HiU) as (n' & HDi' & Hrange & Hn). assert (n' = n) as -> by congruence.
    split.
    + intros Hmin. assert (Z.to_nat i ∈ AM) as Hin.
      { apply list_elem_of_filter. split; [|done]. apply bool_decide_eq_true. by rewrite Hn. }
      rewrite HAMnil in Hin. by apply elem_of_nil in Hin.
    + destruct (is_end_point (mjoin (zlookup T n))) eqn:Hep; [|done]. exfalso.
      assert (Z.to_nat i ∈ EP) as Hin.
      { apply list_elem_of_filter. split.
        - by rewrite Hn, HT1eq.
        - apply list_elem_of_filter. split; [|done]. rewrite HAMnil. apply not_elem_of_nil. }
      rewrite HEPnil in Hin. by apply elem_of_nil in Hin.
Qed.
Lemma node_endpoints_loop_spec fuel n T :
  labels_inv D T rows cols →
  (length (unlabelled_cells T) < fuel)%nat →
  (n = 0%nat → labels_closed D T) →
  ∃ Tf, node_endpoints_loop fuel n T D cols = Some Tf
    ∧ labels_inv D Tf rows cols ∧ labels_closed D Tf.
Proof.
  revert n T. induction fuel as [|fuel IH]; intros n T Hinv Hfuel Hclosed; [lia|].
  destruct n as [|n]; [exists T; by auto|]. simpl.
  destruct (update_terminal_nodes_spec T Hinv) as (n' & T' & -> & Hinv' & Hcount & Hzero).
  cbn [mbind option_bind]. destruct n' as [|n'].
  - destruct (Hzero eq_refl) as [-> Hcl]. exists T. by destruct fuel.
  - apply IH; [done|lia|done].
Qed.

Lemma zlookup_range {A} (l : list A) i x :
  zlookup l i = Some x → 0 ≤ i < Z.of_nat (length l).
Proof. intros [H0 H%lookup_lt_Some]%zlookup_Some. lia. Qed.

Lemma flow_not_boundary i v :
  zlookup D i = Some (Some v) → 0 ≤ i < rows * cols ∧ ¬ on_domain_boundary rows cols i.
Proof.
  intros Hi. destruct (flow_field_wf_cells _ _ _ D_wf) as (HlenD & _ & _ & Hwf).
  pose proof (zlookup_range _ _ _ Hi) as Hr.
  assert (0 ≤ i < rows * cols) as Hi' by lia. split; [done|].
  specialize (Hwf i Hi'). destruct (decide (on_domain_boundary rows cols i)); [congruence|done].
Qed.

Lemma closed_reaches T i p :
  labels_inv D T rows cols → labels_closed D T → reaches D i p →
  zlookup T i = Some (Some p).
Proof.
  intros Hinv Hclosed Hr. pose proof Hinv as [_ HinvT].
  induction Hr as [p Hp|i n p Hi Hn Hr IH].
  - destruct (flow_not_boundary p _ Hp) as [Hrange Hnb].
    specialize (HinvT p Hrange). rewrite decide_False in HinvT by done.
    by apply HinvT.
  - destruct (flow_not_boundary i _ Hi) as [Hrange Hnb].
    specialize (HinvT i Hrange). rewrite decide_False in HinvT by done.
    destruct HinvT as [_ [Hnone|(q & Hq & Hrq)]].
    + exfalso. destruct (Hclosed i n Hnone Hi) as [_ Hep].
      rewrite IH in Hep. simpl in Hep. apply bool_decide_eq_false in Hep.
      apply reaches_end in Hr as [_ Hr]. lia.
    + rewrite Hq. do 2 f_equal. apply (reaches_fun D i); [done|].
      by apply reaches_step with n.
Qed.

(** C8: on every flow-direction field the endpoint labeller returns;
    every [PIT] cell is labelled with itself, every cell whose flow path
    reaches a [PIT] cell is labelled with that cell, and every cell of the
    domain boundary holds [None]. *)
Theorem node_endpoints_spec :
  ∃ E, get_node_endpoints D rows cols = Some E
    ∧ length E = length D
    ∧ (∀ p, zlookup D p = Some (Some (-1)) → zlookup E p = Some (Some p))
    ∧ (∀ i p, 0 ≤ i < rows * cols → ¬ on_domain_boundary rows cols i →
         reaches D i p → zlookup E i = Some (Some p))
    ∧ (∀ i, 0 ≤ i < rows * cols → on_domain_boundary rows cols i →
         zlookup E i = Some None).
Proof.
  pose proof (flow_field_wf_cells _ _ _ D_wf) as (HlenD & Hrows & Hcols & Hwf).
  unfold get_node_endpoints. rewrite decide_False by lia.
  set (minima := filter (λ i, D !! i = Some (Some (-1))) (seq 0 (length D))).
  set (T0 := assign_cells
               (imap (λ i t, if bool_decide (i ∈ minima) then Some (Z.of_nat i) else t)
                  (replicate (length D) None))
               cols (get_domain_boundary_coords cols rows) (Some (-2))).
  assert (Hminima : ∀ i, 0 ≤ i → Z.to_nat i ∈ minima ↔ zlookup D i = Some (Some (-1))).
  { intros i Hi. unfold minima. rewrite list_elem_of_filter, elem_of_seq, zlookup_nonneg by done.
    split; [tauto|]. intros HDi. split; [exact HDi|]. apply lookup_lt_Some in HDi. lia. }
  assert (HT0 : ∀ i, 0 ≤ i < rows * cols →
            zlookup T0 i = if decide (on_domain_boundary rows cols i) then Some (Some (-2))
                           else if bool_decide (Z.to_nat i ∈ minima) then Some (Some i)
                                else Some None).
  { intros i Hi. unfold T0. rewrite assign_boundary_lookup; try done.
    - destruct (decide (on_domain_boundary rows cols i)); [done|].
      rewrite zlookup_imap. rewrite zlookup_nonneg by lia.
      rewrite lookup_replicate_2 by lia. simpl. rewrite Z2Nat.id by lia.
      by destruct (bool_decide (Z.to_nat i ∈ minima)).
    - by rewrite length_imap, length_replicate. }
  assert (HlenT0 : length T0 = length D).
  { unfold T0. by rewrite assign_cells_length, length_imap, length_replicate. }
  assert (Hinv0 : labels_inv D T0 rows cols).
  { split; [done|]. intros i Hi. rewrite (HT0 i Hi).
    destruct (decide (on_domain_boundary rows cols i)); [done|].
    destruct (decide (Z.to_nat i ∈ minima)) as [Hin|Hin].
    - rewrite bool_decide_eq_true_2 by done. split; [done|]. right. exists i. split; [done|].
      apply reaches_pit. apply Hminima; [lia|done].
    - rewrite bool_decide_eq_false_2 by done. split; [|by left].
      intros HD. exfalso. apply Hin, Hminima; [lia|done]. }
  destruct (node_endpoints_loop_spec (S (length D)) (length minima) T0 Hinv0)
    as (Tf & -> & Hinvf & Hclosedf).
  { unfold unlabelled_cells. pose proof (length_filter
      (λ i, no_terminal_node (mjoin (T0 !! i)) = true) (seq 0 (length T0))) as Hle.
    rewrite length_seq in Hle. lia. }
  { intros Hnil%length_zero_iff_nil. intros i n Hi HDi. split.
    - intros Hmin. destruct (zlookup D n) as [[v|]|] eqn:E; simpl in Hmin; try done.
      injection Hmin as ->. pose proof (zlookup_range _ _ _ E) as Hn.
      apply Hminima in E; [|lia]. rewrite Hnil in E. by apply elem_of_nil in E.
    - destruct (decide (0 ≤ n < rows * cols)) as [Hn|Hn].
      + rewrite (HT0 n Hn). destruct (decide (on_domain_boundary rows cols n)); [done|].
        rewrite Hnil. by rewrite bool_decide_eq_false_2 by apply not_elem_of_nil.
      + destruct (zlookup T0 n) as [x|] eqn:E; [|done].
        apply zlookup_range in E. lia. }
  cbn [mbind option_bind]. eexists. split; [done|].
  pose proof Hinvf as [Hlenf HinvfT].
  assert (HE : ∀ i, 0 ≤ i < rows * cols →
            zlookup (assign_cells Tf cols (get_domain_boundary_coords cols rows) None) i
            = if decide (on_domain_boundary rows cols i) then Some None else zlookup Tf i).
  { intros i Hi. apply assign_boundary_lookup; try done. congruence. }
  split; [by rewrite assign_cells_length|]. split; [|split].
  - intros p Hp. destruct (flow_not_boundary p _ Hp) as [Hrange Hnb].
    rewrite (HE p Hrange), decide_False by done.
    specialize (HinvfT p Hrange). rewrite decide_False in HinvfT by done. by apply HinvfT.
  - intros i p Hi Hnb Hr. rewrite (HE i Hi), decide_False by done.
    by apply closed_reaches.
  - intros i Hi Hb. by rewrite (HE i Hi), decide_True by done.
Qed.
End Labelling.

Lemma node_endpoints_spec_witness :
  let D := [None; None; None; None; None;
            None; Some 7; Some 8; Some (-1); None;
            None; None; None; None; None] in
  ∃ E, get_node_endpoints D 3 5 = Some E
    ∧ length E = length D
    ∧ (∀ p, zlookup D p = Some (Some (-1)) → zlookup E p = Some (Some p))
    ∧ (∀ i p, 0 ≤ i < 3 * 5 → ¬ on_domain_boundary 3 5 i →
         reaches D i p → zlookup E i = Some (Some p))
    ∧ (∀ i, 0 ≤ i < 3 * 5 → on_domain_boundary 3 5 i → zlookup E i = Some None).
Proof.
  intros D. apply (node_endpoints_spec D 3 5).
  apply (bool_decide_unpack _). vm_compute. exact I.
Defined.

(** ** Spill pairs *)

Lemma min_of_max_spec heights pairs :
  pairs ≠ [] → is_min_of_max heights pairs (min_of (pair_max heights <$> pairs)).
Proof.
  intros Hne. split.
  - assert (pair_max heights <$> pairs ≠ []) as Hne' by (by intros ?%fmap_nil_inv).
    apply min_of_in, list_elem_of_fmap in Hne' as (p & Hp & Hin). eauto.
  - intros p Hp. apply min_of_lb, list_elem_of_fmap. eauto.
Qed.

Lemma possible_spill_pairs_nonempty heights pairs cands :
  possible_spill_pairs heights pairs = Some cands → cands ≠ [].
Proof.
  unfold possible_spill_pairs. destruct (decide (pairs = [])) as [|Hne]; [done|].
  intros [= <-]. destruct (min_of_max_spec heights pairs Hne) as [(p & Hp & HM) _].
  intros Hnil. assert (p ∈ @nil (Z * Z)) as Hin; [|by apply elem_of_nil in Hin].
  rewrite <- Hnil. apply list_elem_of_filter. split; [|done].
  rewrite HM. unfold pair_max. lia.
Qed.

Lemma spill_derivative_not_nan heights cols p :
  is_nan (spill_derivative heights cols p) = false.
Proof.
  unfold spill_derivative.
  pose proof (np_float64_not_nan (height heights p.1 - height heights p.2)) as Hx.
  assert (Hdiv : ∀ x s m e, is_nan x = false →
            is_nan (SFdiv prec emax x (S754_finite s m e)) = false).
  { intros x s m e Hnn. destruct x as [?|?| |? ? ?] eqn:E; try done; by apply SFdiv_not_nan. }
  destruct (is_cardinal cols p.1 p.2).
  - replace (np_float64 10) with (S754_finite false 5629499534213120 (-49))
      by (by vm_compute). by apply Hdiv.
  - replace (float_sqrt (np_float64 200)) with (S754_finite false 7961314590657216 (-49))
      by (by vm_compute). by apply Hdiv.
Qed.

Lemma steepest_spill_pair_spec heights cols cands :
  cands ≠ [] →
  ∃ k sp, steepest_spill_pair heights cols cands = Some sp ∧ cands !! k = Some sp
    ∧ is_first_max (spill_derivative heights cols <$> cands) k.
Proof.
  intros Hne. unfold steepest_spill_pair.
  set (ders := spill_derivative heights cols <$> cands).
  assert (ders ≠ []) as Hne' by (by intros ?%fmap_nil_inv).
  assert (Forall (λ x, is_nan x = false) ders) as Hnn.
  { apply Forall_fmap, Forall_forall. intros p _. apply spill_derivative_not_nan. }
  pose proof (argmax_first_max ders Hne' Hnn) as Hmax.
  pose proof (first_max_lt_length _ _ Hmax) as Hk.
  unfold ders in Hk. rewrite length_fmap in Hk.
  destruct (lookup_lt_is_Some_2 cands _ Hk) as [sp Hsp]. eauto.
Qed.




(** ** Trap / spill-height resolver *)

Global Instance entry_le_trans : Transitive entry_le.
Proof. intros [[a b] c] [[a' b'] c'] [[a'' b''] c'']. unfold entry_le. simpl. lia. Qed.

Global Instance entry_le_total : Total entry_le.
Proof. intros [[a b] c] [[a' b'] c']. unfold entry_le. simpl. lia. Qed.

Global Instance entry_le_antisymm : AntiSymm (=) entry_le.
Proof.
  intros [[a b] c] [[a' b'] c']. unfold entry_le. simpl. intros H1 H2.
  repeat f_equal; lia.
Qed.

Lemma zinsert_fold_length {A} (cells : list Z) (v : A) (m : list A) :
  length (foldl (λ m c, zinsert c v m) m cells) = length m.
Proof.
  revert m. induction cells as [|c cells IH]; intros m; [done|]. simpl.
  rewrite IH. unfold zinsert. destruct (decide (0 ≤ c)); [apply length_insert|done].
Qed.

Lemma zinsert_fold_other {A} (cells : list Z) (v : A) (m : list A) c :
  c ∉ cells → zlookup (foldl (λ m c, zinsert c v m) m cells) c = zlookup m c.
Proof.
  revert m. induction cells as [|c' cells IH]; intros m Hc; [done|]. simpl.
  apply not_elem_of_cons in Hc as [Hne Hc]. rewrite IH by done.
  unfold zinsert, zlookup. destruct (decide (0 ≤ c)); [|done].
  destruct (decide (0 ≤ c')); [|done]. apply list_lookup_insert_ne. lia.
Qed.

Lemma zinsert_fold_stable {A} (cells : list Z) (v : A) (m : list A) c :
  zlookup m c = Some v → zlookup (foldl (λ m c, zinsert c v m) m cells) c = Some v.
Proof.
  revert m. induction cells as [|c' cells IH]; intros m Hc; [done|]. simpl.
  apply IH. unfold zinsert. destruct (decide (0 ≤ c')) as [Hc'|]; [|done].
  apply zlookup_Some in Hc as [Hc0 Hc]. rewrite zlookup_nonneg by done.
  destruct (decide (c' = c)) as [->|Hne].
  - apply list_lookup_insert_eq. by apply lookup_lt_Some in Hc.
  - rewrite list_lookup_insert_ne by lia. done.
Qed.

Lemma zinsert_fold_in {A} (cells : list Z) (v : A) (m : list A) c :
  c ∈ cells → 0 ≤ c < Z.of_nat (length m) →
  zlookup (foldl (λ m c, zinsert c v m) m cells) c = Some v.
Proof.
  revert m. induction cells as [|c' cells IH]; intros m Hin Hc.
  - by apply elem_of_nil in Hin.
  - simpl. apply elem_of_cons in Hin as [->|Hin].
    + apply zinsert_fold_stable. unfold zinsert. rewrite decide_True by lia.
      rewrite zlookup_nonneg by lia. apply list_lookup_insert_eq. lia.
    + apply IH; [done|]. unfold zinsert.
      destruct (decide (0 ≤ c')); [by rewrite length_insert|done].
Qed.

Lemma map_nodes_to_watersheds_snoc watersheds ws rows cols :
  map_nodes_to_watersheds (watersheds ++ [ws]) rows cols
  = foldl (λ m c, zinsert c (Z.of_nat (length watersheds)) m)
      (map_nodes_to_watersheds watersheds rows cols) ws.
Proof.
  unfold map_nodes_to_watersheds. rewrite imap_app, foldl_app. simpl.
  by rewrite Nat.add_0_r.
Qed.

Lemma map_nodes_to_watersheds_length watersheds rows cols :
  length (map_nodes_to_watersheds watersheds rows cols) = Z.to_nat (rows * cols).
Proof.
  induction watersheds as [|ws watersheds IH] using rev_ind.
  - apply length_replicate.
  - by rewrite map_nodes_to_watersheds_snoc, zinsert_fold_length.
Qed.

(** The mapping gives every cell of a watershed the index of the
    watershed. *)
Lemma map_nodes_to_watersheds_lookup watersheds rows cols i ws c :
  watersheds_wf watersheds rows cols →
  watersheds !! i = Some ws → c ∈ ws →
  watershed_of (map_nodes_to_watersheds watersheds rows cols) c = Z.of_nat i.
Proof.
  revert i ws c. induction watersheds as [|ws' watersheds IH] using rev_ind;
    intros i ws c [Hrange Hdisj] Hi Hc; [done|].
  rewrite map_nodes_to_watersheds_snoc. unfold watershed_of.
  rewrite Forall_app, Forall_singleton in Hrange. destruct Hrange as [Hrange Hrange'].
  apply lookup_app_Some in Hi as [Hi|[Hlen Hi]].
  - rewrite zinsert_fold_other.
    + apply (IH i ws c); [|done|done]. split; [done|]. intros i' j' wi wj c' Hi' Hj'.
      apply Hdisj; by apply lookup_app_l_Some.
    + intros Hc'. pose proof (lookup_lt_Some _ _ _ Hi) as Hlt.
      assert (i = length watersheds) as ->; [|lia].
      apply (Hdisj _ _ ws ws' c); [by apply lookup_app_l_Some| |done|done].
      by rewrite lookup_app_r, Nat.sub_diag.
  - destruct (i - length watersheds)%nat as [|k] eqn:Hk; [|done]. injection Hi as <-.
    assert (i = length watersheds) as -> by lia.
    rewrite zinsert_fold_in; [done|done|].
    rewrite map_nodes_to_watersheds_length. rewrite Forall_forall in Hrange'.
    specialize (Hrange' c Hc). lia.
Qed.

Lemma StronglySorted_lookup_2 {A} (R : relation A) (l : list A) :
  (∀ i j x y, (i < j)%nat → l !! i = Some x → l !! j = Some y → R x y) →
  StronglySorted R l.
Proof.
  induction l as [|a l IH]; intros Hall; constructor.
  - apply IH. intros i j x y Hij Hx Hy. apply (Hall (S i) (S j)); [lia|done|done].
  - apply Forall_forall. intros y [j Hy]%list_elem_of_lookup.
    apply (Hall 0%nat (S j)); [lia|done|done].
Qed.

Lemma spill_heights_aligned watersheds heights rows cols (pairs aligned : list (Z * Z)) :
  watersheds_wf watersheds rows cols →
  pairs ≡ₚ aligned →
  Forall2 (λ ws p, p.1 ∈ ws) watersheds aligned →
  pairs ≠ [] →
  get_spill_heights watersheds heights rows cols (Some pairs)
  = Some ((λ p, Z.max (height heights p.1) (height heights p.2)) <$> aligned).
Proof.
  intros Hwf Hperm Hal Hne. unfold get_spill_heights.
  destruct pairs as [|p0 pairs0] eqn:Hpairs; [done|]. rewrite <- Hpairs in *. clear Hpairs.
  set (mapping := map_nodes_to_watersheds watersheds rows cols).
  assert (Hsorted : merge_sort entry_le (ws_pair_height mapping heights <$> pairs)
                    = ws_pair_height mapping heights <$> aligned).
  { apply (StronglySorted_unique entry_le).
    - by apply StronglySorted_merge_sort; apply _.
    - apply StronglySorted_lookup_2. intros i j x y Hij Hx Hy.
      rewrite list_lookup_fmap in Hx, Hy.
      destruct (aligned !! i) as [pi|] eqn:Hpi; [|done].
      destruct (aligned !! j) as [pj|] eqn:Hpj; [|done].
      injection Hx as <-. injection Hy as <-.
      destruct (Forall2_lookup_r _ _ _ _ _ Hal Hpi) as (wi & Hwi & Hini).
      destruct (Forall2_lookup_r _ _ _ _ _ Hal Hpj) as (wj & Hwj & Hinj).
      left. unfold ws_pair_height. simpl. unfold mapping.
      rewrite (map_nodes_to_watersheds_lookup _ _ _ i wi) by done.
      rewrite (map_nodes_to_watersheds_lookup _ _ _ j wj) by done. lia.
    - rewrite merge_sort_Permutation. by apply fmap_Permutation. }
  rewrite Hsorted. f_equal. rewrite <- list_fmap_compose. by apply list_fmap_ext.
Qed.

(** C3: given the watersheds and one spill pair per watershed, in any
    order, the resolver returns for every watershed the spill height
    [max(h[from], h[to])] of its pair and, as its trap, the cells of the
    watershed that are not higher than the spill height; the from-cell is in
    the trap, which is therefore not empty. *)
Theorem trap_resolver_spec watersheds heights rows cols (pairs aligned : list (Z * Z)) :
  watersheds_wf watersheds rows cols →
  pairs ≡ₚ aligned →
  Forall2 (λ ws p, p.1 ∈ ws) watersheds aligned →
  let spill_heights := get_spill_heights watersheds heights rows cols (Some pairs) in
  ∃ traps sizes,
    get_all_traps watersheds heights spill_heights = Some (traps, sizes)
    ∧ length traps = length watersheds
    ∧ ∀ i ws p, watersheds !! i = Some ws → aligned !! i = Some p →
        let spill_height := Z.max (height heights p.1) (height heights p.2) in
        spill_heights ≫= (λ l, l !! i) = Some spill_height
        ∧ ∃ trap, traps !! i = Some trap
            ∧ trap = filter (λ c, height heights c ≤ spill_height) ws
            ∧ p.1 ∈ trap ∧ trap ≠ []
            ∧ sizes !! i = Some (Z.of_nat (length trap)).
Proof.
  intros Hwf Hperm Hal spill_heights.
  destruct (decide (pairs = [])) as [->|Hne].
  { apply Permutation_nil in Hperm. subst aligned. apply Forall2_nil_inv_r in Hal.
    subst watersheds.
    exists [], []. split; [done|]. split; [done|]. intros i ws p Hi. done. }
  pose proof (spill_heights_aligned watersheds heights rows cols pairs aligned
                Hwf Hperm Hal Hne) as Hsh.
  fold spill_heights in Hsh. rewrite Hsh. clear spill_heights Hsh.
  set (spill := λ p : Z * Z, Z.max (height heights p.1) (height heights p.2)).
  set (traps := zip_with (λ ws p, filter (λ c, height heights c ≤ spill p) ws)
                  watersheds aligned).
  pose proof (Forall2_length _ _ _ Hal) as Hlen.
  assert (Hltraps : length traps = length watersheds).
  { unfold traps. rewrite length_zip_with. lia. }
  exists traps, ((λ t, Z.of_nat (length t)) <$> traps).
  assert (Htrap : ∀ i ws p, watersheds !! i = Some ws → aligned !! i = Some p →
            traps !! i = Some (filter (λ c, height heights c ≤ spill p) ws)).
  { intros i ws p Hi Hp. unfold traps. by rewrite lookup_zip_with, Hi, Hp. }
  split; [|split; [done|]].
  - unfold get_all_traps.
    assert (mapM (λ iw : nat * list Z,
                    s ← Some (spill <$> aligned) ≫= (λ l, l !! iw.1);
                    Some (filter (λ c, height heights c ≤ s) iw.2))
              (imap pair watersheds) = Some traps) as ->; [|done].
    apply mapM_Some, Forall2_same_length_lookup_2.
    + by rewrite length_imap.
    + intros i [i' ws] t Hi Ht. rewrite list_lookup_imap in Hi.
      destruct (watersheds !! i) as [ws'|] eqn:Hws; [|done]. injection Hi as <- <-.
      destruct (Forall2_lookup_l _ _ _ _ _ Hal Hws) as (p & Hp & _).
      rewrite (Htrap i ws' p Hws Hp) in Ht. injection Ht as <-.
      cbn [mbind option_bind fst snd]. by rewrite list_lookup_fmap, Hp.
  - intros i ws p Hi Hp sh. cbn [mbind option_bind].
    rewrite list_lookup_fmap, Hp. split; [done|].
    eexists. split; [by apply Htrap|]. split; [done|].
    assert (p.1 ∈ filter (λ c, height heights c ≤ spill p) ws) as Hin.
    { apply list_elem_of_filter. split; [unfold spill; lia|].
      exact (Forall2_lookup_lr _ _ _ _ _ _ Hal Hi Hp). }
    split; [done|]. split.
    + intros Hnil. fold (spill p) in Hnil. rewrite Hnil in Hin. by apply elem_of_nil in Hin.
    + by rewrite list_lookup_fmap, (Htrap i ws p Hi Hp).
Qed.

Lemma trap_resolver_spec_witness :
  let heights := [9; 9; 9; 9; 9;  9; 1; 5; 3; 9;  9; 9; 9; 9; 9] in
  let watersheds := [[6]; [8; 7]] in
  let pairs := [(8, 9); (6, 7)] in
  let aligned := [(6, 7); (8, 9)] in
  let spill_heights := get_spill_heights watersheds heights 3 5 (Some pairs) in
  ∃ traps sizes,
    get_all_traps watersheds heights spill_heights = Some (traps, sizes)
    ∧ length traps = length watersheds
    ∧ ∀ i ws p, watersheds !! i = Some ws → aligned !! i = Some p →
        let spill_height := Z.max (height heights p.1) (height heights p.2) in
        spill_heights ≫= (λ l, l !! i) = Some spill_height
        ∧ ∃ trap, traps !! i = Some trap
            ∧ trap = filter (λ c, height heights c ≤ spill_height) ws
            ∧ p.1 ∈ trap ∧ trap ≠ []
            ∧ sizes !! i = Some (Z.of_nat (length trap)).
Proof.
  intros heights watersheds pairs aligned.
  apply (trap_resolver_spec watersheds heights 3 5 pairs aligned).
  - split; [repeat constructor; lia|].
    intros [|[|i]] [|[|j]] wi wj c Hi Hj Hci Hcj; simplify_eq/=; try done;
      set_solver.
  - apply perm_swap.
  - repeat constructor.
Defined.

(** ** Landscape flattener *)

Lemma flow_target_lower heights step_size rows cols d4 flow i :
  0 < step_size →
  get_flow_direction_indices heights step_size rows cols d4 = Some flow →
  let rc := map_1d_to_2d i cols in
  interior rows cols rc.1 rc.2 = true →
  zlookup flow i = Some (Some (-1))
  ∨ ∃ j, zlookup flow i = Some (Some j) ∧ j ∈ get_neighbor_indices i cols d4
         ∧ height heights j < height heights i.
Proof.
  intros Hstep Hflow rc Hint.
  destruct (flow_direction_indices_cell heights step_size rows cols d4 flow i Hflow Hint)
    as (slopes & k & nb & s & Hslopes & _ & _ & Hnb & Hs & Hpit & Hout & Hin).
  destruct (float_pos s) eqn:Hpos; [|left; by apply Hpit].
  destruct (decide (on_domain_boundary rows cols nb)) as [Hb|Hb]; [left; by apply Hout|].
  right. exists nb. split; [by apply Hin|]. split; [by eapply list_elem_of_lookup_2|].
  apply mapM_Some in Hslopes.
  destruct (Forall2_lookup_l _ _ _ _ _ Hslopes Hnb) as (s' & Hs' & Hslope).
  assert (s' = s) as -> by congruence.
  by eapply slope_to_pos.
Qed.

(** C2: on the raster that [make_depressionless] returns, the flow of
    every interior cell is the [PIT] sentinel or goes to a cell that is not
    higher. *)
Theorem depressionless_flow_non_increasing heights ny nx step_size d4 heights' flow i :
  0 < step_size →
  make_depressionless heights ny nx step_size d4 = Some heights' →
  get_flow_direction_indices heights' step_size ny nx d4 = Some flow →
  let rc := map_1d_to_2d i nx in
  interior ny nx rc.1 rc.2 = true →
  zlookup flow i = Some (Some (-1))
  ∨ ∃ j, zlookup flow i = Some (Some j) ∧ height heights' j ≤ height heights' i.
Proof.
  intros Hstep _ Hflow rc Hint.
  destruct (flow_target_lower heights' step_size ny nx d4 flow i Hstep Hflow Hint)
    as [Hpit|(j & Hj & _ & Hlt)]; [by left|].
  right. exists j. split; [done|lia].
Qed.

Lemma depressionless_flow_non_increasing_witness :
  let heights' := [9; 9; 9; 9; 9;  9; 4; 4; 9; 9;  9; 9; 9; 4; 3;  9; 9; 9; 9; 9] in
  let flow := [None; None; None; None; None;
               None; Some (-1); Some (-1); Some 13; None;
               None; Some 6; Some 13; Some (-1); None;
               None; None; None; None; None] in
  zlookup flow 8 = Some (Some (-1))
  ∨ ∃ j, zlookup flow 8 = Some (Some j) ∧ height heights' j ≤ height heights' 8.
Proof.
  intros heights' flow.
  apply (depressionless_flow_non_increasing
           [9; 9; 9; 9; 9;  9; 1; 1; 9; 9;  9; 9; 9; 4; 3;  9; 9; 9; 9; 9]
           4 5 10 false heights' flow 8);
    [lia | vm_compute; reflexivity | vm_compute; reflexivity | reflexivity].
Defined.

(** C7 at a raster of 5 rows and 6 columns, with 4-connectivity: the raster
    that [make_depressionless] returns still has a pit at cell 14 (height
    2, all eight neighbours higher), which a second application raises
    to 5. *)
Theorem make_depressionless_twice_d4 :
  let heights := [9; 9; 0; 0; 2; 9;
                  9; 9; 5; 5; 1; 9;
                  9; 9; 1; 9; 9; 9;
                  9; 9; 9; 1; 9; 9;
                  9; 9; 9; 9; 9; 9] in
  let once := [9; 9; 0; 0; 2; 9;
               9; 9; 5; 5; 2; 9;
               9; 9; 2; 9; 9; 9;
               9; 9; 9; 9; 9; 9;
               9; 9; 9; 9; 9; 9] in
  let twice := [9; 9; 0; 0; 2; 9;
                9; 9; 5; 5; 2; 9;
                9; 9; 5; 9; 9; 9;
                9; 9; 9; 9; 9; 9;
                9; 9; 9; 9; 9; 9] in
  make_depressionless heights 5 6 10 true = Some once
  ∧ make_depressionless once 5 6 10 true = Some twice
  ∧ once ≠ twice
  ∧ strictly_below_neighbors once 6 14.
Proof.
  intros heights once twice. split; [by vm_compute|]. split; [by vm_compute|].
  split; [discriminate|]. unfold strictly_below_neighbors. repeat constructor.
Qed.

(** ** Accumulation graph *)

Lemma count_NoDup {A} `{EqDecision A} (l : list A) x :
  NoDup l →
  length (filter (λ y, y = x) l) = if decide (x ∈ l) then 1%nat else 0%nat.
Proof.
  induction 1 as [|y l Hy Hnd IH]; [done|]. rewrite filter_cons.
  destruct (decide (y = x)) as [->|Hne].
  - rewrite decide_True by left. simpl. rewrite IH. by rewrite decide_False.
  - rewrite IH. destruct (decide (x ∈ l)) as [Hin|Hin].
    + rewrite decide_True; [done|by right].
    + rewrite decide_False; [done|]. intros [?|?]%elem_of_cons; congruence.
Qed.

Lemma count_not_in {A} `{EqDecision A} (l : list A) x :
  x ∉ l → filter (λ y, y = x) l = [].
Proof.
  intros Hx. induction l as [|y l IH]; [done|].
  apply not_elem_of_cons in Hx as [Hne Hx]. rewrite filter_cons.
  rewrite decide_False by congruence. by apply IH.
Qed.

Lemma csr_matrix_Some data row_ind col_ind r c M :
  csr_matrix data row_ind col_ind r c = Some M →
  shape_r M = r ∧ shape_c M = c ∧ length row_ind = length col_ind
  ∧ ∀ i j, entry M i j
           = data * Z.of_nat (length (filter (λ rc, rc = (i, j)) (zip row_ind col_ind))).
Proof.
  unfold csr_matrix. destruct (decide _) as [(Hlen & _)|]; [|done].
  intros [= <-]. done.
Qed.

Lemma csr_row_zero data row_ind col_ind r c M i j :
  csr_matrix data row_ind col_ind r c = Some M → i ∉ row_ind → entry M i j = 0.
Proof.
  intros (_ & _ & _ & ->)%csr_matrix_Some Hi. rewrite count_not_in; [simpl; lia|].
  intros Hin%elem_of_zip_l. done.
Qed.

Lemma csr_entry_NoDup data row_ind col_ind r c M i j :
  csr_matrix data row_ind col_ind r c = Some M → NoDup (zip row_ind col_ind) →
  entry M i j = if decide ((i, j) ∈ zip row_ind col_ind) then data else 0.
Proof.
  intros (_ & _ & _ & ->)%csr_matrix_Some Hnd. rewrite count_NoDup by done.
  destruct (decide _); simpl; lia.
Qed.

Lemma csr_matrix_range data row_ind col_ind r c M :
  csr_matrix data row_ind col_ind r c = Some M →
  Forall (λ i, 0 ≤ i < r) row_ind ∧ Forall (λ j, 0 ≤ j < c) col_ind.
Proof. unfold csr_matrix. destruct (decide _) as [(_ & Hr & Hc)|]; done. Qed.

Lemma elem_of_nonzero M sel u c :
  (u, c) ∈ nonzero_in_columns M sel ↔ 0 ≤ u < shape_r M ∧ c ∈ sel ∧ entry M u c ≠ 0.
Proof.
  unfold nonzero_in_columns. rewrite list_elem_of_bind. split.
  - intros (r & Hin & Hr). apply list_elem_of_fmap in Hin as (c' & [= -> ->] & Hc).
    apply list_elem_of_filter in Hc as [Hnz Hc]. apply elem_of_seqZ in Hr. split; [lia|done].
  - intros (Hu & Hc & Hnz). exists u. split.
    + apply list_elem_of_fmap. exists c. split; [done|]. by apply list_elem_of_filter.
    + apply elem_of_seqZ. lia.
Qed.

Lemma NoDup_nonzero M sel : NoDup sel → NoDup (nonzero_in_columns M sel).
Proof.
  intros Hnd. unfold nonzero_in_columns. apply NoDup_bind.
  - intros r1 r2 [u c] _ _ Hin1 Hin2.
    apply list_elem_of_fmap in Hin1 as (c1 & [= -> ->] & _).
    apply list_elem_of_fmap in Hin2 as (c2 & [= -> ->] & _). done.
  - intros r _. apply NoDup_fmap_2; [|by apply NoDup_filter].
    intros c1 c2 [= ->]. done.
  - apply NoDup_seqZ.
Qed.

Lemma nonzero_row_zero M sel u :
  (∀ c, entry M u c = 0) → u ∉ (nonzero_in_columns M sel).*1.
Proof.
  intros Hzero Hin. apply list_elem_of_fmap in Hin as ([u' c] & -> & Hin).
  apply elem_of_nonzero in Hin as (_ & _ & Hnz). simpl in Hnz. by apply Hnz.
Qed.

Lemma np_arange_1 start stop : np_arange start stop 1 = seqZ start (stop - start).
Proof.
  unfold np_arange. replace ((stop - start + 1 - 1) `div` 1) with (stop - start)
    by (rewrite Z.div_1_r; lia).
  apply list_eq. intros i. rewrite list_lookup_fmap.
  destruct (decide (Z.of_nat i < stop - start)).
  - rewrite !lookup_seqZ_lt by lia. simpl. f_equal. lia.
  - by rewrite !lookup_seqZ_ge by lia.
Qed.

Lemma np_arange_rows start cols rows :
  1 ≤ cols → 2 ≤ rows →
  np_arange start (start + cols * (rows - 2)) cols
  = (λ k, start + k * cols) <$> seqZ 0 (rows - 2).
Proof.
  intros Hc Hr. unfold np_arange. do 2 f_equal.
  symmetry. apply (Z.div_unique _ _ _ (cols - 1)); lia.
Qed.

Lemma domain_boundary_indices_perm cols rows :
  1 ≤ cols → 2 ≤ rows →
  get_domain_boundary_indices cols rows
  ≡ₚ seqZ 0 cols ++ seqZ (cols * rows - cols) cols
     ++ ((λ k, cols + k * cols) <$> seqZ 0 (rows - 2))
     ++ ((λ k, 2 * cols - 1 + k * cols) <$> seqZ 0 (rows - 2)).
Proof.
  intros Hc Hr. unfold get_domain_boundary_indices. rewrite merge_sort_Permutation.
  assert (np_arange cols (cols * rows - cols) cols
          = (λ k, cols + k * cols) <$> seqZ 0 (rows - 2)) as ->.
  { rewrite <- np_arange_rows by done. f_equal. lia. }
  assert (np_arange (2 * cols - 1) (cols * rows - 1) cols
          = (λ k, 2 * cols - 1 + k * cols) <$> seqZ 0 (rows - 2)) as ->.
  { rewrite <- np_arange_rows by done. f_equal. lia. }
  rewrite !np_arange_1.
  replace (cols - 0) with cols by lia.
  replace (cols * rows - (cols * rows - cols)) with cols by lia. done.
Qed.

Lemma elem_of_domain_boundary_indices cols rows c :
  2 ≤ cols → 2 ≤ rows →
  c ∈ get_domain_boundary_indices cols rows
  ↔ 0 ≤ c < rows * cols ∧ on_domain_boundary rows cols c.
Proof.
  intros Hc Hr. rewrite domain_boundary_indices_perm by lia.
  rewrite !elem_of_app, !elem_of_seqZ.
  assert (Hleft : c ∈ (λ k, cols + k * cols) <$> seqZ 0 (rows - 2)
            ↔ ∃ k, c = cols + k * cols ∧ 0 ≤ k < rows - 2).
  { rewrite list_elem_of_fmap. split; intros (k & -> & Hk); exists k; split; try done.
    - apply elem_of_seqZ in Hk. lia.
    - apply elem_of_seqZ. lia. }
  assert (Hright : c ∈ (λ k, 2 * cols - 1 + k * cols) <$> seqZ 0 (rows - 2)
            ↔ ∃ k, c = 2 * cols - 1 + k * cols ∧ 0 ≤ k < rows - 2).
  { rewrite list_elem_of_fmap. split; intros (k & -> & Hk); exists k; split; try done.
    - apply elem_of_seqZ in Hk. lia.
    - apply elem_of_seqZ. lia. }
  rewrite Hleft, Hright. clear Hleft Hright.
  unfold on_domain_boundary. simpl.
  assert (cols ≠ 0) as Hc0 by lia.
  pose proof (Z.div_mod c cols Hc0) as Hdm.
  pose proof (Z.mod_pos_bound c cols ltac:(lia)) as Hmod.
  split.
  - intros [Htop|[Hbot|[(k & -> & Hk)|(k & -> & Hk)]]].
    + split; [nia|]. left. apply Z.div_small. lia.
    + split; [nia|]. right; left.
      symmetry. apply (Z.div_unique _ _ _ (c - cols * (rows - 1))); lia.
    + split; [nia|]. right; right; left.
      replace (cols + k * cols) with ((k + 1) * cols) by lia. apply Z.mod_mul. lia.
    + split; [nia|]. right; right; right.
      symmetry. apply (Z.mod_unique _ _ (k + 1)); lia.
  - intros [Hrange Hb].
    assert (0 ≤ c `div` cols) as Hd0 by (apply Z.div_pos; lia).
    assert (c `div` cols < rows) as Hd1 by (apply Z.div_lt_upper_bound; lia).
    destruct (decide (c `div` cols = 0)) as [Hz|Hz]; [left; nia|].
    destruct (decide (c `div` cols = rows - 1)) as [Hl|Hl]; [right; left; nia|].
    destruct Hb as [Hr0|[Hr1|[Hc0'|Hc1]]]; [done|done| |].
    + right; right; left. exists (c `div` cols - 1). lia.
    + right; right; right. exists (c `div` cols - 1). lia.
Qed.

Lemma NoDup_domain_boundary_indices cols rows :
  2 ≤ cols → 2 ≤ rows → NoDup (get_domain_boundary_indices cols rows).
Proof.
  intros Hc Hr. rewrite domain_boundary_indices_perm by lia.
  assert (Hleft : ∀ x, x ∈ (λ k, cols + k * cols) <$> seqZ 0 (rows - 2) →
            ∃ k, x = cols + k * cols ∧ 0 ≤ k * cols ≤ (rows - 3) * cols).
  { intros x (k & -> & Hk%elem_of_seqZ)%list_elem_of_fmap. exists k. split; [done|nia]. }
  assert (Hright : ∀ x, x ∈ (λ k, 2 * cols - 1 + k * cols) <$> seqZ 0 (rows - 2) →
            ∃ k, x = 2 * cols - 1 + k * cols ∧ 0 ≤ k * cols ≤ (rows - 3) * cols).
  { intros x (k & -> & Hk%elem_of_seqZ)%list_elem_of_fmap. exists k. split; [done|nia]. }
  assert (cols * rows = (rows - 3) * cols + 3 * cols) as Hcr by lia.
  apply NoDup_app. split; [apply NoDup_seqZ|]. split.
  { intros x Hx%elem_of_seqZ Hin. rewrite !elem_of_app in Hin.
    destruct Hin as [Hb%elem_of_seqZ|[(k & -> & Hk)%Hleft|(k & -> & Hk)%Hright]].
    - assert (0 ≤ (rows - 2) * cols) by nia. lia.
    - lia.
    - lia. }
  apply NoDup_app. split; [apply NoDup_seqZ|]. split.
  { intros x Hx%elem_of_seqZ Hin. rewrite !elem_of_app in Hin.
    destruct Hin as [(k & -> & Hk)%Hleft|(k & -> & Hk)%Hright]; lia. }
  apply NoDup_app. split.
  { apply NoDup_fmap_2; [|apply NoDup_seqZ]. intros k1 k2 Heq. nia. }
  split.
  { intros x (k & -> & Hk)%Hleft Hin. apply list_elem_of_fmap in Hin as (k' & Heq & Hk').
    assert ((k - k' - 1) * cols = -1) as Hprod by lia.
    assert (k - k' - 1 = 0 ∨ k - k' - 1 ≤ -1 ∨ 1 ≤ k - k' - 1) as [H0|[H0|H0]] by lia; nia. }
  apply NoDup_fmap_2; [|apply NoDup_seqZ]. intros k1 k2 Heq. nia.
Qed.

(** C4: no accumulation graph is built. [reroute_trap_connections] asks
    [get_traps_boundaries] for the boundaries of the traps, and the first
    thing that function does is to call [util.get_neighbor_indices] without
    the required parameter [d4]: whatever the connectivity matrix, the
    traps and the spill pairs are, the call fails, and with it
    [reroute_trap_connections] and the graph that
    [save_flow_accumulation.py] builds with it. *)
Theorem accumulation_graph_never_built flow conn_mat rows cols traps steepest :
  get_traps_boundaries traps cols rows = None
  ∧ reroute_trap_connections conn_mat rows cols traps steepest = None
  ∧ accumulation_graph flow rows cols traps steepest = None.
Proof.
  assert (Hreroute : ∀ M, reroute_trap_connections M rows cols traps steepest = None).
  { intros M. unfold reroute_trap_connections. by destruct (csr_matrix 1 _ _ _ _). }
  split; [done|]. split; [done|]. unfold accumulation_graph.
  destruct (make_sparse_node_conn_matrix _ _ _) as [M|]; cbn; [apply Hreroute|done].
Qed.

(** * Part III: further properties of the code *)

(** ** Grid kernel *)

(** X1: [map_1d_to_2d] and [map_2d_to_1d] are inverse to each other on a
    grid of [cols] columns: an index is recovered from its row and column,
    and a (row, column) pair with the column inside the grid from its
    index. *)
Theorem map_1d_2d_round_trip cols i r c :
  0 < cols →
  map_2d_to_1d (map_1d_to_2d i cols) cols = i
  ∧ (0 ≤ c < cols → map_1d_to_2d (map_2d_to_1d (r, c) cols) cols = (r, c)).
Proof.
  intros Hcols. split.
  - unfold map_2d_to_1d, map_1d_to_2d. cbn [fst snd].
    pose proof (Z.div_mod i cols). lia.
  - intros Hc. unfold map_2d_to_1d, map_1d_to_2d. cbn [fst snd]. f_equal.
    + rewrite Z.div_add by lia. rewrite Z.div_small by lia. lia.
    + rewrite Z.mod_add by lia. by apply Z.mod_small.
Qed.

Lemma map_1d_2d_round_trip_witness :
  map_2d_to_1d (map_1d_to_2d 17 5) 5 = 17
  ∧ (0 ≤ 2 < 5 → map_1d_to_2d (map_2d_to_1d (3, 2) 5) 5 = (3, 2)).
Proof. apply (map_1d_2d_round_trip 5 17 3 2). lia. Defined.

(** X2: the interior index of a cell is recovered from its exterior
    coordinates, and exterior coordinates whose column is one of the [cols]
    interior columns are recovered from the interior index. *)
Theorem interior_exterior_round_trip cols (node_index : list Z) (coords : list (Z * Z)) :
  0 < cols →
  map_2d_exterior_to_1d_interior (map_1d_interior_to_2d_exterior node_index cols) cols
  = node_index
  ∧ (Forall (λ rc, 1 ≤ rc.2 ≤ cols) coords →
     map_1d_interior_to_2d_exterior (map_2d_exterior_to_1d_interior coords cols) cols
     = coords).
Proof.
  intros Hcols. unfold map_2d_exterior_to_1d_interior, map_1d_interior_to_2d_exterior. split.
  - rewrite <- list_fmap_compose. rewrite <- (list_fmap_id node_index) at 2.
    apply list_fmap_ext. intros _ i _. cbn. pose proof (Z.div_mod i cols). lia.
  - intros Hin. rewrite <- list_fmap_compose. rewrite <- (list_fmap_id coords) at 2.
    apply Forall_fmap_ext_1. eapply Forall_impl; [exact Hin|].
    intros [r c] Hc. cbn in *.
    replace (c - 1 + (r - 1) * cols) with ((c - 1) + (r - 1) * cols) by lia.
    rewrite Z.div_add, Z.mod_add by lia.
    rewrite Z.div_small, Z.mod_small by lia. f_equal; lia.
Qed.

Lemma interior_exterior_round_trip_witness :
  map_2d_exterior_to_1d_interior (map_1d_interior_to_2d_exterior [0; 4; 7] 3) 3 = [0; 4; 7]
  ∧ (Forall (λ rc : Z * Z, 1 ≤ rc.2 ≤ 3) [(1, 1); (2, 3)] →
     map_1d_interior_to_2d_exterior (map_2d_exterior_to_1d_interior [(1, 1); (2, 3)] 3) 3
     = [(1, 1); (2, 3)]).
Proof. apply (interior_exterior_round_trip 3 [0; 4; 7] [(1, 1); (2, 3)]). lia. Defined.

(** X3: being a neighbour is symmetric, for the four and for the eight
    neighbours: [j] is listed among the neighbours of [i] exactly when [i] is
    listed among those of [j]. *)
Theorem neighbor_indices_sym i j cols d4 :
  j ∈ get_neighbor_indices i cols d4 ↔ i ∈ get_neighbor_indices j cols d4.
Proof.
  unfold get_neighbor_indices. destruct d4; rewrite !elem_of_cons, !elem_of_nil; lia.
Qed.

(** X4: on a grid of at least 3 columns [map_two_indices_to_flow_direction]
    inverts the translation table of [get_flow_direction_indices]: from a
    cell to the cell that a D8 direction code leads to, it returns that code
    alone. *)
Theorem map_two_indices_inverts_translation cols ix_one code t :
  3 ≤ cols →
  translation_of code (direction_values false) (translations cols false) = Some t →
  map_two_indices_to_flow_direction ix_one (ix_one + t) cols = [code].
Proof.
  intros Hcols Ht. unfold map_two_indices_to_flow_direction, get_neighbor_indices.
  cbn [direction_values translations translation_of] in Ht.
  repeat (destruct (decide _) as [->|_] in Ht;
          [injection Ht as <-; cbn [zip zip_with]; rewrite !filter_cons, filter_nil; cbn [snd];
           repeat (destruct (decide _); [try lia|]); try lia; reflexivity|]).
  done.
Qed.

Lemma map_two_indices_inverts_translation_witness :
  map_two_indices_to_flow_direction 12 (12 + 6) 5 = [4].
Proof. apply (map_two_indices_inverts_translation 5 12 4 6); [lia|reflexivity]. Defined.

Lemma StronglySorted_le_lt (l : list Z) :
  StronglySorted Z.le l → NoDup l → StronglySorted Z.lt l.
Proof.
  induction 1 as [|x l Hsorted IH Hle]; intros Hnd; [constructor|].
  apply NoDup_cons in Hnd as [Hx Hnd]. constructor; [by apply IH|].
  rewrite Forall_forall in Hle |- *. intros y Hy.
  specialize (Hle y Hy). assert (x ≠ y) by (intros ->; done). lia.
Qed.

(** X5: on a grid of at least 2 rows and 2 columns
    [get_domain_boundary_indices] lists, in strictly increasing order, the
    cells of the first and last row and of the first and last column, and
    nothing else: [2 * cols + 2 * (rows - 2)] indices. *)
Theorem domain_boundary_indices_spec cols rows :
  2 ≤ cols → 2 ≤ rows →
  StronglySorted Z.lt (get_domain_boundary_indices cols rows)
  ∧ (∀ c, c ∈ get_domain_boundary_indices cols rows
          ↔ 0 ≤ c < rows * cols ∧ on_domain_boundary rows cols c)
  ∧ length (get_domain_boundary_indices cols rows) = Z.to_nat (2 * cols + 2 * (rows - 2)).
Proof.
  intros Hcols Hrows. split; [|split].
  - apply StronglySorted_le_lt; [|by apply NoDup_domain_boundary_indices].
    unfold get_domain_boundary_indices. apply (StronglySorted_merge_sort _).
  - intros c. by apply elem_of_domain_boundary_indices.
  - rewrite domain_boundary_indices_perm by lia.
    rewrite !length_app, !length_fmap, !length_seqZ. lia.
Qed.

Lemma domain_boundary_indices_spec_witness :
  StronglySorted Z.lt (get_domain_boundary_indices 4 3)
  ∧ (∀ c, c ∈ get_domain_boundary_indices 4 3 ↔ 0 ≤ c < 3 * 4 ∧ on_domain_boundary 3 4 c)
  ∧ length (get_domain_boundary_indices 4 3) = Z.to_nat (2 * 4 + 2 * (3 - 2)).
Proof. apply (domain_boundary_indices_spec 4 3); lia. Defined.

(** X6: the coordinates of [get_domain_boundary_coords], taken to linear
    indices by [map_2d_to_1d], are the indices of
    [get_domain_boundary_indices], each as often. *)
Theorem domain_boundary_coords_indices cols rows :
  1 ≤ cols → 2 ≤ rows →
  (λ rc, map_2d_to_1d rc cols) <$> get_domain_boundary_coords cols rows
  ≡ₚ get_domain_boundary_indices cols rows.
Proof.
  intros Hcols Hrows. rewrite domain_boundary_indices_perm by done.
  unfold get_domain_boundary_coords. rewrite !fmap_app, <- !list_fmap_compose.
  assert (Hseq : ∀ (f : Z → Z) m n, f <$> seqZ m n = (λ k, f (m + k)) <$> seqZ 0 n).
  { intros f m n. apply list_eq. intros i. rewrite !list_lookup_fmap.
    destruct (decide (i < Z.to_nat n)%nat) as [Hi|Hi].
    - rewrite !lookup_seqZ_lt by lia. cbn. do 2 f_equal; lia.
    - rewrite !lookup_seqZ_ge by lia. done. }
  assert (Hid : ∀ m n, seqZ m n = (λ k, m + k) <$> seqZ 0 n).
  { intros m n. rewrite <- (list_fmap_id (seqZ m n)). apply (Hseq (λ x, x)). }
  rewrite (Hid (cols * rows - cols)), (Hseq _ 1).
  repeat apply Permutation_app; apply reflexive_eq.
  - rewrite <- (list_fmap_id (seqZ 0 cols)) at 2. apply list_fmap_ext.
    intros _ c _. unfold map_2d_to_1d. cbn. lia.
  - apply list_fmap_ext. intros _ c _. unfold map_2d_to_1d. cbn. lia.
  - apply list_fmap_ext. intros _ c _. unfold map_2d_to_1d. cbn. lia.
  - rewrite (Hseq _ 1). apply list_fmap_ext. intros _ c _. unfold map_2d_to_1d. cbn. lia.
Qed.

Lemma domain_boundary_coords_indices_witness :
  (λ rc, map_2d_to_1d rc 4) <$> get_domain_boundary_coords 4 3
  ≡ₚ get_domain_boundary_indices 4 3.
Proof. apply (domain_boundary_coords_indices 4 3); lia. Defined.

(** ** Pit filler: what is left after one pass *)

Lemma strictly_below_neighbors_iff heights cols i :
  strictly_below_neighbors heights cols i
  ↔ ∀ j, j ∈ get_neighbor_indices i cols false → height heights i < height heights j.
Proof.
  unfold strictly_below_neighbors. cbv zeta. rewrite neighbor_heights_indices.
  replace (map_2d_to_1d ((map_1d_to_2d i cols).1, (map_1d_to_2d i cols).2) cols) with i
    by (symmetry; apply (map_1d_2d_inv i cols)).
  rewrite Forall_fmap, Forall_forall. done.
Qed.

Lemma interior_neighbor_range rows cols i j d4 :
  let rc := map_1d_to_2d i cols in
  interior rows cols rc.1 rc.2 = true → j ∈ get_neighbor_indices i cols d4 →
  0 ≤ j < rows * cols.
Proof.
  intros rc Hint Hj. subst rc. unfold interior, map_1d_to_2d in Hint. cbn [fst snd] in Hint.
  apply bool_decide_eq_true in Hint.
  assert (cols ≠ 0) as Hc0 by lia.
  pose proof (Z.div_mod i cols Hc0) as Hdm.
  remember (i `div` cols) as r. remember (i `mod` cols) as c.
  assert (0 ≤ cols * (r - 1)) by nia.
  assert (cols * (r + 1) ≤ cols * (rows - 1)) by nia.
  unfold get_neighbor_indices in Hj.
  destruct d4; rewrite !elem_of_cons, elem_of_nil in Hj; nia.
Qed.

Lemma fill_length heights rows cols :
  length (fill_single_cell_depressions heights rows cols) = length heights.
Proof. unfold fill_single_cell_depressions. by rewrite length_imap. Qed.

Lemma fill_leaves_no_pit heights rows cols i :
  length heights = Z.to_nat (rows * cols) →
  let rc := map_1d_to_2d i cols in
  interior rows cols rc.1 rc.2 = true →
  ¬ strictly_below_neighbors (fill_single_cell_depressions heights rows cols) cols i.
Proof.
  intros Hlen rc Hint Hsbn. set (out := fill_single_cell_depressions heights rows cols) in *.
  rewrite strictly_below_neighbors_iff in Hsbn.
  pose proof (interior_bounds rows cols i Hint) as (_ & _ & Hi).
  assert (Hrange : ∀ j, j ∈ get_neighbor_indices i cols false →
            0 ≤ j < Z.of_nat (length heights)).
  { intros j Hj. pose proof (interior_neighbor_range rows cols i j false Hint Hj). lia. }
  (* a neighbour of a pit is no pit *)
  assert (Hout : ∀ j, 0 ≤ j < Z.of_nat (length heights) →
            height out j
            = if is_local_minimum heights rows cols (map_1d_to_2d j cols).1 (map_1d_to_2d j cols).2
              then min_of (get_neighbor_heights heights cols false
                             (map_1d_to_2d j cols).1 (map_1d_to_2d j cols).2)
              else height heights j).
  { intros j Hj. subst out. by rewrite fill_lookup. }
  assert (Hmin : ∀ j, min_of (get_neighbor_heights heights cols false
                                (map_1d_to_2d j cols).1 (map_1d_to_2d j cols).2)
                      = min_of (height heights <$> get_neighbor_indices j cols false)).
  { intros j. rewrite neighbor_heights_indices. do 3 f_equal. apply (map_1d_2d_inv j cols). }
  rewrite (Hout i) in Hsbn by lia.
  destruct (is_local_minimum heights rows cols rc.1 rc.2) eqn:Hpit.
  - (* the cell was raised to its lowest neighbour, which was left alone *)
    fold rc in Hsbn. rewrite Hpit in Hsbn. subst rc. rewrite Hmin in Hsbn.
    apply (is_local_minimum_spec heights rows cols i) in Hpit as [_ Hbelow].
    rewrite strictly_below_neighbors_iff in Hbelow.
    assert (Hne : height heights <$> get_neighbor_indices i cols false ≠ []).
    { unfold get_neighbor_indices. done. }
    apply min_of_in in Hne. apply list_elem_of_fmap in Hne as (j & Hmj & Hj).
    specialize (Hsbn j Hj). rewrite (Hout j) in Hsbn by (by apply Hrange).
    destruct (is_local_minimum heights rows cols _ _) eqn:Hpitj; [|lia].
    apply (is_local_minimum_spec heights rows cols j) in Hpitj as [_ Hbelowj].
    rewrite strictly_below_neighbors_iff in Hbelowj.
    specialize (Hbelow j Hj). specialize (Hbelowj i (proj1 (neighbor_indices_sym i j cols false) Hj)).
    lia.
  - (* the cell has a neighbour that is not higher, and still is not *)
    fold rc in Hsbn. rewrite Hpit in Hsbn.
    assert (¬ strictly_below_neighbors heights cols i) as Hnot.
    { intros Hb. apply not_true_iff_false in Hpit. apply Hpit.
      by apply (is_local_minimum_spec heights rows cols i). }
    rewrite strictly_below_neighbors_iff in Hnot.
    assert (∃ j, j ∈ get_neighbor_indices i cols false ∧ height heights j ≤ height heights i)
      as (j & Hj & Hle).
    { rewrite <- Forall_forall in Hnot. apply not_Forall_Exists in Hnot; [|apply _].
      apply Exists_exists in Hnot as (j & Hj & Hle). exists j. cbn in Hle. split; [done|lia]. }
    specialize (Hsbn j Hj). rewrite (Hout j) in Hsbn by (by apply Hrange).
    destruct (is_local_minimum heights rows cols _ _) eqn:Hpitj; [|lia].
    rewrite Hmin in Hsbn.
    assert (min_of (height heights <$> get_neighbor_indices j cols false) ≤ height heights i).
    { apply min_of_lb, list_elem_of_fmap. exists i. split; [done|].
      by apply neighbor_indices_sym. }
    lia.
Qed.

(** X7: after [fill_single_cell_depressions] no interior cell is a
    single-cell depression: none is strictly lower than all of its eight
    neighbours. *)
Theorem fill_removes_single_cell_depressions heights rows cols i :
  length heights = Z.to_nat (rows * cols) →
  interior rows cols (map_1d_to_2d i cols).1 (map_1d_to_2d i cols).2 = true →
  ¬ strictly_below_neighbors (fill_single_cell_depressions heights rows cols) cols i.
Proof. intros Hlen Hint. by apply fill_leaves_no_pit. Qed.

Lemma fill_removes_single_cell_depressions_witness :
  ¬ strictly_below_neighbors
      (fill_single_cell_depressions [3; 3; 3; 3; 3;  3; 1; 2; 0; 3;  3; 3; 3; 3; 3] 3 5) 5 8.
Proof.
  apply (fill_removes_single_cell_depressions
           [3; 3; 3; 3; 3;  3; 1; 2; 0; 3;  3; 3; 3; 3; 3] 3 5 8); reflexivity.
Defined.

(** X8: [fill_single_cell_depressions] is idempotent: a second pass over
    the raster it returned changes nothing. *)
Theorem fill_single_cell_depressions_idempotent heights rows cols :
  length heights = Z.to_nat (rows * cols) →
  fill_single_cell_depressions (fill_single_cell_depressions heights rows cols) rows cols
  = fill_single_cell_depressions heights rows cols.
Proof.
  intros Hlen. set (out := fill_single_cell_depressions heights rows cols).
  unfold fill_single_cell_depressions at 1. cbv zeta.
  apply (imap_id_cond
           (λ i, is_local_minimum out rows cols
                   (map_1d_to_2d (Z.of_nat i) cols).1 (map_1d_to_2d (Z.of_nat i) cols).2)
           (λ i, min_of (get_neighbor_heights out cols false
                   (map_1d_to_2d (Z.of_nat i) cols).1 (map_1d_to_2d (Z.of_nat i) cols).2))).
  intros i _. apply not_true_iff_false. intros Hpit.
  apply (is_local_minimum_spec out rows cols (Z.of_nat i)) in Hpit as [Hint Hbelow].
  by apply (fill_leaves_no_pit heights rows cols (Z.of_nat i) Hlen Hint).
Qed.

Lemma fill_single_cell_depressions_idempotent_witness :
  let heights := [3; 3; 3; 3; 3;  3; 1; 2; 0; 3;  3; 3; 3; 3; 3] in
  fill_single_cell_depressions (fill_single_cell_depressions heights 3 5) 3 5
  = fill_single_cell_depressions heights 3 5.
Proof.
  intros heights. apply (fill_single_cell_depressions_idempotent heights 3 5). reflexivity.
Defined.

(** ** Flow field: shape, targets and paths *)

Lemma interior_iff rows cols i :
  1 ≤ cols →
  interior rows cols (map_1d_to_2d i cols).1 (map_1d_to_2d i cols).2 = true
  ↔ 0 ≤ i < rows * cols ∧ ¬ on_domain_boundary rows cols i.
Proof.
  intros Hc. unfold interior, on_domain_boundary, map_1d_to_2d. cbn [fst snd].
  rewrite bool_decide_eq_true.
  pose proof (Z.div_mod i cols ltac:(lia)) as Hdm.
  pose proof (Z.mod_pos_bound i cols ltac:(lia)) as Hmod.
  remember (i `div` cols) as r. remember (i `mod` cols) as c. split.
  - intros [Hr Hcc]. split; [nia|lia].
  - intros [Hi Hb].
    destruct (decide (r < 0)); [nia|]. destruct (decide (rows ≤ r)); [nia|]. lia.
Qed.

Lemma leaves_interior_None d4 rows cols r c : leaves_interior d4 rows cols r c None = false.
Proof.
  unfold leaves_interior.
  destruct d4; repeat (rewrite bool_decide_eq_false_2 by naive_solver); done.
Qed.

Lemma flow_direction_indices_boundary heights step_size rows cols d4 flow i :
  get_flow_direction_indices heights step_size rows cols d4 = Some flow →
  0 ≤ i < rows * cols →
  interior rows cols (map_1d_to_2d i cols).1 (map_1d_to_2d i cols).2 = false →
  zlookup flow i = Some None.
Proof.
  intros (fd & Hfd & _ & _ & ->)%flow_direction_indices_Some Hi Hint.
  destruct (flow_directions_lookup _ _ _ _ _ _ i Hfd Hi) as (distance & _ & Hcell).
  cbv zeta in Hcell. rewrite Hint in Hcell.
  rewrite !zlookup_imap, Hcell. cbn [fmap option_fmap option_map].
  by rewrite leaves_interior_None.
Qed.

Lemma flow_target_spec heights step_size rows cols d4 flow i :
  0 < step_size →
  get_flow_direction_indices heights step_size rows cols d4 = Some flow →
  interior rows cols (map_1d_to_2d i cols).1 (map_1d_to_2d i cols).2 = true →
  zlookup flow i = Some (Some (-1))
  ∨ ∃ j, zlookup flow i = Some (Some j) ∧ j ∈ get_neighbor_indices i cols d4
         ∧ 0 ≤ j < rows * cols ∧ ¬ on_domain_boundary rows cols j
         ∧ height heights j < height heights i.
Proof.
  intros Hstep Hflow Hint.
  destruct (flow_direction_indices_cell heights step_size rows cols d4 flow i Hflow Hint)
    as (slopes & k & nb & s & Hslopes & _ & _ & Hnb & Hs & Hpit & Hout & Hin).
  destruct (float_pos s) eqn:Hpos; [|left; by apply Hpit].
  destruct (decide (on_domain_boundary rows cols nb)) as [Hb|Hb]; [left; by apply Hout|].
  assert (nb ∈ get_neighbor_indices i cols d4) as Hnbr by (by eapply list_elem_of_lookup_2).
  right. exists nb. split; [by apply Hin|]. split; [done|].
  split; [by eapply interior_neighbor_range|]. split; [done|].
  apply mapM_Some in Hslopes.
  destruct (Forall2_lookup_l _ _ _ _ _ Hslopes Hnb) as (s' & Hs' & Hslope).
  assert (s' = s) as -> by congruence.
  by eapply slope_to_pos.
Qed.

Lemma flow_direction_indices_wf_field heights step_size rows cols d4 flow :
  0 < step_size →
  get_flow_direction_indices heights step_size rows cols d4 = Some flow →
  flow_field_wf flow rows cols.
Proof.
  intros Hstep Hflow.
  assert (2 ≤ rows ∧ 2 ≤ cols) as [Hrows Hcols].
  { by apply flow_direction_indices_Some in Hflow as (fd & _ & ? & ? & _). }
  split; [by eapply flow_direction_indices_length|]. split; [done|]. split; [lia|].
  apply Forall_forall. intros i Hi%elem_of_seqZ. unfold flow_cell_wf.
  destruct (interior rows cols (map_1d_to_2d i cols).1 (map_1d_to_2d i cols).2) eqn:Hint.
  - pose proof (proj1 (interior_iff rows cols i ltac:(lia)) Hint) as [_ Hnb].
    destruct (flow_target_spec heights step_size rows cols d4 flow i Hstep Hflow Hint)
      as [->|(j & -> & _ & Hj & _)]; split; auto.
  - rewrite (flow_direction_indices_boundary _ _ _ _ _ _ _ Hflow) by (done || lia).
    destruct (decide (on_domain_boundary rows cols i)) as [|Hnb]; [done|].
    assert (interior rows cols (map_1d_to_2d i cols).1 (map_1d_to_2d i cols).2 = true)
      by (apply interior_iff; [lia|]; split; [lia|done]).
    congruence.
Qed.

(** X9: whenever [get_flow_direction_indices] returns, its result is a
    field of the shape of the grid that holds [None] exactly on the domain
    boundary, and -1 or the index of a cell of the grid everywhere else. It
    returns on every grid of at least 2 rows and 2 columns whose heights
    and step size convert to doubles without rounding, and fails on every
    smaller grid. *)
Theorem flow_direction_indices_wf heights step_size rows cols d4 :
  0 < step_size →
  (∀ flow, get_flow_direction_indices heights step_size rows cols d4 = Some flow →
     flow_field_wf flow rows cols)
  ∧ (representable heights step_size → 2 ≤ rows → 2 ≤ cols →
     is_Some (get_flow_direction_indices heights step_size rows cols d4))
  ∧ (rows < 2 ∨ cols < 2 →
     get_flow_direction_indices heights step_size rows cols d4 = None).
Proof.
  intros Hstep. split; [|split].
  - intros flow Hflow. by eapply flow_direction_indices_wf_field.
  - apply flow_direction_indices_representable.
  - intros Hsmall.
    destruct (get_flow_direction_indices heights step_size rows cols d4) as [flow|] eqn:Hflow;
      [|done].
    apply flow_direction_indices_Some in Hflow as (fd & _ & ? & ? & _). lia.
Qed.

Lemma flow_direction_indices_wf_witness :
  let heights := [5; 5; 5; 5; 3; 1; 5; 5; 5] in
  ∃ flow, get_flow_direction_indices heights 10 3 3 false = Some flow
          ∧ flow_field_wf flow 3 3.
Proof.
  intros heights.
  destruct (flow_direction_indices_wf heights 10 3 3 false ltac:(lia)) as (Hwf & Hsome & _).
  destruct Hsome as [flow Hflow]; [split; [repeat constructor; lia|lia]|lia|lia|].
  exists flow. split; [done|by apply Hwf].
Defined.

(** X10: a cell that [get_flow_direction_indices] sends somewhere is
    sent to one of its neighbours, which is a cell of the grid off the domain
    boundary and strictly lower than the cell. *)
Theorem flow_target_is_lower_neighbor heights step_size rows cols d4 flow i j :
  0 < step_size →
  get_flow_direction_indices heights step_size rows cols d4 = Some flow →
  zlookup flow i = Some (Some j) → j ≠ -1 →
  j ∈ get_neighbor_indices i cols d4
  ∧ 0 ≤ j < rows * cols ∧ ¬ on_domain_boundary rows cols j
  ∧ height heights j < height heights i.
Proof.
  intros Hstep Hflow Hi Hj.
  pose proof (zlookup_range _ _ _ Hi) as Hrange.
  rewrite (flow_direction_indices_length _ _ _ _ _ _ Hflow) in Hrange.
  destruct (interior rows cols (map_1d_to_2d i cols).1 (map_1d_to_2d i cols).2) eqn:Hint.
  - destruct (flow_target_spec heights step_size rows cols d4 flow i Hstep Hflow Hint)
      as [Hpit|(j' & Hj' & Hrest)]; [congruence|].
    assert (j' = j) as -> by congruence. done.
  - rewrite (flow_direction_indices_boundary _ _ _ _ _ _ _ Hflow) in Hi by (done || lia).
    done.
Qed.

Lemma flow_target_is_lower_neighbor_witness :
  let heights := [9; 9; 9; 9; 9;  9; 4; 2; 9; 9;  9; 9; 9; 9; 9] in
  7 ∈ get_neighbor_indices 6 5 false
  ∧ 0 ≤ 7 < 3 * 5 ∧ ¬ on_domain_boundary 3 5 7
  ∧ height heights 7 < height heights 6.
Proof.
  intros heights.
  apply (flow_target_is_lower_neighbor heights 10 3 5 false
           [None; None; None; None; None;
            None; Some 7; Some (-1); Some 7; None;
            None; None; None; None; None] 6 7);
    [lia | vm_compute; reflexivity | reflexivity | lia].
Defined.

Lemma height_lower_bound heights j : Z.min 0 (min_of heights) ≤ height heights j.
Proof.
  unfold height. destruct (zlookup heights j) as [v|] eqn:Hv; simpl; [|lia].
  apply zlookup_Some in Hv as [_ Hv]. apply list_elem_of_lookup_2 in Hv.
  pose proof (min_of_lb heights v Hv). lia.
Qed.

Lemma flow_reaches_pit heights step_size rows cols d4 flow :
  0 < step_size →
  get_flow_direction_indices heights step_size rows cols d4 = Some flow →
  ∀ i, interior rows cols (map_1d_to_2d i cols).1 (map_1d_to_2d i cols).2 = true →
    ∃ p, reaches flow i p ∧ height heights p ≤ height heights i.
Proof.
  intros Hstep Hflow i. set (b := Z.min 0 (min_of heights)).
  remember (Z.to_nat (height heights i - b)) as n eqn:Hn. revert i Hn.
  induction n as [n IH] using lt_wf_ind. intros i Hn Hint.
  destruct (flow_target_spec heights step_size rows cols d4 flow i Hstep Hflow Hint)
    as [Hpit|(j & Hj & _ & Hrange & Hnb & Hlt)].
  - exists i. split; [by apply reaches_pit|lia].
  - pose proof (interior_bounds rows cols i Hint) as (_ & Hcols & _).
    assert (Hintj : interior rows cols (map_1d_to_2d j cols).1 (map_1d_to_2d j cols).2 = true)
      by (apply interior_iff; [lia|done]).
    pose proof (height_lower_bound heights j) as Hlb. fold b in Hlb.
    destruct (IH (Z.to_nat (height heights j - b)) ltac:(lia) j eq_refl Hintj)
      as (p & Hreach & Hle).
    exists p. split; [|lia]. apply reaches_step with j; [done|lia|done].
Qed.

(** X11: the flow field has no cycle: following
    [get_flow_direction_indices] from an interior cell ends, after finitely
    many steps, in a cell marked -1 that is not higher than the cell. *)
Theorem flow_path_ends_in_pit heights step_size rows cols d4 flow i :
  0 < step_size →
  get_flow_direction_indices heights step_size rows cols d4 = Some flow →
  interior rows cols (map_1d_to_2d i cols).1 (map_1d_to_2d i cols).2 = true →
  ∃ p, reaches flow i p ∧ height heights p ≤ height heights i.
Proof. intros Hstep Hflow Hint. by eapply flow_reaches_pit. Qed.

Lemma flow_path_ends_in_pit_witness :
  let heights := [9; 9; 9; 9; 9;  9; 4; 2; 9; 9;  9; 9; 9; 9; 9] in
  let flow := [None; None; None; None; None;
               None; Some 7; Some (-1); Some 7; None;
               None; None; None; None; None] in
  ∃ p, reaches flow 6 p ∧ height heights p ≤ height heights 6.
Proof.
  intros heights flow.
  apply (flow_path_ends_in_pit heights 10 3 5 false flow 6);
    [lia | vm_compute; reflexivity | reflexivity].
Defined.

(** ** Endpoint labeller: the labels and the flow paths *)

Lemma node_endpoints_labels D rows cols :
  flow_field_wf D rows cols →
  ∃ Tf, get_node_endpoints D rows cols
        = Some (assign_cells Tf cols (get_domain_boundary_coords cols rows) None)
        ∧ labels_inv D Tf rows cols ∧ labels_closed D Tf.
Proof.
  intros D_wf.
  pose proof (flow_field_wf_cells _ _ _ D_wf) as (HlenD & Hrows & Hcols & Hwf).
  unfold get_node_endpoints. rewrite decide_False by lia.
  set (minima := filter (λ i, D !! i = Some (Some (-1))) (seq 0 (length D))).
  set (T0 := assign_cells
               (imap (λ i t, if bool_decide (i ∈ minima) then Some (Z.of_nat i) else t)
                  (replicate (length D) None))
               cols (get_domain_boundary_coords cols rows) (Some (-2))).
  assert (Hminima : ∀ i, 0 ≤ i → Z.to_nat i ∈ minima ↔ zlookup D i = Some (Some (-1))).
  { intros i Hi. unfold minima. rewrite list_elem_of_filter, elem_of_seq, zlookup_nonneg by done.
    split; [tauto|]. intros HDi. split; [exact HDi|]. apply lookup_lt_Some in HDi. lia. }
  assert (HT0 : ∀ i, 0 ≤ i < rows * cols →
            zlookup T0 i = if decide (on_domain_boundary rows cols i) then Some (Some (-2))
                           else if bool_decide (Z.to_nat i ∈ minima) then Some (Some i)
                                else Some None).
  { intros i Hi. unfold T0. rewrite assign_boundary_lookup; try done.
    - destruct (decide (on_domain_boundary rows cols i)); [done|].
      rewrite zlookup_imap. rewrite zlookup_nonneg by lia.
      rewrite lookup_replicate_2 by lia. simpl. rewrite Z2Nat.id by lia.
      by destruct (bool_decide (Z.to_nat i ∈ minima)).
    - by rewrite length_imap, length_replicate. }
  assert (Hinv0 : labels_inv D T0 rows cols).
  { split; [unfold T0; by rewrite assign_cells_length, length_imap, length_replicate|].
    intros i Hi. rewrite (HT0 i Hi).
    destruct (decide (on_domain_boundary rows cols i)); [done|].
    destruct (decide (Z.to_nat i ∈ minima)) as [Hin|Hin].
    - rewrite bool_decide_eq_true_2 by done. split; [done|]. right. exists i. split; [done|].
      apply reaches_pit. apply Hminima; [lia|done].
    - rewrite bool_decide_eq_false_2 by done. split; [|by left].
      intros HD. exfalso. apply Hin, Hminima; [lia|done]. }
  destruct (node_endpoints_loop_spec D rows cols D_wf (S (length D)) (length minima) T0 Hinv0)
    as (Tf & -> & Hinvf & Hclosedf).
  { unfold unlabelled_cells. pose proof (length_filter
      (λ i, no_terminal_node (mjoin (T0 !! i)) = true) (seq 0 (length T0))) as Hle.
    rewrite length_seq in Hle. destruct Hinv0 as [HlenT0 _]. lia. }
  { intros Hnil%length_zero_iff_nil. intros i n Hi HDi. split.
    - intros Hmin. destruct (zlookup D n) as [[v|]|] eqn:E; simpl in Hmin; try done.
      injection Hmin as ->. pose proof (zlookup_range _ _ _ E) as Hn.
      apply Hminima in E; [|lia]. rewrite Hnil in E. by apply elem_of_nil in E.
    - destruct (decide (0 ≤ n < rows * cols)) as [Hn|Hn].
      + rewrite (HT0 n Hn). destruct (decide (on_domain_boundary rows cols n)); [done|].
        rewrite Hnil. by rewrite bool_decide_eq_false_2 by apply not_elem_of_nil.
      + destruct (zlookup T0 n) as [x|] eqn:E; [|done].
        apply zlookup_range in E. destruct Hinv0 as [HlenT0 _]. lia. }
  cbn [mbind option_bind]. by exists Tf.
Qed.

Lemma node_endpoints_lookup D rows cols Tf i :
  flow_field_wf D rows cols → labels_inv D Tf rows cols → 0 ≤ i < rows * cols →
  zlookup (assign_cells Tf cols (get_domain_boundary_coords cols rows) None) i
  = if decide (on_domain_boundary rows cols i) then Some None else zlookup Tf i.
Proof.
  intros D_wf [Hlen _] Hi.
  pose proof (flow_field_wf_cells _ _ _ D_wf) as (HlenD & Hrows & Hcols & _).
  apply assign_boundary_lookup; try done. congruence.
Qed.

(** X12: a label of [get_node_endpoints] is the end of the flow path of
    its cell: when the cell [i] holds the end point [p], following the flow
    field from [i] ends in [p], a cell marked -1, and [p] is labelled with
    itself. *)
Theorem node_endpoints_sound D rows cols E i p :
  flow_field_wf D rows cols →
  get_node_endpoints D rows cols = Some E →
  zlookup E i = Some (Some p) →
  reaches D i p ∧ zlookup D p = Some (Some (-1)) ∧ zlookup E p = Some (Some p).
Proof.
  intros D_wf HE Hi.
  destruct (node_endpoints_labels D rows cols D_wf) as (Tf & HE' & Hinv & Hclosed).
  rewrite HE in HE'. injection HE' as ->.
  pose proof (flow_field_wf_cells _ _ _ D_wf) as (HlenD & Hrows & Hcols & Hwf).
  assert (Hlookup := node_endpoints_lookup D rows cols Tf).
  assert (0 ≤ i < rows * cols) as Hrange.
  { apply zlookup_range in Hi. rewrite assign_cells_length in Hi.
    destruct Hinv as [Hlen _]. lia. }
  rewrite Hlookup in Hi by done.
  destruct (decide (on_domain_boundary rows cols i)) as [|Hnb]; [done|].
  destruct Hinv as [Hlen HinvT]. pose proof (HinvT i Hrange) as Hcell.
  rewrite decide_False in Hcell by done.
  destruct Hcell as [_ [Hnone|(q & Hq & Hreach)]]; [congruence|].
  assert (q = p) as -> by congruence.
  split; [done|]. pose proof (reaches_end _ _ _ Hreach) as [Hpit _].
  split; [done|].
  destruct (flow_not_boundary D rows cols D_wf p _ Hpit) as [Hprange Hpnb].
  rewrite Hlookup by (done || by split).
  rewrite decide_False by done.
  specialize (HinvT p Hprange). rewrite decide_False in HinvT by done. by apply HinvT.
Qed.

Lemma node_endpoints_sound_witness :
  let D := [None; None; None; None; None;
            None; Some 7; Some 8; Some (-1); None;
            None; None; None; None; None] in
  let E := [None; None; None; None; None;
            None; Some 8; Some 8; Some 8; None;
            None; None; None; None; None] in
  reaches D 6 8 ∧ zlookup D 8 = Some (Some (-1)) ∧ zlookup E 8 = Some (Some 8).
Proof.
  intros D E. apply (node_endpoints_sound D 3 5 E 6 8).
  - apply (bool_decide_unpack _). vm_compute. exact I.
  - vm_compute. reflexivity.
  - reflexivity.
Defined.

(** X13: the first two stages of the pipeline compose. The flow field
    of a grid of at least 2 rows and 2 columns is computed whenever the
    heights and the step size convert to doubles without rounding; and on
    every flow field that [get_flow_direction_indices] returns the endpoint
    labeller returns, with every interior cell labelled with a cell marked
    -1 in the flow field that is not higher than the cell. *)
Theorem node_endpoints_of_flow_field heights step_size rows cols d4 :
  0 < step_size → 2 ≤ rows → 2 ≤ cols →
  (representable heights step_size →
   is_Some (get_flow_direction_indices heights step_size rows cols d4))
  ∧ ∀ flow, get_flow_direction_indices heights step_size rows cols d4 = Some flow →
      ∃ E, get_node_endpoints flow rows cols = Some E
           ∧ ∀ i, interior rows cols (map_1d_to_2d i cols).1 (map_1d_to_2d i cols).2 = true →
               ∃ p, zlookup E i = Some (Some p) ∧ zlookup flow p = Some (Some (-1))
                    ∧ height heights p ≤ height heights i.
Proof.
  intros Hstep Hrows Hcols. split.
  { intros Hrep. by apply flow_direction_indices_representable. }
  intros flow Hflow.
  pose proof (flow_direction_indices_wf_field _ _ _ _ _ _ Hstep Hflow) as D_wf.
  destruct (node_endpoints_labels flow rows cols D_wf) as (Tf & HE & Hinv & Hclosed).
  exists (assign_cells Tf cols (get_domain_boundary_coords cols rows) None).
  split; [done|]. intros i Hint.
  destruct (flow_reaches_pit _ _ _ _ _ _ Hstep Hflow i Hint) as (p & Hreach & Hle).
  exists p. pose proof (proj1 (interior_iff rows cols i ltac:(lia)) Hint) as [Hrange Hnb].
  rewrite (node_endpoints_lookup flow rows cols Tf i D_wf Hinv Hrange).
  rewrite decide_False by done. split; [|split; [|done]].
  - by apply (closed_reaches flow rows cols D_wf Tf).
  - by apply reaches_end in Hreach as [? _].
Qed.

Lemma node_endpoints_of_flow_field_witness :
  let heights := [9; 9; 9; 9; 9;  9; 4; 2; 9; 9;  9; 9; 9; 9; 9] in
  ∃ flow E,
    get_flow_direction_indices heights 10 3 5 false = Some flow
    ∧ get_node_endpoints flow 3 5 = Some E
    ∧ ∀ i, interior 3 5 (map_1d_to_2d i 5).1 (map_1d_to_2d i 5).2 = true →
        ∃ p, zlookup E i = Some (Some p) ∧ zlookup flow p = Some (Some (-1))
             ∧ height heights p ≤ height heights i.
Proof.
  intros heights.
  destruct (node_endpoints_of_flow_field heights 10 3 5 false) as [Hsome Hlabels]; [lia..|].
  destruct Hsome as [flow Hflow]; [split; [repeat constructor; lia|lia]|].
  destruct (Hlabels flow Hflow) as (E & HE & HEi). by exists flow, E.
Defined.

(** X14: [remove_out_of_boundary_flow] is idempotent, and the only change
    it makes to a cell is to mark it -1. *)
Theorem remove_out_of_boundary_flow_idempotent flow_directions rows cols d4 removed :
  remove_out_of_boundary_flow flow_directions rows cols d4 = Some removed →
  remove_out_of_boundary_flow removed rows cols d4 = Some removed
  ∧ ∀ i, removed !! i = flow_directions !! i ∨ removed !! i = Some (Some (-1)).
Proof.
  unfold remove_out_of_boundary_flow.
  destruct (decide (2 ≤ rows ∧ 2 ≤ cols)); [|done]. intros [= <-]. split.
  - f_equal. apply list_eq. intros i. rewrite !list_lookup_imap.
    destruct (flow_directions !! i) as [code|]; [|done]. cbn.
    destruct (leaves_interior d4 rows cols _ _ code) eqn:Hleave.
    + by rewrite leaves_interior_pit.
    + by rewrite Hleave.
  - intros i. rewrite list_lookup_imap.
    destruct (flow_directions !! i) as [code|]; [|by left]. cbn.
    destruct (leaves_interior d4 rows cols _ _ code); [by right|by left].
Qed.

Lemma remove_out_of_boundary_flow_idempotent_witness :
  let flow_directions := [None; None; None; None;
                          None; Some 32; Some 2; None;
                          None; None; None; None] in
  let removed := [None; None; None; None;
                  None; Some (-1); Some (-1); None;
                  None; None; None; None] in
  remove_out_of_boundary_flow removed 3 4 false = Some removed
  ∧ ∀ i, removed !! i = flow_directions !! i ∨ removed !! i = Some (Some (-1)).
Proof.
  intros flow_directions removed.
  apply (remove_out_of_boundary_flow_idempotent flow_directions 3 4 false removed).
  reflexivity.
Defined.

(** ** Watersheds *)

Lemma NoDup_np_unique l : NoDup (np_unique l).
Proof. unfold np_unique. rewrite merge_sort_Permutation. apply NoDup_remove_dups. Qed.

Lemma elem_of_np_unique l x : x ∈ np_unique l ↔ x ∈ l.
Proof. unfold np_unique. by rewrite merge_sort_Permutation, elem_of_remove_dups. Qed.

Global Instance endpoint_le_trans : Transitive endpoint_le.
Proof. intros [x|] [y|] [z|]; cbn; try done; lia. Qed.
Global Instance endpoint_le_total : Total endpoint_le.
Proof. intros [x|] [y|]; cbn; try tauto; lia. Qed.
Global Instance endpoint_le_antisymm : AntiSymm (=) endpoint_le.
Proof. intros [x|] [y|]; cbn; try done. intros. f_equal. lia. Qed.
Global Instance endpoint_le_refl : Reflexive endpoint_le.
Proof. intros [x|]; cbn; [lia|done]. Qed.

Global Instance argsort_le_trans : Transitive argsort_le.
Proof.
  intros [a i] [b j] [c k] [Hab Hij] [Hbc Hjk]. cbn in *. split; cbn.
  - by etrans.
  - intros Hca. assert (endpoint_le b a) by by etrans.
    assert (endpoint_le c b) by by etrans. specialize (Hij ltac:(done)).
    specialize (Hjk ltac:(done)). lia.
Qed.
Global Instance argsort_le_total : Total argsort_le.
Proof.
  intros [a i] [b j]. unfold argsort_le. cbn.
  destruct (total endpoint_le a b) as [Hab|Hba].
  - destruct (decide (endpoint_le b a)) as [Hba|Hba].
    + destruct (decide (i ≤ j)%nat); [left|right]; split; try done; intros; lia.
    + left. split; [done|]. by intros ?.
  - destruct (decide (endpoint_le a b)) as [Hab|Hab].
    + destruct (decide (i ≤ j)%nat); [left|right]; split; try done; intros; lia.
    + right. split; [done|]. by intros ?.
Qed.
Global Instance argsort_le_antisymm : AntiSymm (=) argsort_le.
Proof.
  intros [a i] [b j] [Hab Hij] [Hba Hji]. cbn in *.
  specialize (Hij Hba). specialize (Hji Hab).
  f_equal; [by apply (anti_symm endpoint_le)|lia].
Qed.

Lemma np_split_from_length {A} (ar : list A) start indices :
  length (np_split_from ar start indices) = S (length indices).
Proof. revert start. induction indices as [|i indices IH]; intros start; cbn; [done|]. by rewrite IH. Qed.

Lemma np_split_cumsum {A} (pre : list A) (pieces : list (list A)) :
  let split := np_split_from (pre ++ mjoin pieces) (length pre)
                 (np_cumsum_from (length pre) (length <$> pieces)) in
  take (length split - 1) split = pieces.
Proof.
  revert pre. induction pieces as [|b pieces IH]; intros pre; [done|].
  cbn -[take]. rewrite np_split_from_length. cbn [take Nat.sub]. f_equal.
  - rewrite drop_app_length. replace (length pre + length b - length pre)%nat with (length b) by lia.
    by rewrite take_app_length.
  - specialize (IH (pre ++ b)). cbn zeta in IH.
    rewrite length_app, <- (assoc_L (++)), np_split_from_length in IH.
    by rewrite Nat.sub_succ, Nat.sub_0_r in IH.
Qed.

Lemma zip_seq_sorted {A} (l : list A) a n :
  StronglySorted (λ p q : A * nat, (p.2 < q.2)%nat) (zip l (seq a n)).
Proof.
  revert a n. induction l as [|x l IH]; intros a [|n]; cbn; try by constructor.
  constructor; [apply IH|]. apply Forall_forall. intros [y j] Hj%elem_of_zip_r.
  apply elem_of_seq in Hj. cbn. lia.
Qed.

Lemma zip_seq_lookup {A} (l : list A) p :
  p ∈ zip l (seq 0 (length l)) ↔ l !! p.2 = Some p.1.
Proof.
  destruct p as [x j]. cbn. rewrite list_elem_of_lookup. split.
  - intros (i & Hi). apply lookup_zip_with_Some in Hi as (x' & j' & [= <- <-] & Hx & Hj).
    apply lookup_seq in Hj as [-> _]. done.
  - intros Hj. exists j. apply lookup_zip_with_Some. exists x, j. split; [done|]. split; [done|].
    apply lookup_seq. split; [done|]. by eapply lookup_lt_Some.
Qed.

Lemma block_sorted (u : option Z) (P : list (option Z * nat)) :
  StronglySorted (λ p q : option Z * nat, (p.2 < q.2)%nat) P →
  StronglySorted argsort_le (filter (λ p, p.1 = u) P).
Proof.
  induction 1 as [|x l Hl IH Hx]; [constructor|].
  rewrite filter_cons. destruct (decide (x.1 = u)) as [Hxu|]; [|done].
  constructor; [done|]. apply Forall_forall. intros q [Hq Hin]%list_elem_of_filter.
  rewrite Forall_forall in Hx. specialize (Hx q Hin). split.
  - by rewrite Hxu, Hq.
  - intros _. lia.
Qed.

Lemma blocks_sorted (U : list (option Z)) (P : list (option Z * nat)) :
  StronglySorted endpoint_le U → NoDup U →
  StronglySorted (λ p q : option Z * nat, (p.2 < q.2)%nat) P →
  StronglySorted argsort_le (U ≫= λ u, filter (λ p, p.1 = u) P).
Proof.
  intros HU Hnd HP. induction HU as [|u U HU IH Hu]; [constructor|].
  apply NoDup_cons in Hnd as [Hnu Hnd]. cbn.
  apply StronglySorted_app_2; [|by apply block_sorted|by apply IH].
  intros x1 x2 [Hx1 _]%list_elem_of_filter (u' & [Hx2 _]%list_elem_of_filter & Hu')%list_elem_of_bind.
  rewrite Forall_forall in Hu. specialize (Hu u' Hu'). split.
  - by rewrite Hx1, Hx2.
  - rewrite Hx1, Hx2. intros Hle. exfalso. apply Hnu.
    by rewrite (anti_symm endpoint_le u u' Hu Hle).
Qed.

Lemma sorted_blocks (l : list (option Z)) :
  let P := zip l (seq 0 (length l)) in
  merge_sort argsort_le P
  = merge_sort endpoint_le (remove_dups l) ≫= λ u, filter (λ p, p.1 = u) P.
Proof.
  intros P. set (U := merge_sort endpoint_le (remove_dups l)).
  assert (HndU : NoDup U).
  { unfold U. rewrite merge_sort_Permutation. apply NoDup_remove_dups. }
  assert (HndP : NoDup P).
  { apply (NoDup_fmap_1 snd). unfold P. rewrite snd_zip by (by rewrite length_seq).
    apply NoDup_seq. }
  apply (StronglySorted_unique argsort_le).
  - apply (StronglySorted_merge_sort _).
  - apply blocks_sorted; [apply (StronglySorted_merge_sort _)|done|apply zip_seq_sorted].
  - rewrite merge_sort_Permutation. apply NoDup_Permutation; [done| |].
    + apply NoDup_bind; [|by intros; apply NoDup_filter|done].
      intros u1 u2 p _ _ [<- _]%list_elem_of_filter [<- _]%list_elem_of_filter. done.
    + intros p. rewrite list_elem_of_bind. split.
      * intros Hp. exists p.1. split; [by apply list_elem_of_filter|].
        unfold U. rewrite merge_sort_Permutation, elem_of_remove_dups.
        destruct p as [x j]. by eapply elem_of_zip_l.
      * by intros (u & [_ Hp]%list_elem_of_filter & _).
Qed.

Lemma block_indices (l : list (option Z)) u :
  (filter (λ p : option Z * nat, p.1 = u) (zip l (seq 0 (length l)))).*2
  = filter (λ j, l !! j = Some u) (seq 0 (length l)).
Proof.
  rewrite <- (snd_zip l (seq 0 (length l))) at 2 by (by rewrite length_seq).
  assert (HP : ∀ p, p ∈ zip l (seq 0 (length l)) → l !! p.2 = Some p.1)
    by (intros p; apply zip_seq_lookup).
  revert HP. generalize (zip l (seq 0 (length l))) as P.
  induction P as [|p P IH]; intros HP; [done|].
  rewrite (fmap_cons snd), !filter_cons.
  assert (Hp : l !! p.2 = Some p.1) by (apply HP; left).
  rewrite <- IH by (intros q Hq; apply HP; by right).
  destruct (decide (p.1 = u)) as [Hu|Hu].
  - rewrite decide_True by (by rewrite Hp, Hu). done.
  - rewrite decide_False by (rewrite Hp; congruence). done.
Qed.

Lemma block_count (l : list (option Z)) u :
  length (filter (λ e, e = u) l)
  = length (filter (λ p : option Z * nat, p.1 = u) (zip l (seq 0 (length l)))).*2.
Proof.
  rewrite length_fmap.
  rewrite <- (fst_zip l (seq 0 (length l))) at 1 by (by rewrite length_seq).
  generalize (zip l (seq 0 (length l))) as P.
  induction P as [|p P IH]; [done|]. rewrite (fmap_cons fst), !filter_cons.
  destruct (decide (p.1 = u)); cbn; by rewrite IH.
Qed.

Lemma unique_endpoints (l : list (option Z)) :
  omap (λ e, e) (merge_sort endpoint_le (remove_dups l)) = np_unique (omap (λ e, e) l).
Proof.
  set (U := merge_sort endpoint_le (remove_dups l)).
  assert (HndU : NoDup U).
  { unfold U. rewrite merge_sort_Permutation. apply NoDup_remove_dups. }
  assert (HsU : StronglySorted endpoint_le U) by apply (StronglySorted_merge_sort _).
  assert (HU : ∀ x, x ∈ U ↔ x ∈ l).
  { intros x. unfold U. by rewrite merge_sort_Permutation, elem_of_remove_dups. }
  apply (StronglySorted_unique Z.le).
  - clear HU HndU. induction HsU as [|[m|] U HsU IH Hm]; cbn; [constructor| |done].
    constructor; [done|]. apply Forall_forall. intros y (x & Hx & ->)%list_elem_of_omap.
    rewrite Forall_forall in Hm. apply (Hm _ Hx).
  - apply (StronglySorted_merge_sort _).
  - unfold np_unique. rewrite merge_sort_Permutation. apply NoDup_Permutation.
    + clear HU HsU. induction HndU as [|[m|] U Hm HndU IH]; cbn; [constructor| |done].
      constructor; [|done]. rewrite list_elem_of_omap. by intros (x & Hx & ->).
    + apply NoDup_remove_dups.
    + intros m. rewrite elem_of_remove_dups, !list_elem_of_omap.
      split; intros (x & Hx & ->); exists (Some m); by rewrite ?HU in *.
Qed.

Lemma get_local_watersheds_eq (node_endpoints : list (option Z)) :
  get_local_watersheds node_endpoints
  = if decide (None ∈ node_endpoints) then
      Some (list_to_map
              ((λ m, (m, Z.of_nat <$> filter (λ i, node_endpoints !! i = Some (Some m))
                                        (seq 0 (length node_endpoints))))
                 <$> np_unique (omap (λ e, e) node_endpoints)))
    else None.
Proof.
  unfold get_local_watersheds, np_unique_counts, np_argsort, np_split, np_cumsum.
  set (l := node_endpoints). set (U := merge_sort endpoint_le (remove_dups l)).
  set (P := zip l (seq 0 (length l))).
  set (block := λ u, (filter (λ p : option Z * nat, p.1 = u) P).*2).
  assert (Hsorted : (merge_sort argsort_le P).*2 = mjoin (block <$> U)).
  { unfold P. rewrite sorted_blocks. fold P U. clearbody U.
    induction U as [|u U IH]; [done|]. cbn. by rewrite fmap_app, IH. }
  assert (Hcounts : (λ u, length (filter (λ e, e = u) l)) <$> U = length <$> (block <$> U)).
  { rewrite <- list_fmap_compose. apply list_fmap_ext. intros _ u _. apply block_count. }
  rewrite Hsorted, Hcounts.
  pose proof (np_split_cumsum (@nil nat) (block <$> U)) as Hsplit. cbn in Hsplit.
  cbv zeta. rewrite Hsplit.
  assert (HNone : None ∈ U ↔ None ∈ l).
  { unfold U. by rewrite merge_sort_Permutation, elem_of_remove_dups. }
  destruct (decide (None ∈ U)) as [HU|HU], (decide (None ∈ l)) as [Hl|Hl]; try tauto.
  f_equal. f_equal. rewrite <- unique_endpoints. fold U. clearbody U. clear.
  induction U as [|[m|] U IH]; cbn; [done| |done].
  rewrite IH. f_equal. f_equal. unfold block, P. by rewrite block_indices.
Qed.

Lemma local_watersheds_cells node_endpoints local_watersheds :
  get_local_watersheds node_endpoints = Some local_watersheds →
  None ∈ node_endpoints
  ∧ (∀ m ws, local_watersheds !! m = Some ws →
       ∀ c, c ∈ ws ↔ zlookup node_endpoints c = Some (Some m))
  ∧ (∀ c m, zlookup node_endpoints c = Some (Some m) →
       ∃ ws, local_watersheds !! m = Some ws ∧ c ∈ ws).
Proof.
  rewrite get_local_watersheds_eq.
  destruct (decide (None ∈ node_endpoints)) as [HNone|]; [|done].
  intros [= <-]. split; [done|].
  set (cells := λ m : Z, Z.of_nat <$> filter (λ i, node_endpoints !! i = Some (Some m))
                                         (seq 0 (length node_endpoints))).
  set (unique := np_unique (omap (λ e, e) node_endpoints)).
  assert (Hcells : ∀ m c, c ∈ cells m ↔ zlookup node_endpoints c = Some (Some m)).
  { intros m c. unfold cells. rewrite list_elem_of_fmap. split.
    - intros (n & -> & [Hn _]%list_elem_of_filter). by rewrite zlookup_of_nat.
    - intros Hc. apply zlookup_Some in Hc as [Hc0 Hc]. exists (Z.to_nat c).
      split; [lia|]. apply list_elem_of_filter. split; [done|].
      apply elem_of_seq. apply lookup_lt_Some in Hc. lia. }
  assert (Hlookup : ∀ m ws,
            list_to_map (M := gmap Z (list Z)) ((λ m, (m, cells m)) <$> unique) !! m = Some ws
            ↔ m ∈ unique ∧ ws = cells m).
  { intros m ws. rewrite <- elem_of_list_to_map.
    - rewrite list_elem_of_fmap. split.
      + intros (m' & [= -> ->] & Hm). done.
      + intros [Hm ->]. by exists m.
    - assert (((λ m, (m, cells m)) <$> unique).*1 = unique) as ->.
      { rewrite <- list_fmap_compose. rewrite <- (list_fmap_id unique) at 2.
        by apply list_fmap_ext. }
      apply NoDup_np_unique. }
  split.
  - intros m ws [_ ->]%Hlookup c. apply Hcells.
  - intros c m Hc. exists (cells m). split; [|by apply Hcells].
    apply Hlookup. split; [|done]. apply elem_of_np_unique, list_elem_of_omap.
    exists (Some m). split; [|done].
    apply zlookup_Some in Hc as [_ Hc]. by eapply list_elem_of_lookup_2.
Qed.

(** X15: [get_local_watersheds] (the distinct end points and their counts,
    the indices sorted by end point, cut at the running sums of the counts)
    groups the cells by their end point. Without a cell that has no end
    point it fails (the entry of [None] that it deletes is missing). With
    one it returns: the watershed filed under [m] holds exactly the cells
    whose end point is [m], each of them once, and every end point that
    occurs has a watershed. *)
Theorem local_watersheds_spec node_endpoints :
  (None ∉ node_endpoints → get_local_watersheds node_endpoints = None)
  ∧ (None ∈ node_endpoints →
     ∃ local_watersheds,
       get_local_watersheds node_endpoints = Some local_watersheds
       ∧ (∀ m ws, local_watersheds !! m = Some ws →
            NoDup ws ∧ ∀ c, c ∈ ws ↔ zlookup node_endpoints c = Some (Some m))
       ∧ (∀ c m, zlookup node_endpoints c = Some (Some m) →
            ∃ ws, local_watersheds !! m = Some ws ∧ c ∈ ws)).
Proof.
  split.
  - intros HNone. rewrite get_local_watersheds_eq. by rewrite decide_False.
  - intros HNone.
    destruct (get_local_watersheds node_endpoints) as [local_watersheds|] eqn:Hlw.
    + exists local_watersheds. split; [done|].
      destruct (local_watersheds_cells _ _ Hlw) as (_ & Hcells & Hlabelled).
      split; [|done]. intros m ws Hws. split; [|by apply Hcells].
      rewrite get_local_watersheds_eq, decide_True in Hlw by done.
      injection Hlw as <-. apply elem_of_list_to_map_2 in Hws.
      apply list_elem_of_fmap in Hws as (m' & [= -> ->] & _).
      apply NoDup_fmap_2; [apply _|]. apply NoDup_filter, NoDup_seq.
    + rewrite get_local_watersheds_eq, decide_True in Hlw by done. done.
Qed.

Lemma local_watersheds_spec_witness :
  let node_endpoints := [None; None; None; None; None;
                         None; Some 8; Some 8; Some 8; None;
                         None; Some 12; Some 8; Some 12; None] in
  ∃ local_watersheds,
    get_local_watersheds node_endpoints = Some local_watersheds
    ∧ (∀ m ws, local_watersheds !! m = Some ws →
         NoDup ws ∧ ∀ c, c ∈ ws ↔ zlookup node_endpoints c = Some (Some m))
    ∧ (∀ c m, zlookup node_endpoints c = Some (Some m) →
         ∃ ws, local_watersheds !! m = Some ws ∧ c ∈ ws).
Proof.
  intros node_endpoints.
  apply (local_watersheds_spec node_endpoints). subst node_endpoints.
  apply list_elem_of_here.
Defined.

Lemma map_nodes_to_watersheds_outside watersheds rows cols c :
  0 ≤ c < rows * cols → c ∉ mjoin watersheds →
  zlookup (map_nodes_to_watersheds watersheds rows cols) c = Some (-1).
Proof.
  intros Hc. induction watersheds as [|ws watersheds IH] using rev_ind; intros Hout.
  - unfold map_nodes_to_watersheds. cbn. rewrite zlookup_nonneg by lia.
    apply lookup_replicate_2. lia.
  - rewrite map_nodes_to_watersheds_snoc.
    assert (mjoin (watersheds ++ [ws]) = mjoin watersheds ++ ws) as Hjoin.
    { rewrite join_app. cbn. by rewrite app_nil_r. }
    rewrite Hjoin, not_elem_of_app in Hout. destruct Hout as [Hout Hws].
    rewrite zinsert_fold_other by done. by apply IH.
Qed.

(** X16: [map_nodes_to_watersheds] inverts the list of watersheds: when
    the watersheds are disjoint sets of cells of the grid, the mapping holds
    at every cell of a watershed the index of that watershed, and -1 at
    every cell of the grid that is in no watershed. *)
Theorem map_nodes_to_watersheds_spec watersheds rows cols :
  watersheds_wf watersheds rows cols →
  (∀ i ws c, watersheds !! i = Some ws → c ∈ ws →
     zlookup (map_nodes_to_watersheds watersheds rows cols) c = Some (Z.of_nat i))
  ∧ (∀ c, 0 ≤ c < rows * cols → c ∉ mjoin watersheds →
       zlookup (map_nodes_to_watersheds watersheds rows cols) c = Some (-1)).
Proof.
  intros Hwf. split.
  - intros i ws c Hi Hc.
    pose proof (map_nodes_to_watersheds_lookup watersheds rows cols i ws c Hwf Hi Hc) as Hm.
    unfold watershed_of in Hm.
    destruct (zlookup_lt (map_nodes_to_watersheds watersheds rows cols) c) as [v Hv].
    + rewrite map_nodes_to_watersheds_length. destruct Hwf as [Hrange _].
      rewrite Forall_forall in Hrange. apply list_elem_of_lookup_2 in Hi.
      specialize (Hrange ws Hi). rewrite Forall_forall in Hrange.
      specialize (Hrange c Hc). lia.
    + rewrite Hv in Hm |- *. simpl in Hm. by subst.
  - intros c Hc Hout. by apply map_nodes_to_watersheds_outside.
Qed.

Lemma map_nodes_to_watersheds_spec_witness :
  let watersheds := [[6]; [8; 7]] in
  (∀ i ws c, watersheds !! i = Some ws → c ∈ ws →
     zlookup (map_nodes_to_watersheds watersheds 3 5) c = Some (Z.of_nat i))
  ∧ (∀ c, 0 ≤ c < 3 * 5 → c ∉ mjoin watersheds →
       zlookup (map_nodes_to_watersheds watersheds 3 5) c = Some (-1)).
Proof.
  intros watersheds. apply (map_nodes_to_watersheds_spec watersheds 3 5). split.
  - repeat constructor; lia.
  - intros i j wi wj c Hi Hj Hci Hcj.
    destruct i as [|[|i]], j as [|[|j]]; try done;
      cbn in Hi, Hj; injection Hi as <-; injection Hj as <-; set_unfold; lia.
Defined.

(** X17: [get_size_of_traps] counts what [get_all_traps] collects: with
    as many spill heights as watersheds it returns the sizes that
    [get_all_traps] returns beside the traps. *)
Theorem size_of_traps_agree watersheds heights spill_heights traps sizes :
  get_all_traps watersheds heights (Some spill_heights) = Some (traps, sizes) →
  length spill_heights = length watersheds →
  get_size_of_traps watersheds heights (Some spill_heights) = Some sizes.
Proof.
  unfold get_all_traps, get_size_of_traps. cbn [mbind option_bind].
  destruct (mapM _ (imap pair watersheds)) as [traps'|] eqn:Htraps; [|done].
  cbn [mbind option_bind]. intros [= -> <-] Hlen.
  apply mapM_Some in Htraps. apply mapM_Some.
  pose proof (Forall2_length _ _ _ Htraps) as Hlen'. rewrite length_imap in Hlen'.
  apply Forall2_same_length_lookup_2.
  { rewrite length_imap, length_fmap. lia. }
  intros i [i' s] y Hs Hy. rewrite list_lookup_imap in Hs.
  destruct (spill_heights !! i) as [s'|] eqn:Hsi; [|done]. injection Hs as <- <-.
  rewrite list_lookup_fmap in Hy. destruct (traps !! i) as [t|] eqn:Ht; [|done].
  injection Hy as <-. cbn [fst snd].
  destruct (lookup_lt_is_Some_2 watersheds i) as [ws Hws].
  { apply lookup_lt_Some in Hsi. lia. }
  assert (Hiw : imap pair watersheds !! i = Some (i, ws)) by (by rewrite list_lookup_imap, Hws).
  pose proof (Forall2_lookup_lr _ _ _ _ _ _ Htraps Hiw Ht) as Hf.
  cbn [fst snd mbind option_bind] in Hf. rewrite Hsi in Hf. cbn in Hf. injection Hf as <-.
  rewrite Hws. done.
Qed.

Lemma size_of_traps_agree_witness :
  get_size_of_traps [[6]; [8; 7]] [9; 9; 9; 9; 9;  9; 1; 5; 3; 9;  9; 9; 9; 9; 9] (Some [5; 9])
  = Some [1; 2].
Proof.
  apply (size_of_traps_agree [[6]; [8; 7]] [9; 9; 9; 9; 9;  9; 1; 5; 3; 9;  9; 9; 9; 9; 9]
           [5; 9] [[6]; [8; 7]] [1; 2]); reflexivity.
Defined.

(** ** Landscape flattener *)

Lemma zinsert_fold_height (cells : list Z) v heights c :
  height (foldl (λ h c, zinsert c v h) heights cells) c
  = if decide (c ∈ cells ∧ 0 ≤ c < Z.of_nat (length heights)) then v else height heights c.
Proof.
  unfold height. destruct (decide _) as [[Hin Hrange]|Hnot].
  - by rewrite zinsert_fold_in.
  - destruct (decide (c ∈ cells)) as [Hin|Hin]; [|by rewrite zinsert_fold_other].
    assert (∀ l : list Z, ¬ 0 ≤ c < Z.of_nat (length l) → zlookup l c = None) as Hnone.
    { intros l Hl. destruct (zlookup l c) eqn:E; [|done]. apply zlookup_Some in E as [? E].
      apply lookup_lt_Some in E. lia. }
    rewrite !Hnone; [done|tauto|]. rewrite zinsert_fold_length. tauto.
Qed.

Lemma fill_traps_fold_length heights (filled : list (list Z * Z)) :
  length (foldl (λ h ts, foldl (λ h c, zinsert c ts.2 h) h ts.1) heights filled)
  = length heights.
Proof.
  revert heights. induction filled as [|ts filled IH]; intros heights; [done|]. cbn.
  by rewrite IH, zinsert_fold_length.
Qed.

Lemma fill_traps_fold_cases heights (filled : list (list Z * Z)) c :
  height (foldl (λ h ts, foldl (λ h c, zinsert c ts.2 h) h ts.1) heights filled) c
  = height heights c
  ∨ ∃ ts, ts ∈ filled ∧ c ∈ ts.1
          ∧ height (foldl (λ h ts, foldl (λ h c, zinsert c ts.2 h) h ts.1) heights filled) c
            = ts.2.
Proof.
  revert heights. induction filled as [|ts filled IH]; intros heights; [by left|].
  cbn [foldl].
  destruct (IH (foldl (λ h c, zinsert c ts.2 h) heights ts.1)) as [Heq|(ts' & Hin & Hc & Heq)].
  - rewrite Heq, zinsert_fold_height. destruct (decide _) as [[Hc _]|_]; [|by left].
    right. exists ts. split; [left|]. done.
  - right. exists ts'. split; [by right|done].
Qed.

Lemma all_traps_lookup watersheds heights spill_heights traps sizes k trap :
  get_all_traps watersheds heights spill_heights = Some (traps, sizes) →
  traps !! k = Some trap →
  ∃ ws l s, spill_heights = Some l ∧ l !! k = Some s ∧ watersheds !! k = Some ws
            ∧ trap = filter (λ c, height heights c ≤ s) ws.
Proof.
  unfold get_all_traps.
  destruct (mapM _ (imap pair watersheds)) as [traps'|] eqn:Htraps; [|done].
  cbn [mbind option_bind]. intros [= -> <-] Hk. apply mapM_Some in Htraps.
  destruct (Forall2_lookup_r _ _ _ _ _ Htraps Hk) as ([k' ws] & Hws & Hf).
  rewrite list_lookup_imap in Hws. destruct (watersheds !! k) as [ws'|] eqn:Hwk; [|done].
  injection Hws as <- <-. cbn [fst snd] in Hf.
  destruct spill_heights as [l|]; [|done]. cbn [mbind option_bind] in Hf.
  destruct (l !! k) as [s|] eqn:Hs; [|done]. cbn in Hf. injection Hf as <-.
  by exists ws', l, s.
Qed.

Lemma fill_traps_of_all_traps watersheds heights spill_heights traps sizes c :
  get_all_traps watersheds heights spill_heights = Some (traps, sizes) →
  length (fill_traps heights traps (default [] spill_heights)) = length heights
  ∧ height heights c ≤ height (fill_traps heights traps (default [] spill_heights)) c
  ∧ (c ∉ mjoin watersheds →
     height (fill_traps heights traps (default [] spill_heights)) c = height heights c).
Proof.
  intros Htraps. unfold fill_traps. split; [apply fill_traps_fold_length|].
  destruct (fill_traps_fold_cases heights (zip traps (default [] spill_heights)) c)
    as [Heq|([trap s] & Hin & Hc & Heq)].
  - rewrite Heq. split; [lia|done].
  - cbn [fst snd] in Hc, Heq. rewrite Heq.
    apply list_elem_of_lookup in Hin as [k Hk].
    apply lookup_zip_with_Some in Hk as (trap' & s' & [= <- <-] & Htrap & Hs).
    destruct (all_traps_lookup _ _ _ _ _ _ _ Htraps Htrap) as (ws & l & s' & -> & Hl & Hws & ->).
    cbn in Hs. assert (s' = s) as -> by congruence.
    apply list_elem_of_filter in Hc as [Hle Hc]. split; [done|].
    intros Hout. exfalso. apply Hout. apply list_elem_of_join. exists ws. split; [done|].
    by eapply list_elem_of_lookup_2.
Qed.

(** X18: [make_landscape_depressionless_no_landscape_input] only raises:
    the raster keeps its size, no cell ends up lower than it was, and a
    cell that is in no watershed keeps its height. *)
Theorem make_landscape_depressionless_raises watersheds steepest heights rows cols filled c :
  make_landscape_depressionless_no_landscape_input watersheds steepest heights rows cols
  = Some filled →
  length filled = length heights
  ∧ height heights c ≤ height filled c
  ∧ (c ∉ mjoin watersheds → height filled c = height heights c).
Proof.
  unfold make_landscape_depressionless_no_landscape_input.
  destruct (get_all_traps _ _ _) as [[traps sizes]|] eqn:Htraps; [|done].
  intros [= <-]. by eapply fill_traps_of_all_traps.
Qed.

Lemma make_landscape_depressionless_raises_witness :
  let heights := [9; 9; 9; 9; 9;  9; 1; 5; 3; 9;  9; 9; 9; 9; 9] in
  let filled := [9; 9; 9; 9; 9;  9; 5; 9; 9; 9;  9; 9; 9; 9; 9] in
  length filled = length heights
  ∧ height heights 6 ≤ height filled 6
  ∧ (6 ∉ mjoin [[6]; [8; 7]] → height filled 6 = height heights 6).
Proof.
  intros heights filled.
  apply (make_landscape_depressionless_raises [[6]; [8; 7]] (Some [(8, 9); (6, 7)])
           heights 3 5 filled 6).
  vm_compute. reflexivity.
Defined.

Lemma fill_never_lowers heights rows cols c :
  height heights c ≤ height (fill_single_cell_depressions heights rows cols) c.
Proof.
  destruct (decide (0 ≤ c < Z.of_nat (length heights))) as [Hc|Hc].
  - rewrite fill_lookup by done. cbv zeta.
    destruct (is_local_minimum heights rows cols _ _) eqn:Hpit; [|lia].
    apply (is_local_minimum_spec heights rows cols c) in Hpit as [_ Hbelow].
    unfold strictly_below_neighbors in Hbelow. cbv zeta in Hbelow.
    rewrite Forall_forall in Hbelow.
    pose proof (min_of_in _ (neighbor_heights_nonempty heights cols false
                               (map_1d_to_2d c cols).1 (map_1d_to_2d c cols).2)) as Hmin.
    specialize (Hbelow _ Hmin). lia.
  - unfold height.
    assert (∀ l : list Z, ¬ 0 ≤ c < Z.of_nat (length l) → zlookup l c = None) as Hnone.
    { intros l Hl. destruct (zlookup l c) eqn:E; [|done]. apply zlookup_Some in E as [? E].
      apply lookup_lt_Some in E. lia. }
    rewrite (Hnone heights Hc).
    rewrite (Hnone (fill_single_cell_depressions heights rows cols))
      by (by rewrite fill_length).
    reflexivity.
Qed.

Lemma make_depressionless_stages heights ny nx step_size d4 heights' :
  make_depressionless heights ny nx step_size d4 = Some heights' →
  ∃ flow node_endpoints local_watersheds watersheds0 watersheds steepest traps sizes,
    let filled := fill_single_cell_depressions heights ny nx in
    let spill_heights := get_spill_heights watersheds filled ny nx steepest in
    get_flow_direction_indices filled step_size ny nx d4 = Some flow
    ∧ get_node_endpoints flow ny nx = Some node_endpoints
    ∧ get_local_watersheds node_endpoints = Some local_watersheds
    ∧ combine_watersheds local_watersheds
        (combine_minima (local_minima_of local_watersheds) ny nx d4) = Some watersheds0
    ∧ combine_watersheds_spilling_into_each_other watersheds0 filled ny nx d4
      = Some (watersheds, steepest)
    ∧ get_all_traps watersheds filled spill_heights = Some (traps, sizes)
    ∧ heights' = fill_traps filled traps (default [] spill_heights).
Proof.
  unfold make_depressionless. cbv zeta. intros H.
  bind_case H as flow Hflow. bind_case H as node_endpoints HE.
  bind_case H as local_watersheds Hlw. bind_case H as watersheds0 Hws0.
  destruct (combine_watersheds_spilling_into_each_other _ _ _ _ _)
    as [[watersheds steepest]|] eqn:Hspill; [|done].
  cbn [mbind option_bind] in H.
  destruct (get_all_traps _ _ _) as [[traps sizes]|] eqn:Htraps; [|done].
  cbn [mbind option_bind] in H. injection H as <-.
  by exists flow, node_endpoints, local_watersheds, watersheds0, watersheds, steepest,
    traps, sizes.
Qed.

(** X19: [make_depressionless] only raises: the raster it returns has the
    size of its input, and no cell of it is lower than in the input. *)
Theorem make_depressionless_raises heights ny nx step_size d4 heights' c :
  make_depressionless heights ny nx step_size d4 = Some heights' →
  length heights' = length heights ∧ height heights c ≤ height heights' c.
Proof.
  intros (flow & E & lw & ws0 & ws & st & traps & sizes & _ & _ & _ & _ & _ & Htraps & ->)
    %make_depressionless_stages.
  destruct (fill_traps_of_all_traps _ _ _ _ _ c Htraps) as (Hlen & Hle & _).
  split; [by rewrite Hlen, fill_length|].
  pose proof (fill_never_lowers heights ny nx c). lia.
Qed.

Lemma make_depressionless_raises_witness :
  let heights := [9; 9; 9; 9; 9;  9; 1; 1; 9; 9;  9; 9; 9; 4; 3;  9; 9; 9; 9; 9] in
  let heights' := [9; 9; 9; 9; 9;  9; 4; 4; 9; 9;  9; 9; 9; 4; 3;  9; 9; 9; 9; 9] in
  length heights' = length heights ∧ height heights 6 ≤ height heights' 6.
Proof.
  intros heights heights'.
  apply (make_depressionless_raises heights 4 5 10 false heights' 6).
  vm_compute. reflexivity.
Defined.

(** *** The cells of the watersheds *)

Lemma node_endpoints_label_interior D rows cols E c m :
  flow_field_wf D rows cols →
  get_node_endpoints D rows cols = Some E →
  zlookup E c = Some (Some m) →
  0 ≤ c < rows * cols ∧ ¬ on_domain_boundary rows cols c.
Proof.
  intros D_wf HE Hc.
  destruct (node_endpoints_labels D rows cols D_wf) as (Tf & HE' & Hinv & _).
  rewrite HE in HE'. injection HE' as ->.
  pose proof (flow_field_wf_cells _ _ _ D_wf) as (HlenD & _).
  assert (0 ≤ c < rows * cols) as Hrange.
  { apply zlookup_range in Hc. rewrite assign_cells_length in Hc.
    destruct Hinv as [Hlen _]. lia. }
  split; [done|]. rewrite (node_endpoints_lookup D rows cols Tf c D_wf Hinv Hrange) in Hc.
  by destruct (decide (on_domain_boundary rows cols c)).
Qed.

Lemma mapM_Forall {A B} (f : A → option B) (Q : B → Prop) (l : list A) (k : list B) :
  mapM f l = Some k → (∀ x y, x ∈ l → f x = Some y → Q y) → Forall Q k.
Proof.
  intros Hk%mapM_Some HQ. induction Hk as [|x y l k Hxy _ IH]; [constructor|].
  constructor; [apply (HQ x); [left|done]|]. apply IH. intros x' y' Hx'. apply HQ. by right.
Qed.

Lemma Forall_mjoin {A} (Q : A → Prop) (ls : list (list A)) :
  Forall (Forall Q) ls → Forall Q (mjoin ls).
Proof.
  induction 1 as [|l ls Hl _ IH]; [constructor|].
  change (mjoin (l :: ls)) with (l ++ mjoin ls). by apply Forall_app.
Qed.

Lemma zlookup_Forall {A} (Q : A → Prop) (l : list A) i x :
  Forall Q l → zlookup l i = Some x → Q x.
Proof.
  intros Hl [_ Hx]%zlookup_Some. rewrite Forall_forall in Hl.
  apply Hl. by eapply list_elem_of_lookup_2.
Qed.

Section WatershedCells.
Variable Q : Z → Prop.

Lemma combine_watersheds_cells (local_watersheds : gmap Z (list Z)) combined_minima watersheds :
  (∀ m ws, local_watersheds !! m = Some ws → Forall Q ws) →
  combine_watersheds local_watersheds combined_minima = Some watersheds →
  Forall (Forall Q) watersheds.
Proof.
  intros Hlw Hws. unfold combine_watersheds in Hws.
  apply (mapM_Forall _ _ _ _ Hws). intros comb ws _ Hcomb.
  destruct (mapM _ comb) as [parts|] eqn:Hparts; [|done]. injection Hcomb as <-.
  apply Forall_mjoin. apply (mapM_Forall _ _ _ _ Hparts). intros m part _. apply Hlw.
Qed.

Lemma replace_merged_cells watersheds merged_indices merged :
  Forall (Forall Q) watersheds → Forall (Forall Q) merged →
  Forall (Forall Q) (replace_merged watersheds merged_indices merged).
Proof.
  intros Hws Hmerged. unfold replace_merged. apply Forall_app. split; [|done].
  apply Forall_forall. intros ws Hin. apply list_elem_of_omap in Hin as ([i ws'] & Hin & Hkeep).
  cbn [fst snd] in Hkeep. destruct (decide _); [done|]. injection Hkeep as <-.
  apply list_elem_of_lookup in Hin as [k Hk]. rewrite list_lookup_imap in Hk.
  destruct (watersheds !! k) as [w|] eqn:Hw; [|done]. injection Hk as <- <-.
  rewrite Forall_forall in Hws. apply Hws. by eapply list_elem_of_lookup_2.
Qed.

Lemma merge_flowing_cells watersheds steepest rows cols merged removed merged_indices :
  Forall (Forall Q) watersheds →
  merge_watersheds_flowing_into_each_other watersheds steepest rows cols
  = Some (merged, removed, merged_indices) →
  Forall (Forall Q) merged.
Proof.
  intros Hws H. unfold merge_watersheds_flowing_into_each_other in H. cbv zeta in H.
  bind_case H as merged' Hmerged. bind_case H as removed' Hremoved. injection H as <- _ _.
  apply (mapM_Forall _ _ _ _ Hmerged). intros el ws _ Hel.
  destruct (zlookup watersheds el.1) as [a|] eqn:Ha; [|done].
  destruct (zlookup watersheds el.2) as [b|] eqn:Hb; [|done].
  cbn in Hel. injection Hel as <-. apply Forall_app. split; by eapply zlookup_Forall.
Qed.

Lemma remove_cycles_cells watersheds steepest ny nx merged removed merged_indices :
  Forall (Forall Q) watersheds →
  remove_cycles watersheds steepest ny nx = Some (merged, removed, merged_indices) →
  Forall (Forall Q) merged.
Proof.
  intros Hws H. unfold remove_cycles in H. cbv zeta in H.
  bind_case H as merged' Hmerged. bind_case H as removed' Hremoved. injection H as <- _ _.
  apply (mapM_Forall _ _ _ _ Hmerged). intros cyc ws _ Hcyc.
  destruct (mapM _ cyc) as [parts|] eqn:Hparts; [|done]. injection Hcyc as <-.
  apply Forall_mjoin. apply (mapM_Forall _ _ _ _ Hparts). intros k part _ Hk.
  by eapply zlookup_Forall.
Qed.

Lemma spill_loop_cells fuel heights ny nx d4 watersheds merged remaining steepest result :
  Forall (Forall Q) watersheds →
  spill_loop fuel heights ny nx d4 watersheds merged remaining steepest = Some result →
  Forall (Forall Q) result.1.
Proof.
  revert watersheds merged remaining steepest.
  induction fuel as [|fuel IH]; intros watersheds merged remaining steepest Hws H.
  - destruct merged; [|done]. cbn in H. by injection H as <-.
  - destruct merged as [|m merged]; [cbn in H; by injection H as <-|].
    cbn [spill_loop] in H. cbv zeta in H.
    bind_case H as boundary_pairs Hbp. bind_case H as spill_pairs Hsp. bind_case H as st Hst.
    destruct (merge_watersheds_flowing_into_each_other _ _ _ _)
      as [[[merged1 removed1] idx1]|] eqn:Hmerge; [|done].
    cbn [mbind option_bind] in H.
    pose proof (merge_flowing_cells _ _ _ _ _ _ _ Hws Hmerge) as Hm1.
    pose proof (replace_merged_cells watersheds idx1 merged1 Hws Hm1) as Hws1.
    destruct merged1 as [|m1 merged1].
    + destruct (remove_cycles _ _ _ _) as [[[merged2 removed2] idx2]|] eqn:Hcyc; [|done].
      cbn [mbind option_bind] in H.
      pose proof (remove_cycles_cells _ _ _ _ _ _ _ Hws1 Hcyc) as Hm2.
      eapply IH; [|exact H]. by apply replace_merged_cells.
    + eapply IH; [|exact H]. done.
Qed.

Lemma combine_spilling_cells watersheds heights ny nx d4 result steepest :
  Forall (Forall Q) watersheds →
  combine_watersheds_spilling_into_each_other watersheds heights ny nx d4
  = Some (result, steepest) →
  Forall (Forall Q) result.
Proof.
  intros Hws H. unfold combine_watersheds_spilling_into_each_other in H.
  destruct (spill_loop _ _ _ _ _ _ _ _ _) as [[ws st]|] eqn:Hloop; [|done].
  injection H as <- _. by apply (spill_loop_cells _ _ _ _ _ _ _ _ _ _ Hws Hloop).
Qed.
End WatershedCells.

Lemma make_depressionless_watershed_cells heights ny nx step_size d4 :
  0 < step_size →
  ∀ flow node_endpoints local_watersheds watersheds0 watersheds steepest,
    let filled := fill_single_cell_depressions heights ny nx in
    get_flow_direction_indices filled step_size ny nx d4 = Some flow →
    get_node_endpoints flow ny nx = Some node_endpoints →
    get_local_watersheds node_endpoints = Some local_watersheds →
    combine_watersheds local_watersheds
      (combine_minima (local_minima_of local_watersheds) ny nx d4) = Some watersheds0 →
    combine_watersheds_spilling_into_each_other watersheds0 filled ny nx d4
    = Some (watersheds, steepest) →
    Forall (Forall (λ c, 0 ≤ c < ny * nx ∧ ¬ on_domain_boundary ny nx c)) watersheds.
Proof.
  intros Hstep flow E lw ws0 ws st filled Hflow HE Hlw Hws0 Hspill.
  pose proof (flow_direction_indices_wf_field _ _ _ _ _ _ Hstep Hflow) as D_wf.
  eapply combine_spilling_cells; [|exact Hspill].
  eapply combine_watersheds_cells; [|exact Hws0].
  intros m cells Hm. apply Forall_forall. intros c Hc.
  destruct (local_watersheds_cells _ _ Hlw) as (_ & Hcells & _).
  apply (Hcells m cells Hm) in Hc.
  by eapply node_endpoints_label_interior.
Qed.

(** X20: [make_depressionless] leaves the domain boundary alone: every
    cell that is not an interior cell of the grid has in the returned raster
    the height it had in the input. *)
Theorem make_depressionless_keeps_boundary heights ny nx step_size d4 heights' c :
  0 < step_size →
  make_depressionless heights ny nx step_size d4 = Some heights' →
  interior ny nx (map_1d_to_2d c nx).1 (map_1d_to_2d c nx).2 = false →
  height heights' c = height heights c.
Proof.
  intros Hstep Hmd Hint.
  destruct (make_depressionless_stages _ _ _ _ _ _ Hmd)
    as (flow & E & lw & ws0 & ws & st & traps & sizes
        & Hflow & HE & Hlw & Hws0 & Hspill & Htraps & ->).
  pose proof (make_depressionless_watershed_cells heights ny nx step_size d4 Hstep
                flow E lw ws0 ws st Hflow HE Hlw Hws0 Hspill) as Hcells.
  assert (2 ≤ ny ∧ 2 ≤ nx) as [Hny Hnx].
  { by apply flow_direction_indices_Some in Hflow as (fd & _ & ? & ? & _). }
  destruct (fill_traps_of_all_traps _ _ _ _ _ c Htraps) as (_ & _ & Hout).
  rewrite Hout.
  - destruct (decide (0 ≤ c < Z.of_nat (length heights))) as [Hc|Hc].
    + rewrite fill_lookup by done. cbv zeta. unfold is_local_minimum. by rewrite Hint.
    + unfold height.
      assert (∀ l : list Z, ¬ 0 ≤ c < Z.of_nat (length l) → zlookup l c = None) as Hnone.
      { intros l Hl. destruct (zlookup l c) eqn:E'; [|done]. apply zlookup_Some in E' as [? E'].
        apply lookup_lt_Some in E'. lia. }
      rewrite (Hnone heights Hc).
      by rewrite (Hnone (fill_single_cell_depressions heights ny nx))
        by (by rewrite fill_length).
  - intros Hin. apply list_elem_of_join in Hin as (w & Hc & Hw).
    rewrite Forall_forall in Hcells. specialize (Hcells w Hw).
    rewrite Forall_forall in Hcells. specialize (Hcells c Hc).
    apply (interior_iff ny nx c ltac:(lia)) in Hcells. congruence.
Qed.

Lemma make_depressionless_keeps_boundary_witness :
  let heights := [9; 9; 9; 9; 9;  9; 1; 1; 9; 9;  9; 9; 9; 4; 3;  9; 9; 9; 9; 9] in
  let heights' := [9; 9; 9; 9; 9;  9; 4; 4; 9; 9;  9; 9; 9; 4; 3;  9; 9; 9; 9; 9] in
  height heights' 14 = height heights 14.
Proof.
  intros heights heights'.
  apply (make_depressionless_keeps_boundary heights 4 5 10 false heights' 14);
    [lia | vm_compute; reflexivity | reflexivity].
Defined.

(** *** No cell is lost *)

Lemma mapM_elem {A B} (f : A → option B) (l : list A) (k : list B) x :
  mapM f l = Some k → x ∈ l → ∃ y, y ∈ k ∧ f x = Some y.
Proof.
  intros Hk%mapM_Some Hx. apply list_elem_of_lookup in Hx as [i Hi].
  destruct (Forall2_lookup_l _ _ _ _ _ Hk Hi) as (y & Hy & Hxy).
  exists y. split; [by eapply list_elem_of_lookup_2|done].
Qed.

Lemma combine_minima_covers local_minima rows cols d4 m :
  m ∈ local_minima → m ∈ mjoin (combine_minima local_minima rows cols d4).
Proof.
  intros Hm. unfold combine_minima. destruct (decide (length local_minima = 1%nat)).
  { cbn. by rewrite app_nil_r. }
  cbv zeta. destruct (decide (filter _ _ = [])) as [_|_].
  - apply list_elem_of_join. exists [m]. split; [left|].
    apply list_elem_of_fmap. by exists m.
  - set (combined := filter (λ ws : list Z, (1 < length ws)%nat) _).
    rewrite join_app, elem_of_app.
    destruct (decide (m ∈ mjoin combined)) as [Hin|Hout]; [by left|right].
    apply list_elem_of_join. exists [m]. split; [left|].
    apply list_elem_of_fmap. exists m. split; [done|].
    apply elem_of_np_unique, list_elem_of_filter. done.
Qed.

Lemma elem_of_local_minima_of (local_watersheds : gmap Z (list Z)) m :
  m ∈ local_minima_of local_watersheds ↔ is_Some (local_watersheds !! m).
Proof.
  unfold local_minima_of. by rewrite merge_sort_Permutation, elem_of_elements, elem_of_dom.
Qed.

Section WatershedCover.
Variable c : Z.

Lemma combine_watersheds_covers (local_watersheds : gmap Z (list Z)) combined_minima
    watersheds m cells :
  combine_watersheds local_watersheds combined_minima = Some watersheds →
  local_watersheds !! m = Some cells → c ∈ cells → m ∈ mjoin combined_minima →
  c ∈ mjoin watersheds.
Proof.
  intros Hws Hm Hc Hin. apply list_elem_of_join in Hin as (comb & Hmc & Hcomb).
  destruct (mapM_elem _ _ _ _ Hws Hcomb) as (ws & Hws_in & Hcw).
  destruct (mapM _ comb) as [parts|] eqn:Hparts; [|done]. injection Hcw as <-.
  destruct (mapM_elem _ _ _ _ Hparts Hmc) as (part & Hpart & Hlookup).
  assert (part = cells) as -> by congruence.
  apply list_elem_of_join. exists (mjoin parts). split; [|done].
  apply list_elem_of_join. by exists cells.
Qed.

Lemma replace_merged_covers watersheds merged_indices merged :
  c ∈ mjoin watersheds →
  (∀ k w, watersheds !! k = Some w → c ∈ w → Z.of_nat k ∈ merged_indices →
     c ∈ mjoin merged) →
  c ∈ mjoin (replace_merged watersheds merged_indices merged).
Proof.
  intros Hin Hmerged. unfold replace_merged. rewrite join_app, elem_of_app.
  apply list_elem_of_join in Hin as (w & Hc & Hw).
  apply list_elem_of_lookup in Hw as [k Hk].
  destruct (decide (Z.of_nat k ∈ merged_indices)) as [Hidx|Hidx]; [right; by eapply Hmerged|].
  left. apply list_elem_of_join. exists w. split; [done|].
  apply list_elem_of_omap. exists (k, w). split.
  - apply list_elem_of_lookup. exists k. by rewrite list_lookup_imap, Hk.
  - cbn [fst snd]. by rewrite decide_False.
Qed.

Lemma merge_flowing_covers watersheds steepest rows cols merged removed merged_indices k w :
  merge_watersheds_flowing_into_each_other watersheds steepest rows cols
  = Some (merged, removed, merged_indices) →
  watersheds !! k = Some w → c ∈ w → Z.of_nat k ∈ merged_indices → c ∈ mjoin merged.
Proof.
  intros H Hk Hc Hidx. unfold merge_watersheds_flowing_into_each_other in H. cbv zeta in H.
  bind_case H as merged' Hmerged. bind_case H as removed' Hremoved. injection H as <- _ <-.
  apply elem_of_np_unique, list_elem_of_bind in Hidx as (el & Hkel & Hel).
  destruct (mapM_elem _ _ _ _ Hmerged Hel) as (ab & Hab & Hf).
  destruct (zlookup watersheds el.1) as [a|] eqn:Ha; [|done].
  destruct (zlookup watersheds el.2) as [b|] eqn:Hb; [|done].
  cbn in Hf. injection Hf as <-.
  apply list_elem_of_join. exists (a ++ b). split; [|done]. rewrite elem_of_app.
  rewrite !elem_of_cons, elem_of_nil in Hkel. destruct Hkel as [Heq|[Heq|[]]].
  - left. rewrite <- Heq, zlookup_of_nat in Ha. congruence.
  - right. rewrite <- Heq, zlookup_of_nat in Hb. congruence.
Qed.

Lemma remove_cycles_covers watersheds steepest ny nx merged removed merged_indices k w :
  remove_cycles watersheds steepest ny nx = Some (merged, removed, merged_indices) →
  watersheds !! k = Some w → c ∈ w → Z.of_nat k ∈ merged_indices → c ∈ mjoin merged.
Proof.
  intros H Hk Hc Hidx. unfold remove_cycles in H. cbv zeta in H.
  bind_case H as merged' Hmerged. bind_case H as removed' Hremoved. injection H as <- _ <-.
  rewrite merge_sort_Permutation in Hidx. apply list_elem_of_join in Hidx as (cyc & Hkc & Hcyc).
  destruct (mapM_elem _ _ _ _ Hmerged Hcyc) as (ws & Hws & Hf).
  destruct (mapM _ cyc) as [parts|] eqn:Hparts; [|done]. injection Hf as <-.
  destruct (mapM_elem _ _ _ _ Hparts Hkc) as (part & Hpart & Hlookup).
  rewrite zlookup_of_nat in Hlookup. assert (part = w) as -> by congruence.
  apply list_elem_of_join. exists (mjoin parts). split; [|done].
  apply list_elem_of_join. by exists w.
Qed.

Lemma spill_loop_covers fuel heights ny nx d4 watersheds merged remaining steepest result :
  c ∈ mjoin watersheds →
  spill_loop fuel heights ny nx d4 watersheds merged remaining steepest = Some result →
  c ∈ mjoin result.1.
Proof.
  revert watersheds merged remaining steepest.
  induction fuel as [|fuel IH]; intros watersheds merged remaining steepest Hws H.
  - destruct merged; [|done]. cbn in H. by injection H as <-.
  - destruct merged as [|m merged]; [cbn in H; by injection H as <-|].
    cbn [spill_loop] in H. cbv zeta in H.
    bind_case H as boundary_pairs Hbp. bind_case H as spill_pairs Hsp. bind_case H as st Hst.
    destruct (merge_watersheds_flowing_into_each_other _ _ _ _)
      as [[[merged1 removed1] idx1]|] eqn:Hmerge; [|done].
    cbn [mbind option_bind] in H.
    assert (Hws1 : c ∈ mjoin (replace_merged watersheds idx1 merged1)).
    { apply replace_merged_covers; [done|]. intros k w Hk Hc Hidx.
      by eapply merge_flowing_covers. }
    destruct merged1 as [|m1 merged1].
    + destruct (remove_cycles _ _ _ _) as [[[merged2 removed2] idx2]|] eqn:Hcyc; [|done].
      cbn [mbind option_bind] in H.
      eapply IH; [|exact H]. apply replace_merged_covers; [done|].
      intros k w Hk Hc Hidx. by eapply remove_cycles_covers.
    + eapply IH; [|exact H]. done.
Qed.
End WatershedCover.

(** X21: the watersheds of [calculate_watersheds] cover the interior of
    the grid and nothing else: every interior cell lies in one of them, and
    every cell of a watershed is an interior cell. *)
Theorem calculate_watersheds_cover heights dim_x dim_y step_size d4 watersheds steepest c :
  0 < step_size →
  calculate_watersheds heights dim_x dim_y step_size d4 = Some (watersheds, steepest) →
  c ∈ mjoin watersheds
  ↔ interior dim_y dim_x (map_1d_to_2d c dim_x).1 (map_1d_to_2d c dim_x).2 = true.
Proof.
  intros Hstep H. unfold calculate_watersheds in H. cbv zeta in H.
  bind_case H as flow Hflow. bind_case H as E HE. bind_case H as lw Hlw.
  bind_case H as ws0 Hws0.
  pose proof (flow_direction_indices_wf_field _ _ _ _ _ _ Hstep Hflow) as D_wf.
  assert (2 ≤ dim_y ∧ 2 ≤ dim_x) as [Hny Hnx].
  { by apply flow_direction_indices_Some in Hflow as (fd & _ & ? & ? & _). }
  destruct (local_watersheds_cells _ _ Hlw) as (_ & Hcells & Hlabelled).
  split.
  - intros Hin. apply interior_iff; [lia|].
    assert (Forall (Forall (λ c, 0 ≤ c < dim_y * dim_x ∧ ¬ on_domain_boundary dim_y dim_x c))
              watersheds) as Hall.
    { eapply combine_spilling_cells; [|exact H].
      eapply combine_watersheds_cells; [|exact Hws0].
      intros m cells Hm. apply Forall_forall. intros c' Hc'.
      apply (Hcells m cells Hm) in Hc'. by eapply node_endpoints_label_interior. }
    apply list_elem_of_join in Hin as (w & Hc & Hw).
    rewrite Forall_forall in Hall. specialize (Hall w Hw).
    rewrite Forall_forall in Hall. by apply Hall.
  - intros Hint.
    destruct (flow_reaches_pit _ _ _ _ _ _ Hstep Hflow c Hint) as (p & Hreach & _).
    pose proof (proj1 (interior_iff dim_y dim_x c ltac:(lia)) Hint) as [Hrange Hnb].
    destruct (node_endpoints_labels flow dim_y dim_x D_wf) as (Tf & HE' & Hinv & Hclosed).
    rewrite HE in HE'. injection HE' as ->.
    assert (Hlabel : zlookup (assign_cells Tf dim_x (get_domain_boundary_coords dim_x dim_y) None) c
                     = Some (Some p)).
    { rewrite (node_endpoints_lookup flow dim_y dim_x Tf c D_wf Hinv Hrange).
      rewrite decide_False by done. by apply (closed_reaches flow dim_y dim_x D_wf Tf). }
    destruct (Hlabelled c p Hlabel) as (cells & Hp & Hc).
    unfold combine_watersheds_spilling_into_each_other in H.
    destruct (spill_loop _ _ _ _ _ _ _ _ _) as [[ws st]|] eqn:Hloop; [|done].
    injection H as <- _.
    assert (Hcover : c ∈ mjoin ws0).
    { eapply combine_watersheds_covers; [exact Hws0|exact Hp|exact Hc|].
      apply combine_minima_covers, elem_of_local_minima_of. by exists cells. }
    exact (spill_loop_covers c _ _ _ _ _ _ _ _ _ _ Hcover Hloop).
Qed.

Lemma calculate_watersheds_cover_witness :
  12 ∈ mjoin [[6; 11; 7; 8; 12; 13]]
  ↔ interior 4 5 (map_1d_to_2d 12 5).1 (map_1d_to_2d 12 5).2 = true.
Proof.
  apply (calculate_watersheds_cover
           [9; 9; 9; 9; 9;  9; 1; 1; 9; 9;  9; 9; 9; 4; 3;  9; 9; 9; 9; 9]
           5 4 10 false [[6; 11; 7; 8; 12; 13]] (Some [(13, 14)]) 12);
    [lia | vm_compute; reflexivity].
Defined.

(** ** Node connectivity matrix and accumulation graph *)

Lemma omap_total {A B} (f : A → option B) (g : A → B) (l : list A) :
  (∀ x, x ∈ l → f x = Some (g x)) → omap f l = g <$> l.
Proof.
  induction l as [|x l IH]; intros Hf; [done|]. cbn.
  rewrite (Hf x) by left. cbn. f_equal. apply IH. intros y Hy. apply Hf. by right.
Qed.

Lemma elem_of_zip_fmap {A B} (g : A → B) (l : list A) x y :
  (x, y) ∈ zip l (g <$> l) ↔ x ∈ l ∧ y = g x.
Proof.
  induction l as [|a l IH]; cbn.
  - rewrite !elem_of_nil. tauto.
  - rewrite !elem_of_cons, IH. split.
    + intros [[= -> ->]|[Hx ->]]; [by split; [left|]|by split; [right|]].
    + intros [[->|Hx] ->]; [by left|by right].
Qed.

Lemma make_sparse_entry flow rows cols M i j :
  make_sparse_node_conn_matrix flow rows cols = Some M →
  entry M i j
  = if decide (0 ≤ i < rows * cols ∧ zlookup flow i = Some (Some j) ∧ 0 < j) then 1 else 0.
Proof.
  unfold make_sparse_node_conn_matrix. cbv zeta. intros HM.
  set (keep := filter (keeps_flow flow) (seqZ 0 (rows * cols))) in *.
  set (target := λ i : Z, default 0 (mjoin (zlookup flow i))).
  assert (Hkeep : ∀ x, x ∈ keep ↔ 0 ≤ x < rows * cols ∧ ∃ j, zlookup flow x = Some (Some j) ∧ 0 < j).
  { intros x. unfold keep. rewrite list_elem_of_filter, elem_of_seqZ. unfold keeps_flow.
    destruct (zlookup flow x) as [[v|]|]; cbn; split.
    - intros [Hv Hx]. split; [lia|]. by exists v.
    - intros [Hx (v' & [= <-] & Hv)]. split; [done|lia].
    - by intros [[] _].
    - by intros [_ (v' & ? & _)].
    - by intros [[] _].
    - by intros [_ (v' & ? & _)]. }
  rewrite (omap_total _ target) in HM.
  2:{ intros x (_ & v & Hv & _)%Hkeep. unfold target. by rewrite Hv. }
  rewrite (csr_entry_NoDup _ _ _ _ _ _ i j HM).
  2:{ apply NoDup_zip_l. unfold keep. apply NoDup_filter, NoDup_seqZ. }
  apply decide_ext. rewrite elem_of_zip_fmap, Hkeep. unfold target. split.
  - intros [[Hi (v & Hv & Hpos)] ->]. rewrite Hv. cbn. done.
  - intros (Hi & Hv & Hpos). split; [split; [done|by exists j]|]. by rewrite Hv.
Qed.

(** X22: [make_sparse_node_conn_matrix] has the edge [i -> j] exactly
    when the cell [i] of the grid flows to [j] and [j] is positive, with
    weight 1; in particular a node has at most one outgoing edge, and a cell
    marked -1 or [None] has none. *)
Theorem make_sparse_node_conn_matrix_spec flow rows cols M :
  make_sparse_node_conn_matrix flow rows cols = Some M →
  shape_r M = rows * cols ∧ shape_c M = rows * cols
  ∧ (∀ i j, entry M i j
            = if decide (0 ≤ i < rows * cols ∧ zlookup flow i = Some (Some j) ∧ 0 < j)
              then 1 else 0)
  ∧ (∀ i j j', entry M i j ≠ 0 → entry M i j' ≠ 0 → j = j').
Proof.
  intros HM. pose proof HM as HM'. unfold make_sparse_node_conn_matrix in HM'.
  apply csr_matrix_Some in HM' as (Hr & Hc & _).
  split; [done|]. split; [done|]. split; [intros i j; by apply make_sparse_entry|].
  intros i j j'. rewrite !(make_sparse_entry flow rows cols M) by done.
  destruct (decide _) as [(_ & Hj & _)|]; [|done].
  destruct (decide _) as [(_ & Hj' & _)|]; [|done]. congruence.
Qed.

Lemma make_sparse_node_conn_matrix_spec_witness :
  let flow := [None; None; None; None; None;
               None; Some 7; Some 8; Some (-1); None;
               None; None; None; None; None] in
  let M := default (Matrix 0 0 (λ _ _, 0)) (make_sparse_node_conn_matrix flow 3 5) in
  shape_r M = 3 * 5 ∧ shape_c M = 3 * 5
  ∧ (∀ i j, entry M i j
            = if decide (0 ≤ i < 3 * 5 ∧ zlookup flow i = Some (Some j) ∧ 0 < j)
              then 1 else 0)
  ∧ (∀ i j j', entry M i j ≠ 0 → entry M i j' ≠ 0 → j = j').
Proof.
  intros flow M. apply (make_sparse_node_conn_matrix_spec flow 3 5 M).
  subst M. by destruct (make_sparse_node_conn_matrix flow 3 5) eqn:HM; [|vm_compute in HM].
Defined.

(** X24: [calculate_flow_origins] returns, in increasing order, the nodes
    of the expanded graph that are not cells of the domain boundary, not
    cells of a trap, and that no edge leads to. *)
Theorem calculate_flow_origins_spec M traps rows cols origins :
  2 ≤ rows → 2 ≤ cols →
  shape_c M = rows * cols + Z.of_nat (length traps) →
  calculate_flow_origins M traps rows cols = Some origins →
  StronglySorted Z.lt origins
  ∧ ∀ x, x ∈ origins
         ↔ 0 ≤ x < rows * cols + Z.of_nat (length traps)
           ∧ ¬ (x < rows * cols ∧ on_domain_boundary rows cols x)
           ∧ (x ∉ mjoin traps)
           ∧ ∀ u, 0 ≤ u < shape_r M → entry M u x = 0.
Proof.
  intros Hrows Hcols Hshape H. unfold calculate_flow_origins in H. cbv zeta in H.
  bind_case H as trap_nodes Htn. injection H as <-.
  unfold np_concatenate in Htn. destruct (decide _); [done|]. injection Htn as <-.
  split.
  - unfold np_setdiff1d. apply StronglySorted_le_lt; [|apply NoDup_np_unique].
    unfold np_unique. apply (StronglySorted_merge_sort _).
  - intros x. unfold np_setdiff1d. rewrite elem_of_np_unique, list_elem_of_filter.
    rewrite elem_of_np_unique, !elem_of_app, np_arange_1, elem_of_seqZ.
    rewrite elem_of_domain_boundary_indices by done.
    assert (Hup : x ∈ (nonzero M).*2 ↔ ∃ u, 0 ≤ u < shape_r M ∧ 0 ≤ x < shape_c M ∧ entry M u x ≠ 0).
    { rewrite list_elem_of_fmap. unfold nonzero. split.
      - intros ([u x'] & -> & (Hu & Hx & Hnz)%elem_of_nonzero). cbn.
        apply elem_of_seqZ in Hx. exists u. split; [done|]. split; [lia|done].
      - intros (u & Hu & Hx & Hnz). exists (u, x). split; [done|].
        apply elem_of_nonzero. split; [done|]. split; [|done]. apply elem_of_seqZ. lia. }
    rewrite Hup. split.
    + intros [Hnot Hx]. split; [lia|]. split; [|split].
      * intros [Hlt Hb]. apply Hnot. left. split; [lia|done].
      * intros Hin. apply Hnot. by right; right.
      * intros u Hu. destruct (decide (entry M u x = 0)) as [|Hnz]; [done|].
        exfalso. apply Hnot. right; left. exists u. split; [done|]. split; [lia|done].
    + intros (Hx & Hnb & Hnt & Hzero). split; [|lia].
      intros [[Hr Hb]|[(u & Hu & _ & Hnz)|Hin]]; [|by apply Hnz, Hzero|done].
      apply Hnb. split; [lia|done].
Qed.

Lemma calculate_flow_origins_spec_witness :
  let flow := [None; None; None; None; None; None; None;
               None; Some (-1); Some (-1); Some 11; Some 12; Some (-1); None;
               None; None; None; None; None; None; None] in
  let traps := [[8; 9; 10]; [12]] in
  let G := expand_conn_mat
             (default (Matrix 0 0 (λ _ _, 0)) (make_sparse_node_conn_matrix flow 3 7)) 2 in
  let origins := [21; 22] in
  StronglySorted Z.lt origins
  ∧ ∀ x, x ∈ origins
         ↔ 0 ≤ x < 3 * 7 + Z.of_nat (length traps)
           ∧ ¬ (x < 3 * 7 ∧ on_domain_boundary 3 7 x)
           ∧ (x ∉ mjoin traps)
           ∧ ∀ u, 0 ≤ u < shape_r G → entry G u x = 0.
Proof.
  intros flow traps G origins.
  apply (calculate_flow_origins_spec G traps 3 7 origins); [lia | lia | |].
  - vm_compute. reflexivity.
  - vm_compute. reflexivity.
Defined.

(** ** Direction codes and spill pairs *)

Lemma flow_directions_code_cases heights step_size rows cols d4 flow_directions i code :
  get_flow_directions heights step_size rows cols d4 = Some flow_directions →
  zlookup flow_directions i = Some code →
  match code with
  | None => interior rows cols (map_1d_to_2d i cols).1 (map_1d_to_2d i cols).2 = false
  | Some v => interior rows cols (map_1d_to_2d i cols).1 (map_1d_to_2d i cols).2 = true
              ∧ (v = -1 ∨ v ∈ direction_values d4)
  end.
Proof.
  intros Hfd Hi. pose proof (zlookup_range _ _ _ Hi) as Hrange.
  rewrite (flow_directions_length _ _ _ _ _ _ Hfd) in Hrange.
  destruct (flow_directions_lookup _ _ _ _ _ _ i Hfd ltac:(lia)) as (distance & Hdist & Hcell).
  cbv zeta in Hcell.
  destruct (interior rows cols _ _) eqn:Hint;
    [|rewrite Hcell in Hi; by injection Hi as <-].
  destruct Hcell as (derivatives & Hder & Hcell). rewrite Hcell in Hi. injection Hi as <-.
  split; [done|]. destruct (float_pos (float_max derivatives)); [|by left]. right.
  destruct (derivatives_not_nan _ _ _ _ _ _ _ _ Hdist Hder) as [Hne Hnn].
  pose proof (first_max_lt_length _ _ (argmax_first_max derivatives Hne Hnn)) as Hk.
  assert (length derivatives = length (offsets d4)) as Hlen.
  { unfold get_derivatives in Hder. apply mapM_Some, Forall2_length in Hder.
    rewrite <- Hder, length_zip. unfold get_neighbor_heights. rewrite length_fmap.
    apply mapM_Some, Forall2_length in Hdist. rewrite <- Hdist, <- offsets_flags_length. lia. }
  rewrite Hlen in Hk. clear Hlen. revert Hk. generalize (argmax SFltb derivatives).
  intros k Hk. unfold direction_code, direction_values.
  destruct d4; cbn in Hk;
    do 8 (destruct k as [|k]; [first [lia | set_unfold; cbn; lia]|]); lia.
Qed.

(** X25: the array that [get_flow_directions] returns holds [None] at the
    cells that are not interior cells, and at an interior cell -1 or one of
    the direction codes of the connectivity: [1, 2, 4, ..., 128] for D8 and
    [1, 2, 3, 4] for D4. *)
Theorem flow_directions_codes heights step_size rows cols d4 flow_directions i code :
  get_flow_directions heights step_size rows cols d4 = Some flow_directions →
  zlookup flow_directions i = Some code →
  match code with
  | None => interior rows cols (map_1d_to_2d i cols).1 (map_1d_to_2d i cols).2 = false
  | Some v => interior rows cols (map_1d_to_2d i cols).1 (map_1d_to_2d i cols).2 = true
              ∧ (v = -1 ∨ v ∈ direction_values d4)
  end.
Proof. apply flow_directions_code_cases. Qed.

Lemma flow_directions_codes_witness :
  interior 3 3 (map_1d_to_2d 4 3).1 (map_1d_to_2d 4 3).2 = true
  ∧ (2 = -1 ∨ 2 ∈ direction_values false).
Proof.
  apply (flow_directions_codes [5; 5; 5; 5; 3; 1; 5; 5; 5] 10 3 3 false
           [None; None; None; None; Some 2; None; None; None; None] 4 (Some 2));
    vm_compute; reflexivity.
Defined.

Lemma boundary_pairs_nonempty watershed nx d4 :
  watershed ≠ [] → boundary_pairs_of watershed nx d4 ≠ [].
Proof.
  intros Hne Hnil. pose proof (max_of_in watershed Hne) as Hmax.
  assert ((max_of watershed, max_of watershed + 1) ∈ boundary_pairs_of watershed nx d4) as Hin.
  { unfold boundary_pairs_of. apply list_elem_of_filter. split.
    - cbn. intros Hin. pose proof (max_of_ub watershed _ Hin). lia.
    - apply list_elem_of_bind. exists (max_of watershed). split; [|done].
      apply list_elem_of_fmap. exists (max_of watershed + 1). split; [done|].
      unfold get_neighbor_indices. destruct d4; set_solver. }
  rewrite Hnil in Hin. by apply elem_of_nil in Hin.
Qed.

Lemma elem_of_boundary_pairs watershed nx d4 p :
  p ∈ boundary_pairs_of watershed nx d4
  ↔ p.1 ∈ watershed ∧ p.2 ∈ get_neighbor_indices p.1 nx d4 ∧ p.2 ∉ watershed.
Proof.
  unfold boundary_pairs_of. rewrite list_elem_of_filter, list_elem_of_bind. split.
  - intros [Hout (u & Hp & Hu)]. apply list_elem_of_fmap in Hp as (v & -> & Hv). done.
  - intros (Hu & Hv & Hout). split; [done|]. exists p.1. split; [|done].
    apply list_elem_of_fmap. exists p.2. split; [by destruct p|done].
Qed.

Lemma mapM_cons_Some {A B} (f : A → option B) x y (l : list A) (k : list B) :
  f x = Some y → mapM f l = Some k → mapM f (x :: l) = Some (y :: k).
Proof. intros Hx Hl. cbn. by rewrite Hx, Hl. Qed.

(** X26: for watersheds that are not empty and are made of interior
    cells of a raster of [rows] rows and [cols] columns, the three steps of
    the spill engine compose without failure: the boundary pairs, the
    candidates among them and the steepest candidate exist for every
    watershed, and the pair chosen for a watershed leads from a cell of the
    watershed to one of its neighbours outside of the watershed, a cell of
    the raster. *)
Theorem steepest_spill_pairs_of_watersheds heights rows cols d4 (watersheds : list (list Z)) :
  length heights = Z.to_nat (rows * cols) →
  Forall (λ ws, ws ≠ []
                ∧ Forall (λ c, interior rows cols (map_1d_to_2d c cols).1
                                 (map_1d_to_2d c cols).2 = true) ws) watersheds →
  ∃ boundary_pairs spill_pairs steepest,
    get_boundary_pairs_for_specific_watersheds watersheds cols d4 = Some boundary_pairs
    ∧ get_possible_spill_pairs heights boundary_pairs = Some spill_pairs
    ∧ steepest_spill_pairs heights cols spill_pairs = Some steepest
    ∧ Forall2 (λ ws p, p.1 ∈ ws ∧ p.2 ∈ get_neighbor_indices p.1 cols d4 ∧ (p.2 ∉ ws)
                       ∧ 0 ≤ p.2 < Z.of_nat (length heights))
        watersheds steepest.
Proof.
  intros Hlen.
  induction 1 as [|ws watersheds [Hne Hint] _ (bp & spill_pairs & steepest & Hbp & Hsp & Hst & Hall)].
  - exists [], [], []. by repeat split.
  - destruct (possible_spill_pairs heights (boundary_pairs_of ws cols d4)) as [cands|] eqn:Hcands.
    2:{ unfold possible_spill_pairs in Hcands.
        rewrite decide_False in Hcands by (by apply boundary_pairs_nonempty). done. }
    pose proof (possible_spill_pairs_nonempty _ _ _ Hcands) as Hcne.
    destruct (steepest_spill_pair_spec heights cols cands Hcne) as (k & sp & Hpair & Hk & _).
    exists (boundary_pairs_of ws cols d4 :: bp), (cands :: spill_pairs), (sp :: steepest).
    split; [|split; [|split]].
    + unfold get_boundary_pairs_for_specific_watersheds. apply mapM_cons_Some; [|done].
      by rewrite decide_False.
    + unfold get_possible_spill_pairs. by apply mapM_cons_Some.
    + unfold steepest_spill_pairs. by apply mapM_cons_Some.
    + constructor; [|done].
      unfold possible_spill_pairs in Hcands. destruct (decide _); [done|].
      injection Hcands as <-. apply list_elem_of_lookup_2 in Hk.
      apply list_elem_of_filter in Hk as [_ Hk].
      apply elem_of_boundary_pairs in Hk as (Hu & Hv & Hout).
      split; [done|]. split; [done|]. split; [done|].
      rewrite Forall_forall in Hint. rewrite Hlen.
      pose proof (interior_neighbor_range rows cols sp.1 sp.2 d4 (Hint _ Hu) Hv).
      pose proof (interior_bounds rows cols sp.1 (Hint _ Hu)). lia.
Qed.

Lemma steepest_spill_pairs_of_watersheds_witness :
  let heights := [9; 9; 9; 9; 9;  9; 1; 5; 3; 9;  9; 9; 9; 9; 9] in
  let watersheds := [[6]; [8; 7]] in
  ∃ boundary_pairs spill_pairs steepest,
    get_boundary_pairs_for_specific_watersheds watersheds 5 false = Some boundary_pairs
    ∧ get_possible_spill_pairs heights boundary_pairs = Some spill_pairs
    ∧ steepest_spill_pairs heights 5 spill_pairs = Some steepest
    ∧ Forall2 (λ ws p, p.1 ∈ ws ∧ p.2 ∈ get_neighbor_indices p.1 5 false ∧ (p.2 ∉ ws)
                       ∧ 0 ≤ p.2 < Z.of_nat (length heights))
        watersheds steepest.
Proof.
  intros heights watersheds.
  apply (steepest_spill_pairs_of_watersheds heights 3 5 false watersheds); [reflexivity|].
  by repeat constructor.
Defined.

Lemma boundary_pairs_perm watershed watershed' nx d4 :
  watershed ≡ₚ watershed' →
  boundary_pairs_of watershed nx d4 ≡ₚ boundary_pairs_of watershed' nx d4.
Proof.
  intros Hperm. unfold boundary_pairs_of.
  rewrite (filter_ext_elem (λ p : Z * Z, p.2 ∉ watershed) (λ p, p.2 ∉ watershed')).
  - by rewrite Hperm.
  - intros p _. by rewrite Hperm.
Qed.

(** X27: [get_boundary_pairs_in_watersheds] and
    [get_boundary_pairs_for_specific_watersheds] agree: for watersheds that
    are not empty and are made of cells of the grid both return, and the
    first returns, watershed by watershed, the pairs of the second, up to
    their order; the first fails when a watershed is empty or holds a cell
    beyond the grid. *)
Theorem boundary_pairs_in_watersheds_agree watersheds nx ny d4 :
  (Forall (λ ws, ws ≠ [] ∧ Forall (λ c, 0 ≤ c < nx * ny) ws) watersheds →
   ∃ boundary_pairs specific_pairs,
     get_boundary_pairs_in_watersheds watersheds nx ny d4 = Some boundary_pairs
     ∧ get_boundary_pairs_for_specific_watersheds watersheds nx d4 = Some specific_pairs
     ∧ Forall2 (≡ₚ) boundary_pairs specific_pairs)
  ∧ (Exists (λ ws, ws = [] ∨ Exists (λ c, nx * ny ≤ c) ws) watersheds →
     get_boundary_pairs_in_watersheds watersheds nx ny d4 = None).
Proof.
  unfold get_boundary_pairs_in_watersheds, get_boundary_pairs_for_specific_watersheds.
  split.
  - induction 1 as [|ws watersheds [Hne Hws] _ (bp & sp & Hbp & Hsp & Hall)].
    + by exists [], [].
    + exists (boundary_pairs_of (merge_sort Z.le ws) nx d4 :: bp),
        (boundary_pairs_of ws nx d4 :: sp). split; [|split].
      * apply mapM_cons_Some; [|done]. cbv zeta. rewrite decide_True; [done|]. split.
        -- intros Hnil. apply Hne, Permutation_nil_r. rewrite <- Hnil.
           by rewrite merge_sort_Permutation.
        -- by rewrite merge_sort_Permutation.
      * apply mapM_cons_Some; [|done]. by rewrite decide_False.
      * constructor; [|done]. apply boundary_pairs_perm, merge_sort_Permutation.
  - intros Hex. apply Exists_exists in Hex as (ws & Hws & Hex).
    destruct (mapM _ watersheds) as [bp|] eqn:Hbp; [|done]. exfalso.
    destruct (mapM_elem _ _ _ _ Hbp Hws) as (b & _ & Hb). cbv zeta in Hb.
    destruct (decide _) as [[Hne Hin]|]; [|done].
    destruct Hex as [->|Hex]; [done|].
    rewrite merge_sort_Permutation in Hin.
    apply Exists_exists in Hex as (c & Hc & Hge).
    rewrite Forall_forall in Hin. specialize (Hin c Hc). lia.
Qed.

Lemma boundary_pairs_in_watersheds_agree_witness :
  ∃ boundary_pairs specific_pairs,
    get_boundary_pairs_in_watersheds [[8; 7]; [6]] 5 3 false = Some boundary_pairs
    ∧ get_boundary_pairs_for_specific_watersheds [[8; 7]; [6]] 5 false = Some specific_pairs
    ∧ Forall2 (≡ₚ) boundary_pairs specific_pairs.
Proof.
  apply (boundary_pairs_in_watersheds_agree [[8; 7]; [6]] 5 3 false).
  repeat constructor; (done || lia).
Defined.

(** ** The two constructions of the node graph *)

Lemma removed_flow_code_cases heights step_size rows cols d4 flow_directions removed i code :
  get_flow_directions heights step_size rows cols d4 = Some flow_directions →
  remove_out_of_boundary_flow flow_directions rows cols d4 = Some removed →
  zlookup removed i = Some code →
  match code with
  | None => interior rows cols (map_1d_to_2d i cols).1 (map_1d_to_2d i cols).2 = false
  | Some v => interior rows cols (map_1d_to_2d i cols).1 (map_1d_to_2d i cols).2 = true
              ∧ (v = -1 ∨ v ∈ direction_values d4)
  end.
Proof.
  intros Hfd. unfold remove_out_of_boundary_flow. destruct (decide _); [|done]. intros [= <-].
  rewrite zlookup_imap. intros Hi.
  destruct (zlookup flow_directions i) as [code0|] eqn:H0; [|done].
  cbn in Hi. injection Hi as <-.
  pose proof (flow_directions_code_cases _ _ _ _ _ _ _ _ Hfd H0) as Hcases.
  assert (0 ≤ i) as Hi0 by (by apply zlookup_Some in H0 as [? _]).
  rewrite Z2Nat.id by done.
  destruct (leaves_interior d4 rows cols _ _ code0) eqn:Hleave; [|done].
  destruct code0 as [v|]; [|by rewrite leaves_interior_None in Hleave].
  destruct Hcases as [Hint _]. split; [done|by left].
Qed.

Lemma mjoin_filter_nonempty {A} (ls : list (list A)) :
  mjoin (filter (λ l, l ≠ []) ls) = mjoin ls.
Proof.
  induction ls as [|l ls IH]; [done|]. rewrite filter_cons.
  change (mjoin (l :: ls)) with (l ++ mjoin ls).
  destruct l as [|a l].
  - by rewrite decide_False by (by intros []).
  - rewrite decide_True by done.
    change (mjoin ((a :: l) :: ?x)) with ((a :: l) ++ mjoin x). by rewrite IH.
Qed.

Lemma translation_of_D8 nx v t :
  translation_of v (direction_values false) (translations nx false) = Some t
  ↔ (v, t) ∈ zip [1; 2; 4; 8; 16; 32; 64; 128]
               [- nx + 1; 1; nx + 1; nx; nx - 1; -1; - nx - 1; - nx].
Proof.
  cbn [direction_values translations translation_of zip zip_with].
  rewrite !elem_of_cons, elem_of_nil.
  repeat (destruct (decide _) as [->|?]; [split; [intros [= <-]; tauto|];
            intros Hor; f_equal;
            repeat (destruct Hor as [Heq|Hor]; [simplify_eq; lia|]); done|]).
  split; [done|]. intros Hor.
  repeat (destruct Hor as [Heq|Hor]; [simplify_eq; done|]). done.
Qed.

Section NodeGraphs.
Variables (heights : list Z) (step_size ny nx : Z).
Variables (flow_directions flow : list (option Z)) (A M : matrix).
Hypothesis step_pos : 0 < step_size.
Hypothesis flow_directions_eq :
  get_flow_directions heights step_size ny nx false = Some flow_directions.
Hypothesis flow_eq : get_flow_direction_indices heights step_size ny nx false = Some flow.
Hypothesis A_eq : create_nbr_connectivity_matrix flow_directions nx ny false = Some A.
Hypothesis M_eq : make_sparse_node_conn_matrix flow ny nx = Some M.

Lemma node_graphs_entry i j : entry A i j = entry M i j.
Proof.
  rewrite (make_sparse_entry _ _ _ _ _ _ M_eq).
  pose proof flow_eq as Hflow. unfold get_flow_direction_indices in Hflow.
  rewrite flow_directions_eq in Hflow. cbn [mbind option_bind] in Hflow.
  destruct (remove_out_of_boundary_flow _ ny nx false) as [removed|] eqn:Hremoved; [|done].
  cbn [mbind option_bind] in Hflow. apply (inj Some) in Hflow.
  pose proof A_eq as HA. unfold create_nbr_connectivity_matrix in HA.
  rewrite Hremoved in HA. cbn [mbind option_bind] in HA. cbv zeta in HA.
  set (groups := fmap (M := list) _ (zip _ _)) in HA.
  bind_case HA as edges Hedges.
  unfold np_concatenate in Hedges. destruct (decide _); [done|].
  assert (mjoin groups = edges) as Hjoin.
  { rewrite <- mjoin_filter_nonempty. congruence. }
  clear Hedges. rename Hjoin into Hedges.
  assert (2 ≤ ny ∧ 2 ≤ nx) as [Hny Hnx].
  { unfold remove_out_of_boundary_flow in Hremoved. by destruct (decide (2 ≤ ny ∧ 2 ≤ nx)). }
  assert (Hlen : length removed = Z.to_nat (ny * nx)).
  { unfold remove_out_of_boundary_flow in Hremoved. destruct (decide _); [|done].
    injection Hremoved as <-.
    by rewrite length_imap, (flow_directions_length _ _ _ _ _ _ flow_directions_eq). }
  (* the edges of the first construction *)
  assert (Hin : ∀ i j, (i, j) ∈ edges
            ↔ ∃ v t, translation_of v (direction_values false) (translations nx false) = Some t
                     ∧ zlookup removed i = Some (Some v) ∧ j = i + t).
  { intros i' j'. rewrite <- Hedges, list_elem_of_join. split.
    - intros (l & Hl & Hgroup). unfold groups in Hgroup.
      apply list_elem_of_fmap in Hgroup as ([v t] & -> & Hvt).
      apply list_elem_of_fmap in Hl as (i'' & [= -> ->] & [Hv _]%list_elem_of_filter).
      exists v, t. split; [by apply translation_of_D8|done].
    - intros (v & t & Hvt & Hv & ->). apply translation_of_D8 in Hvt.
      eexists. split;
        [|unfold groups; apply list_elem_of_fmap; exists (v, t); split; [reflexivity|done]].
      apply list_elem_of_fmap. exists i'. split; [done|].
      apply list_elem_of_filter. split; [done|]. apply elem_of_seqZ.
      apply zlookup_range in Hv. lia. }
  assert (Hnd : NoDup edges).
  { rewrite <- Hedges. unfold groups. rewrite list_join_bind, list_fmap_bind.
    apply NoDup_bind.
    - intros [v1 t1] [v2 t2] [a b] _ _ H1 H2. unfold compose, id in H1, H2.
      cbn [fst snd] in H1, H2.
      apply list_elem_of_fmap in H1 as (i1 & [= -> ->] & [Hv1 _]%list_elem_of_filter).
      apply list_elem_of_fmap in H2 as (i2 & [= <- Ht] & [Hv2 _]%list_elem_of_filter).
      f_equal; [congruence|lia].
    - intros [v t] _. unfold compose, id. cbn [fst snd].
      apply NoDup_fmap_2; [|apply NoDup_filter, NoDup_seqZ].
      intros i1 i2 [= ->]. done.
    - apply NoDup_zip_l. apply (bool_decide_unpack _). by vm_compute. }
  rewrite (csr_entry_NoDup _ _ _ _ _ _ i j HA); rewrite zip_fst_snd; [|done].
  apply decide_ext. rewrite Hin. split.
  - intros (v & t & Hvt & Hv & ->).
    pose proof (removed_flow_code_cases _ _ _ _ _ _ _ _ _ flow_directions_eq Hremoved Hv)
      as [Hint _].
    pose proof (zlookup_range _ _ _ Hv) as Hrange.
    assert (Hfi : zlookup flow i = Some (Some (i + t))).
    { rewrite <- Hflow, zlookup_imap, Hv. cbn [fmap option_fmap option_map].
      rewrite Hvt. by rewrite Z2Nat.id by lia. }
    split; [lia|]. split; [done|].
    destruct (flow_target_spec heights step_size ny nx false flow i step_pos flow_eq Hint)
      as [Hpit|(j' & Hj' & _ & Hr & Hnb & _)].
    + rewrite Hfi in Hpit. injection Hpit as Hpit. exfalso.
      unfold interior, map_1d_to_2d in Hint. cbn [fst snd] in Hint.
      apply bool_decide_eq_true in Hint.
      pose proof (Z.div_mod i nx ltac:(lia)) as Hdm.
      assert (nx * 1 ≤ nx * (i `div` nx)) by nia.
      apply translation_of_D8 in Hvt. cbn [zip zip_with] in Hvt.
      rewrite !elem_of_cons, elem_of_nil in Hvt.
      repeat (destruct Hvt as [[= ? ?]|Hvt]; [lia|]). done.
    + rewrite Hfi in Hj'. injection Hj' as <-.
      destruct (decide (i + t = 0)) as [H0|]; [|lia]. exfalso. apply Hnb. rewrite H0.
      unfold on_domain_boundary, map_1d_to_2d. cbn [fst snd]. left. apply Z.div_0_l. lia.
  - intros (Hi & Hfi & Hpos).
    rewrite <- Hflow, zlookup_imap in Hfi.
    destruct (zlookup removed i) as [[v|]|] eqn:Hv; [|done|done].
    cbn [fmap option_fmap option_map] in Hfi. rewrite Z2Nat.id in Hfi by lia.
    destruct (translation_of v _ _) as [t|] eqn:Hvt.
    + injection Hfi as <-. by exists v, t.
    + injection Hfi as <-.
      destruct (removed_flow_code_cases _ _ _ _ _ _ _ _ _ flow_directions_eq Hremoved Hv)
        as [_ [->|Hval]]; [lia|].
      exfalso. cbn [direction_values] in Hval. rewrite !elem_of_cons, elem_of_nil in Hval.
      repeat (destruct Hval as [->|Hval]; [by cbn in Hvt|]). done.
Qed.
End NodeGraphs.

(** X28: the two constructions of the node graph agree for D8: the
    matrix that [create_nbr_connectivity_matrix] builds from the flow
    directions of a raster has the same entries as the matrix that
    [make_sparse_node_conn_matrix] builds from the flow direction indices of
    the raster. *)
Theorem node_graphs_agree heights step_size ny nx flow_directions flow A M i j :
  0 < step_size →
  get_flow_directions heights step_size ny nx false = Some flow_directions →
  get_flow_direction_indices heights step_size ny nx false = Some flow →
  create_nbr_connectivity_matrix flow_directions nx ny false = Some A →
  make_sparse_node_conn_matrix flow ny nx = Some M →
  entry A i j = entry M i j.
Proof. intros Hstep Hfd Hflow HA HM. by eapply node_graphs_entry. Qed.

Lemma node_graphs_agree_witness :
  let flow_directions := [None; None; None; None; None;
                          None; Some 2; Some (-1); Some 32; None;
                          None; None; None; None; None] in
  let flow := [None; None; None; None; None;
               None; Some 7; Some (-1); Some 7; None;
               None; None; None; None; None] in
  let A := default (Matrix 0 0 (λ _ _, 0))
             (create_nbr_connectivity_matrix flow_directions 5 3 false) in
  let M := default (Matrix 0 0 (λ _ _, 0)) (make_sparse_node_conn_matrix flow 3 5) in
  entry A 6 7 = entry M 6 7.
Proof.
  intros flow_directions flow A M.
  apply (node_graphs_agree [9; 9; 9; 9; 9;  9; 4; 2; 9; 9;  9; 9; 9; 9; 9]
           10 3 5 flow_directions flow A M 6 7);
    [lia | vm_compute; reflexivity | vm_compute; reflexivity | |].
  - subst A.
    by destruct (create_nbr_connectivity_matrix _ 5 3 false) eqn:HA; [|vm_compute in HA].
  - subst M. by destruct (make_sparse_node_conn_matrix flow 3 5) eqn:HM; [|vm_compute in HM].
Defined.

(** X29: local minima and flat areas are marked -1: an interior cell none
    of whose neighbours, in the chosen connectivity, is strictly lower holds
    -1 in the field of [get_flow_direction_indices]. *)
Theorem local_minimum_is_marked heights step_size rows cols d4 flow i :
  0 < step_size →
  get_flow_direction_indices heights step_size rows cols d4 = Some flow →
  interior rows cols (map_1d_to_2d i cols).1 (map_1d_to_2d i cols).2 = true →
  (∀ j, j ∈ get_neighbor_indices i cols d4 → height heights i ≤ height heights j) →
  zlookup flow i = Some (Some (-1)).
Proof.
  intros Hstep Hflow Hint Hmin.
  destruct (flow_target_spec heights step_size rows cols d4 flow i Hstep Hflow Hint)
    as [Hpit|(j & _ & Hj & _ & _ & Hlt)]; [done|].
  specialize (Hmin j Hj). lia.
Qed.

Lemma local_minimum_is_marked_witness :
  let flow := [None; None; None; None; None;
               None; Some (-1); Some (-1); Some (-1); None;
               None; None; None; None; None] in
  zlookup flow 7 = Some (Some (-1)).
Proof.
  intros flow.
  apply (local_minimum_is_marked [3; 3; 3; 3; 3;  3; 3; 3; 3; 3;  3; 3; 3; 3; 3]
           10 3 5 false flow 7); [lia | vm_compute; reflexivity | reflexivity |].
  intros j Hj. unfold get_neighbor_indices in Hj.
  rewrite !elem_of_cons, elem_of_nil in Hj.
  repeat (destruct Hj as [->|Hj]; [vm_compute; discriminate|]). done.
Defined.

(** ** Combined minima *)

Lemma filter_length_lt {A} (P Q : A → Prop) `{!∀ x, Decision (P x), !∀ x, Decision (Q x)}
    (l : list A) m :
  (∀ x, Q x → P x) → m ∈ l → P m → ¬ Q m →
  (length (filter Q l) < length (filter P l))%nat.
Proof.
  intros HQP. induction l as [|x l IH]; intros Hm HPm HQm; [by apply elem_of_nil in Hm|].
  assert (length (filter Q l) ≤ length (filter P l))%nat as Hle.
  { clear IH Hm. induction l as [|y l IH]; [done|]. rewrite !filter_cons.
    destruct (decide (Q y)) as [HQ|HQ].
    - rewrite decide_True by auto. cbn. lia.
    - destruct (decide (P y)); cbn; lia. }
  rewrite !filter_cons. apply elem_of_cons in Hm as [<-|Hm].
  - rewrite (decide_False (P := Q m)), (decide_True (P := P m)) by done. cbn. lia.
  - specialize (IH Hm HPm HQm).
    destruct (decide (Q x)) as [HQ|HQ].
    + rewrite decide_True by auto. cbn. lia.
    + destruct (decide (P x)); cbn; lia.
Qed.

Lemma mjoin_singletons {A} (l : list A) : mjoin ((λ m, [m]) <$> l) = l.
Proof. induction l as [|x l IH]; [done|]. rewrite fmap_cons. change (mjoin ([x] :: ?y)) with (x :: mjoin y). by rewrite IH. Qed.

Lemma NoDup_mjoin_filter {A} (P : list A → Prop) `{!∀ x, Decision (P x)} (ls : list (list A)) :
  NoDup (mjoin ls) → NoDup (mjoin (filter P ls)).
Proof.
  induction ls as [|l ls IH]; [done|].
  change (mjoin (l :: ls)) with (l ++ mjoin ls). rewrite NoDup_app.
  intros (Hl & Hdisj & Hls). rewrite filter_cons. destruct (decide (P l)); [|by apply IH].
  change (mjoin (l :: ?x)) with (l ++ mjoin x). apply NoDup_app.
  split; [done|]. split; [|by apply IH].
  intros x Hx Hin. apply (Hdisj x Hx).
  apply list_elem_of_join in Hin as (l' & Hxl' & Hl').
  apply list_elem_of_filter in Hl' as [_ Hl']. apply list_elem_of_join. by exists l'.
Qed.

Section CombineMinima.
Variables (cols : Z) (d4 : bool) (minima : list Z).

(** A set of cells that no connection between minima leaves. *)
Definition closed_component (S : list Z) : Prop :=
  ∀ a b, a ∈ S → b ∈ minima → minima_connected cols d4 a b → b ∈ S.

Lemma minima_connected_sym a b :
  minima_connected cols d4 a b → minima_connected cols d4 b a.
Proof. unfold minima_connected. tauto. Qed.

Lemma grow_component_extends fuel comp x :
  x ∈ comp → x ∈ grow_component fuel cols d4 minima comp.
Proof.
  revert comp. induction fuel as [|fuel IH]; intros comp Hx; [done|]. cbn.
  destruct (decide _); [done|]. apply IH, elem_of_app. by left.
Qed.

Lemma grow_component_incl fuel comp x :
  x ∈ grow_component fuel cols d4 minima comp → x ∈ comp ∨ x ∈ minima.
Proof.
  revert comp. induction fuel as [|fuel IH]; intros comp Hx; [by left|]. cbn in Hx.
  destruct (decide _); [by left|].
  apply IH in Hx as [Hx|Hx]; [|by right].
  apply elem_of_app in Hx as [Hx|Hx]; [by left|].
  apply list_elem_of_filter in Hx as [_ Hx]. by right.
Qed.

Lemma grow_component_closed fuel comp :
  (length (filter (λ m, m ∉ comp) minima) ≤ fuel)%nat →
  closed_component (grow_component fuel cols d4 minima comp).
Proof.
  revert comp. induction fuel as [|fuel IH]; intros comp Hfuel.
  - intros a b Ha Hb _. cbn in *.
    destruct (decide (b ∈ comp)) as [|Hout]; [done|]. exfalso.
    assert (b ∈ filter (λ m, m ∉ comp) minima) as Hin by (by apply list_elem_of_filter).
    destruct (filter (λ m, m ∉ comp) minima); [by apply elem_of_nil in Hin|cbn in Hfuel; lia].
  - cbn [grow_component]. cbv zeta.
    set (new := filter (λ m, (m ∉ comp) ∧ Exists (λ a, minima_connected cols d4 a m) comp)
                  minima).
    destruct (decide (new = [])) as [Hnil|Hne].
    + intros a b Ha Hb Hab. destruct (decide (b ∈ comp)) as [|Hout]; [done|]. exfalso.
      assert (b ∈ new) as Hin.
      { apply list_elem_of_filter. split; [|done]. split; [done|].
        apply Exists_exists. by exists a. }
      rewrite Hnil in Hin. by apply elem_of_nil in Hin.
    + apply IH. destruct new as [|m new'] eqn:Hnew; [done|].
      assert (m ∈ new) as Hm by (rewrite Hnew; left).
      unfold new in Hm. apply list_elem_of_filter in Hm as [[Hout _] Hm].
      assert (length (filter (λ x, x ∉ comp ++ m :: new') minima)
              < length (filter (λ x, x ∉ comp) minima))%nat; [|lia].
      apply (filter_length_lt _ _ minima m); [|done|done|].
      * intros x Hx Hin. apply Hx, elem_of_app. by left.
      * intros Hnot. apply Hnot, elem_of_app. right. left.
Qed.

Lemma grow_component_avoids fuel comp S :
  closed_component S → Forall (λ x, x ∈ minima) comp → (∀ x, x ∈ comp → x ∉ S) →
  ∀ x, x ∈ grow_component fuel cols d4 minima comp → x ∉ S.
Proof.
  intros Hclosed. revert comp. induction fuel as [|fuel IH]; intros comp Hmin Hout x Hx;
    [by apply Hout|].
  cbn in Hx. destruct (decide _); [by apply Hout|].
  apply (IH _) in Hx; [done| |].
  - apply Forall_app. split; [done|]. apply Forall_forall.
    by intros y [_ Hy]%list_elem_of_filter.
  - intros y [Hy|Hy]%elem_of_app; [by apply Hout|].
    apply list_elem_of_filter in Hy as [[_ Hex] Hy]. intros HyS.
    apply Exists_exists in Hex as (a & Ha & Hay).
    apply (Hout a Ha). apply (Hclosed y a HyS).
    + rewrite Forall_forall in Hmin. by apply Hmin.
    + by apply minima_connected_sym.
Qed.

Lemma connected_components_spec fuel todo :
  Forall (λ x, x ∈ minima) todo → (length todo ≤ fuel)%nat →
  let components := connected_components fuel cols d4 minima todo in
  Forall (λ comp, closed_component comp ∧ NoDup comp ∧ Forall (λ x, x ∈ minima) comp)
    components
  ∧ (∀ m, m ∈ todo → m ∈ mjoin components)
  ∧ (∀ S, closed_component S → (∀ m, m ∈ todo → m ∉ S) →
       ∀ x, x ∈ mjoin components → x ∉ S)
  ∧ NoDup (mjoin components).
Proof.
  revert todo. induction fuel as [|fuel IH]; intros todo Htodo Hfuel.
  { destruct todo; [|cbn in Hfuel; lia]. cbn. repeat split; try done; constructor. }
  destruct todo as [|m todo]. { cbn. repeat split; try done; constructor. }
  cbn [connected_components]. cbv zeta.
  set (comp := np_unique (grow_component (length minima) cols d4 minima [m])).
  apply Forall_cons in Htodo as [Hm Htodo].
  assert (Hcomp : ∀ x, x ∈ comp ↔ x ∈ grow_component (length minima) cols d4 minima [m]).
  { intros x. apply elem_of_np_unique. }
  assert (Hclosed : closed_component comp).
  { intros a b Ha Hb Hab. apply Hcomp. apply Hcomp in Ha.
    eapply (grow_component_closed (length minima) [m]); [apply length_filter|done..]. }
  assert (Hsub : Forall (λ x, x ∈ minima) comp).
  { apply Forall_forall. intros x Hx%Hcomp.
    apply grow_component_incl in Hx as [Hx|Hx]; [|done].
    apply list_elem_of_singleton in Hx. by subst. }
  assert (Hmc : m ∈ comp) by (apply Hcomp, grow_component_extends; left).
  set (rest := filter (λ x, x ∉ comp) todo).
  assert (Hrest : Forall (λ x, x ∈ minima) rest).
  { apply Forall_forall. intros x [_ Hx]%list_elem_of_filter.
    rewrite Forall_forall in Htodo. by apply Htodo. }
  assert (Hlen : (length rest ≤ fuel)%nat).
  { pose proof (length_filter (λ x, x ∉ comp) todo). cbn in Hfuel. unfold rest. lia. }
  destruct (IH rest Hrest Hlen) as (Hall & Hcover & Havoid & Hnd).
  change (mjoin (comp :: ?x)) with (comp ++ mjoin x).
  split; [|split; [|split]].
  - constructor; [|done]. split; [done|]. split; [apply NoDup_np_unique|done].
  - intros x [->|Hx]%elem_of_cons; apply elem_of_app; [by left|].
    destruct (decide (x ∈ comp)); [by left|]. right. apply Hcover.
    by apply list_elem_of_filter.
  - intros S HS Hout x [Hx|Hx]%elem_of_app.
    + apply Hcomp in Hx. eapply (grow_component_avoids _ [m] S); try done.
      * by constructor.
      * intros y ->%list_elem_of_singleton. apply Hout. left.
    + apply (Havoid S HS); [|done]. intros y [_ Hy]%list_elem_of_filter.
      apply Hout. by right.
  - apply NoDup_app. split; [apply NoDup_np_unique|]. split; [|done].
    intros x Hx Hin. apply (Havoid comp Hclosed) in Hin; [done|].
    by intros y [Hy _]%list_elem_of_filter.
Qed.
End CombineMinima.

(** X30: [combine_minima] partitions the minima: for minima given without
    repetition, the groups taken together are the minima again, each once;
    and two minima of which one is a neighbour of the other lie in one group. *)
Theorem combine_minima_partition local_minima rows cols d4 :
  NoDup local_minima →
  mjoin (combine_minima local_minima rows cols d4) ≡ₚ local_minima
  ∧ ∀ a b, a ∈ local_minima → b ∈ local_minima →
      b ∈ get_neighbor_indices a cols d4 →
      ∃ group, group ∈ combine_minima local_minima rows cols d4 ∧ a ∈ group ∧ b ∈ group.
Proof.
  intros Hnd. unfold combine_minima.
  destruct (decide (length local_minima = 1%nat)) as [Hone|Hmany].
  { split; [cbn; by rewrite app_nil_r|].
    intros a b Ha Hb _. exists local_minima. split; [left|done]. }
  cbv zeta.
  set (components := connected_components (length local_minima) cols d4 local_minima
                       (np_unique local_minima)).
  destruct (connected_components_spec cols d4 local_minima (length local_minima)
              (np_unique local_minima)) as (Hall & Hcover & _ & Hndc).
  { apply Forall_forall. intros x Hx. by rewrite elem_of_np_unique in Hx. }
  { apply submseteq_length, NoDup_submseteq; [apply NoDup_np_unique|].
    intros x Hx. by rewrite elem_of_np_unique in Hx. }
  fold components in Hall, Hcover, Hndc.
  rewrite Forall_forall in Hall.
  assert (Hgroup : ∀ a b, a ∈ local_minima → b ∈ local_minima →
            b ∈ get_neighbor_indices a cols d4 → a ≠ b →
            ∃ comp, comp ∈ filter (λ ws, (1 < length ws)%nat) components
                    ∧ a ∈ comp ∧ b ∈ comp).
  { intros a b Ha Hb Hab Hne.
    assert (a ∈ mjoin components) as Hin by (by apply Hcover, elem_of_np_unique).
    apply list_elem_of_join in Hin as (comp & Hac & Hcomp).
    destruct (Hall comp Hcomp) as (Hclosed & Hndcomp & _).
    assert (b ∈ comp) as Hbc by (apply (Hclosed a b Hac Hb); by left).
    exists comp. split; [|done]. apply list_elem_of_filter. split; [|done].
    destruct comp as [|x [|y comp]]; [by apply elem_of_nil in Hac| |cbn; lia].
    apply list_elem_of_singleton in Hac, Hbc. congruence. }
  set (combined_minima := filter (λ ws, (1 < length ws)%nat) components) in *.
  destruct (decide (combined_minima = [])) as [Hnil|Hsome].
  { split; [by rewrite mjoin_singletons|].
    intros a b Ha Hb Hab. destruct (decide (a = b)) as [<-|Hne].
    - exists [a]. split; [|split; left]. apply list_elem_of_fmap. by exists a.
    - destruct (Hgroup a b Ha Hb Hab Hne) as (comp & Hcomp & _).
      rewrite Hnil in Hcomp. by apply elem_of_nil in Hcomp. }
  assert (Hperm : mjoin (combined_minima ++ ((λ m, [m]) <$>
            np_unique (filter (λ m, m ∉ mjoin combined_minima) local_minima)))
          ≡ₚ local_minima).
  { rewrite join_app, mjoin_singletons. apply NoDup_Permutation; [|done|].
    + apply NoDup_app. split; [by apply NoDup_mjoin_filter|].
      split; [|apply NoDup_np_unique].
      intros x Hx Hrem. rewrite elem_of_np_unique in Hrem.
      apply list_elem_of_filter in Hrem as [Hout _]. by apply Hout.
    + intros x. rewrite elem_of_app. split.
      * intros [Hx|Hx].
        -- apply list_elem_of_join in Hx as (comp & Hx & Hcomp).
           apply list_elem_of_filter in Hcomp as [_ Hcomp].
           destruct (Hall comp Hcomp) as (_ & _ & Hsub).
           rewrite Forall_forall in Hsub. by apply Hsub.
        -- rewrite elem_of_np_unique in Hx.
           by apply list_elem_of_filter in Hx as [_ Hx].
      * intros Hx. destruct (decide (x ∈ mjoin combined_minima)); [by left|].
        right. apply elem_of_np_unique. by apply list_elem_of_filter. }
  split; [done|].
  intros a b Ha Hb Hab. destruct (decide (a = b)) as [<-|Hne].
  - rewrite <- Hperm in Ha. apply list_elem_of_join in Ha as (group & Ha & Hgr).
    by exists group.
  - destruct (Hgroup a b Ha Hb Hab Hne) as (comp & Hcomp & Hac & Hbc).
    exists comp. split; [|done]. apply elem_of_app. by left.
Qed.

Lemma combine_minima_partition_witness :
  NoDup [5; 12; 6; 7] ∧
  (mjoin (combine_minima [5; 12; 6; 7] 3 5 false) ≡ₚ [5; 12; 6; 7]
   ∧ ∀ a b, a ∈ [5; 12; 6; 7] → b ∈ [5; 12; 6; 7] →
       b ∈ get_neighbor_indices a 5 false →
       ∃ group, group ∈ combine_minima [5; 12; 6; 7] 3 5 false ∧ a ∈ group ∧ b ∈ group).
Proof.
  assert (NoDup [5; 12; 6; 7]) as Hnd by (repeat constructor; set_unfold; lia).
  split; [exact Hnd|]. exact (combine_minima_partition [5; 12; 6; 7] 3 5 false Hnd).
Defined.

(** ** Rasters without interior *)






